(** * agent-bridge: signaling controller, RTP send state and audio send pipeline

    A shallow embedding of the Go sources

    - [server/handlers.go], [server/room.go], [server/peer.go], the signaling
      types and [triggerNegotiation] (module [Signaling]),
    - the programmatic client's [Connect], [WriteOpus] and [Disconnect], its
      stream ids, and the [RTPPacketizer] of [pkg/audio/encoder.go] (module
      [Rtp]); the client's test audio generator (module [Generator]),
    - [pkg/audio/encoder.go]: [ResampleMono], [MonoToStereo], [OpusEncoder]
      and the [AudioPipeline] (module [Audio]); the [OpusDecoder] (module
      [Decoder]),
    - the AssemblyAI client's [SendAudio] and [resample] (module
      [AssemblyAI]),
    - the transcript handlers and [speakResponse] of
      [examples/ai_agent/main.go] (module [Agent]),

    followed by the properties the specification states about them
    (modules [SignalingSpec], [RtpSpec], [Float64Spec] and [AudioSpec]; the
    channel-averaging law in [PcmSpec]) and further properties of the code
    (modules [SessionSpec], [ClientSpec], [GeneratorSpec], [PcmSpec],
    [FrameSpec], [AgentSpec] and [ResamplerSpec]).

    Conventions.  Go's [int] is 64 bits wide; integers are in [Z] with the
    wrap-around written where the source can overflow.  [float64] is IEEE
    754 binary64.  A function that can panic returns a [result].  The
    external libraries (Pion, libopus) are parameters: type classes
    [MediaStack], [Opus] and [OpusDec]. *)

From stdpp Require Import gmap strings list fin_maps.
From Stdlib Require Import ZArith Lia.
From Stdlib Require Import Strings.Byte.
From Stdlib Require Import Floats.SpecFloat.

Local Open Scope string_scope.
Local Open Scope list_scope.

(* ===================================================================== *)
(** * Signaling controller (server) *)
(* ===================================================================== *)

Module Signaling.

(** [SignalMessage] of the server's signaling types.  Absent JSON fields
    decode to the empty string. *)
Record SignalMessage := mkSignalMessage {
  sm_Type : string;
  sm_Room : string;
  sm_ClientID : string;
  sm_SDP : string;
  sm_Candidate : string;
  sm_Data : string;
  sm_TargetID : string
}.

#[global] Instance SignalMessage_eq_dec : EqDecision SignalMessage.
Proof. solve_decision. Defined.

(** [Peer] of [server/peer.go].  [peer_Conn] names the WebSocket connection
    and [peer_PeerConnection] the media session (both opaque handles),
    [peer_Room] is the back-reference set by [AddPeer] ([None] is Go's nil;
    rooms are never deleted, so the room id stands for the pointer), and
    [peer_LocalTracks] lists the keys of the forwarding-track map.  The
    first four fields are written once, before any other handler sees the
    peer; the tracks are added by the OnTrack callback of the media stack,
    which is outside the signaling handlers embedded here, so a state holds
    whatever tracks it holds. *)
Record Peer := mkPeer {
  peer_ID : string;
  peer_Conn : nat;
  peer_PeerConnection : option nat;
  peer_Room : option string;
  peer_LocalTracks : list string
}.

#[global] Instance Peer_eq_dec : EqDecision Peer.
Proof. solve_decision. Defined.

(** [Room] of [server/room.go]. *)
Record Room := mkRoom {
  room_ID : string;
  room_Peers : gmap string Peer
}.

(** The process-wide state: the [roomManager], and the two kinds of effect
    the handlers have on the outside: [sent] records every call of
    [Conn.WriteJSON] in order (recipient peer and message), [closed] every
    call of [PeerConnection.Close]. *)
Record Server := mkServer {
  Rooms : gmap string Room;
  sent : list (Peer * SignalMessage);
  closed : list Peer
}.

Definition newServer : Server := mkServer ∅ [] [].

(** The Pion media stack, as far as the handlers consult it. *)
Class MediaStack := {
  (** [PeerConnection.AddTrack] returned no error *)
  AddTrack_ok : Peer → string → bool;
  (** [CreateOffer] followed by [SetLocalDescription]: the offer's SDP, or
      [None] when either fails *)
  CreateOffer : Peer → option string;
  (** [SetRemoteDescription], [CreateAnswer], [SetLocalDescription] on a
      remote offer: the answer's SDP, or [None] when one of them fails *)
  CreateAnswer : Peer → string → option string
}.

(** ** [server/peer.go] *)

Definition SendMessage (p : Peer) (msg : SignalMessage) (s : Server) : Server :=
  mkServer (Rooms s) (sent s ++ [(p, msg)]) (closed s).

(** ** [server/room.go] *)

Definition peersOf (room : string) (s : Server) : gmap string Peer :=
  match Rooms s !! room with
  | Some r => room_Peers r
  | None => ∅
  end.

Definition withPeers (f : gmap string Peer → gmap string Peer) (r : Room) : Room :=
  mkRoom (room_ID r) (f (room_Peers r)).

Definition AddPeer (room : string) (peer : Peer) (s : Server) : Server * Peer :=
  let peer' := mkPeer (peer_ID peer) (peer_Conn peer) (peer_PeerConnection peer)
                      (Some room) (peer_LocalTracks peer) in
  (mkServer (alter (withPeers (insert (peer_ID peer) peer')) room (Rooms s))
            (sent s) (closed s),
   peer').

Definition RemovePeer (room : string) (peerID : string) (s : Server) : Server :=
  mkServer (alter (withPeers (delete peerID)) room (Rooms s)) (sent s) (closed s).

(** The entries a [range r.Peers] loop visits under the test
    [id != excludeID].  Go leaves the order of a map iteration open; the
    model visits in the order of [map_to_list]. *)
Definition othersOf (room : string) (excludeID : string) (s : Server)
  : list (string * Peer) :=
  filter (λ kp, kp.1 ≠ excludeID) (map_to_list (peersOf room s)).

Definition GetOtherPeers (room : string) (excludeID : string) (s : Server) : list Peer :=
  (othersOf room excludeID s).*2.

Definition BroadcastExcept (room : string) (excludeID : string)
    (msg : SignalMessage) (s : Server) : Server :=
  foldl (λ s' p, SendMessage p msg s') s (GetOtherPeers room excludeID s).

Definition GetPeer (room : string) (peerID : string) (s : Server) : option Peer :=
  peersOf room s !! peerID.

Definition GetOrCreateRoom (roomID : string) (s : Server) : Server :=
  match Rooms s !! roomID with
  | Some _ => s
  | None => mkServer (<[roomID := mkRoom roomID ∅]> (Rooms s)) (sent s) (closed s)
  end.

Section Handlers.
Context `{MediaStack}.

(** ** [triggerNegotiation] and [addTrackToPeer] *)

Definition triggerNegotiation (peer : Peer) (s : Server) : Server :=
  match CreateOffer peer with
  | None => s
  | Some sdp =>
      SendMessage peer (mkSignalMessage "offer" "" "" sdp "" "" "") s
  end.

Definition addTrackToPeer (peer : Peer) (track : string) (s : Server) : Server :=
  if AddTrack_ok peer track then triggerNegotiation peer s else s.

(** ** [server/handlers.go] *)

Definition peerJoined (id : string) : SignalMessage :=
  mkSignalMessage "peer_joined" "" id "" "" "" "".

Definition peerLeft (id : string) : SignalMessage :=
  mkSignalMessage "peer_left" "" id "" "" "" "".

(** [handleJoin conn msg]; [pc] is what [createPeerConnection()] returns in
    this call ([None]: an error).  The callbacks it installs run on later
    media events and are not part of the join itself. *)
Definition handleJoin (conn : nat) (msg : SignalMessage) (pc : option nat)
    (s : Server) : Server * option Peer :=
  match pc with
  | None => (s, None)
  | Some pc =>
      let peer := mkPeer (sm_ClientID msg) conn (Some pc) None [] in
      let room := sm_Room msg in
      let s := GetOrCreateRoom room s in
      let s := BroadcastExcept room (peer_ID peer) (peerJoined (peer_ID peer)) s in
      let '(s, peer) := AddPeer room peer s in
      let s :=
        foldl (λ s' existingPeer,
                 foldl (λ s'' track, addTrackToPeer peer track s'')
                       s' (peer_LocalTracks existingPeer))
              s (GetOtherPeers room (peer_ID peer) s) in
      let s := triggerNegotiation peer s in
      (s, Some peer)
  end.

Definition handleOffer (peer : Peer) (msg : SignalMessage) (s : Server) : Server :=
  match CreateAnswer peer (sm_SDP msg) with
  | None => s
  | Some sdp => SendMessage peer (mkSignalMessage "answer" "" "" sdp "" "" "") s
  end.

(** [handleAnswer] and [handleCandidate] only talk to the media session. *)
Definition handleAnswer (peer : Peer) (msg : SignalMessage) (s : Server) : Server := s.
Definition handleCandidate (peer : Peer) (msg : SignalMessage) (s : Server) : Server := s.

Definition handleScreenshot (peer : Peer) (msg : SignalMessage) (s : Server) : Server :=
  match peer_Room peer with
  | None => s
  | Some room =>
      if decide (sm_TargetID msg = "") then s
      else
        match GetPeer room (sm_TargetID msg) s with
        | None => s
        | Some targetPeer =>
            SendMessage targetPeer
              (mkSignalMessage "screenshot" "" (peer_ID peer) "" "" (sm_Data msg) "") s
        end
  end.

Definition handlePeerDisconnect (peer : Peer) (s : Server) : Server :=
  let s :=
    match peer_Room peer with
    | Some room =>
        let s := RemovePeer room (peer_ID peer) s in
        BroadcastExcept room (peer_ID peer) (peerLeft (peer_ID peer)) s
    | None => s
    end in
  match peer_PeerConnection peer with
  | Some _ => mkServer (Rooms s) (sent s) (closed s ++ [peer])
  | None => s
  end.

(** ** The receive loop of [handleWebSocket]

    One iteration of the [for] loop.  The loop's only local state is the
    variable [peer]; [Returned] says that the handler has returned (and the
    deferred [conn.Close()] has run). *)
Inductive ReadResult :=
  | ReadOk (msg : SignalMessage)
  | ReadErr.

Inductive LoopState :=
  | Running (peer : option Peer)
  | Returned.

Definition handleWebSocket_iter (conn : nat) (pc : option nat)
    (peer : option Peer) (r : ReadResult) (s : Server) : Server * LoopState :=
  match r with
  | ReadErr =>
      match peer with
      | Some p => (handlePeerDisconnect p s, Returned)
      | None => (s, Returned)
      end
  | ReadOk msg =>
      if decide (sm_Type msg = "join") then
        match handleJoin conn msg pc s with
        | (s', Some p) => (s', Running (Some p))
        | (s', None) => (s', Returned)
        end
      else if decide (sm_Type msg = "offer") then
        match peer with
        | Some p => (handleOffer p msg s, Running peer)
        | None => (s, Running peer)
        end
      else if decide (sm_Type msg = "answer") then
        match peer with
        | Some p => (handleAnswer p msg s, Running peer)
        | None => (s, Running peer)
        end
      else if decide (sm_Type msg = "candidate") then
        match peer with
        | Some p => (handleCandidate p msg s, Running peer)
        | None => (s, Running peer)
        end
      else if decide (sm_Type msg = "screenshot") then
        match peer with
        | Some p => (handleScreenshot p msg s, Running peer)
        | None => (s, Running peer)
        end
      else (s, Running peer)
  end.

(** The loop over the frames a connection delivers, each paired with what
    [createPeerConnection()] would return in that iteration. *)
Fixpoint handleWebSocket_loop (conn : nat) (peer : option Peer)
    (inputs : list (ReadResult * option nat)) (s : Server) : Server * LoopState :=
  match inputs with
  | [] => (s, Running peer)
  | (r, pc) :: rest =>
      match handleWebSocket_iter conn pc peer r s with
      | (s', Running peer') => handleWebSocket_loop conn peer' rest s'
      | (s', Returned) => (s', Returned)
      end
  end.

Definition handleWebSocket (conn : nat) (inputs : list (ReadResult * option nat))
    (s : Server) : Server * LoopState :=
  handleWebSocket_loop conn None inputs s.

(** ** What a connection observes *)

(** The messages written to connection [conn], in order. *)
Definition inbox (conn : nat) (s : Server) : list SignalMessage :=
  (filter (λ pm, peer_Conn pm.1 = conn) (sent s)).*2.

(** How many messages of type [ty] about client [cid] connection [conn] got. *)
Definition observed (conn : nat) (ty cid : string) (s : Server) : nat :=
  length (filter (λ m, sm_Type m = ty ∧ sm_ClientID m = cid) (inbox conn s)).

(** The messages written between state [s] and a later state [s']. *)
Definition since (s s' : Server) : list (Peer * SignalMessage) :=
  drop (length (sent s)) (sent s').

End Handlers.

(** Every entry of every room's peer map sits under its own id (what
    [AddPeer] establishes). *)
Definition keyed_by_ID (s : Server) : Prop :=
  map_Forall (λ _ room, map_Forall (λ k p, peer_ID p = k) (room_Peers room)) (Rooms s).

(** No peer of [s] and no message of [s] belongs to connection [c]: the
    connection is new. *)
Definition conn_unused (c : nat) (s : Server) : Prop :=
  map_Forall (λ _ room, map_Forall (λ _ p, peer_Conn p ≠ c) (room_Peers room)) (Rooms s)
  ∧ Forall (λ pm, peer_Conn pm.1 ≠ c) (sent s).

(** A media stack on which every operation succeeds, for running the
    handlers on examples. *)
Definition demoStack : MediaStack :=
  {| AddTrack_ok := λ _ _, true;
     CreateOffer := λ p, Some ("offer-for-" +:+ peer_ID p);
     CreateAnswer := λ _ _, Some "answer" |}.

Definition joinMsg (room id : string) : SignalMessage :=
  mkSignalMessage "join" room id "" "" "" "".

Definition screenshotMsg (target data : string) : SignalMessage :=
  mkSignalMessage "screenshot" "" "" "" "" data target.

(** The peer [handleJoin] makes of a join message. *)
Definition joinedPeer (conn : nat) (msg : SignalMessage) (pc : nat) : Peer :=
  mkPeer (sm_ClientID msg) conn (Some pc) (Some (sm_Room msg)) [].

(** The message [handleScreenshot] forwards. *)
Definition screenshotFrom (peer : Peer) (data : string) : SignalMessage :=
  mkSignalMessage "screenshot" "" (peer_ID peer) "" "" data "".

(** Messages that are offers to one peer. *)
Definition offers_to (peer : Peer) (l : list (Peer * SignalMessage)) : Prop :=
  Forall (λ pm, pm.1 = peer ∧ sm_Type pm.2 = "offer") l.

(** [observed], on any list of writes. *)
Definition count_in (c : nat) (ty cid : string) (l : list (Peer * SignalMessage)) : nat :=
  length (filter (λ m, sm_Type m = ty ∧ sm_ClientID m = cid)
                 ((filter (λ pm, peer_Conn pm.1 = c) l).*2)).

#[global] Instance keyed_by_ID_dec s : Decision (keyed_by_ID s).
Proof. unfold keyed_by_ID. apply _. Defined.

#[global] Instance conn_unused_dec c s : Decision (conn_unused c s).
Proof. unfold conn_unused. apply _. Defined.

(** Room "r" with "c" on connection 3; then "a" joins on connection 1 and
    "b" on connection 2. *)
Definition room_c : Server :=
  (handleJoin (H := demoStack) 3 (joinMsg "r" "c") (Some 30) newServer).1.
Definition room_ca : Server :=
  (handleJoin (H := demoStack) 1 (joinMsg "r" "a") (Some 10) room_c).1.
Definition room_cab : Server :=
  (handleJoin (H := demoStack) 2 (joinMsg "r" "b") (Some 20) room_ca).1.

Definition peer_a : Peer := mkPeer "a" 1 (Some 10) (Some "r") [].
Definition peer_b : Peer := mkPeer "b" 2 (Some 20) (Some "r") [].
Definition peer_c : Peer := mkPeer "c" 3 (Some 30) (Some "r") [].

(** A fourth peer joins without a client id and sits in the room under the
    empty id. *)
Definition room_with_anonymous : Server :=
  (handleJoin (H := demoStack) 4 (joinMsg "r" "") (Some 40) room_cab).1.

(** A frame that is read without error and is no join: the receive loop
    hands it to one of the relay handlers or ignores it, and goes on. *)
Definition relayed (i : ReadResult * option nat) : Prop :=
  match i.1 with
  | ReadOk msg => sm_Type msg ≠ "join"
  | ReadErr => False
  end.

#[global] Instance relayed_dec i : Decision (relayed i).
Proof. unfold relayed. destruct i.1; apply _. Defined.

(** The messages of type [ty] among some writes. *)
Definition of_type (ty : string) (l : list (Peer * SignalMessage))
  : list (Peer * SignalMessage) :=
  filter (λ pm, sm_Type pm.2 = ty) l.

End Signaling.

(* ===================================================================== *)
(** * Bytes and fixed-width integers *)
(* ===================================================================== *)

Module Bytes.

Local Open Scope Z_scope.

Abbreviation byte := Byte.byte.

Definition byte_to_Z (b : byte) : Z := Z.of_N (Byte.to_N b).

(** Go's conversion [byte(x)]: the low eight bits. *)
Definition byte_of_Z (z : Z) : byte :=
  match Byte.of_N (Z.to_N (z mod 256)) with
  | Some b => b
  | None => Byte.x00
  end.

(** Wrap-around of the unsigned types. *)
Definition wrap_uint16 (z : Z) : Z := z mod 2 ^ 16.
Definition wrap_uint32 (z : Z) : Z := z mod 2 ^ 32.

(** Two's-complement reading of a 16-bit and of a 64-bit pattern (Go's
    [int16(x)] on a [uint16], and the wrap-around of [int]). *)
Definition wrap_int16 (z : Z) : Z := (z + 2 ^ 15) mod 2 ^ 16 - 2 ^ 15.
Definition wrap_int64 (z : Z) : Z := (z + 2 ^ 63) mod 2 ^ 64 - 2 ^ 63.

End Bytes.

(* ===================================================================== *)
(** * RTP send state of the programmatic client *)
(* ===================================================================== *)

Module Rtp.

Import Bytes.
Local Open Scope Z_scope.

(** [rtp.Header] and [rtp.Packet] of Pion, with the fields [WriteOpus] sets. *)
Record Header := mkHeader {
  Version : Z;
  Padding : bool;
  Extension : bool;
  Marker : bool;
  PayloadType : Z;
  SequenceNumber : Z;
  Timestamp : Z;
  SSRC : Z
}.

Record Packet := mkPacket {
  pkt_Header : Header;
  Payload : list byte
}.

(** What the client does to the outside, in order. *)
Inductive Effect :=
  | CloseDone                              (* close(c.done) *)
  | ClosePeerConnection (pc : nat)         (* peerConnection.Close() *)
  | CloseConn (conn : nat)                 (* conn.Close() *)
  | SendJoin (room id : string)            (* sendMessage(join) *)
  | StartHandleMessages                    (* go c.handleMessages() *)
  | TrackWriteRTP (p : Packet).            (* audioTrack.WriteRTP returned nil *)

(** [Client]: handles are opaque, [done_closed] tells whether the channel
    [done] has been closed, [effects] is the trace of the calls above. *)
Record Client := mkClient {
  ID : string;
  ServerURL : string;
  Room : string;
  conn : option nat;
  peerConnection : option nat;
  audioTrack : option nat;
  connected : bool;
  done_closed : bool;
  rtpSeqNum : Z;
  rtpTimestamp : Z;
  effects : list Effect
}.

Definition NewClient (id serverURL : string) : Client :=
  mkClient id serverURL "" None None None false false 0 0 [].

Definition emit (e : list Effect) (c : Client) : Client :=
  mkClient (ID c) (ServerURL c) (Room c) (conn c) (peerConnection c) (audioTrack c)
           (connected c) (done_closed c) (rtpSeqNum c) (rtpTimestamp c)
           (effects c ++ e).

(** How a call ends: it returns nil, returns an error, or panics. *)
Inductive Outcome :=
  | Nil
  | Error (msg : string)
  | Panic (msg : string).

(** What the environment answers during [Connect]. *)
Record ConnectEnv := mkConnectEnv {
  env_Dial : option nat;                   (* websocket.DefaultDialer.Dial *)
  env_createPeerConnection : option nat;
  env_NewTrackLocalStaticRTP : option nat;
  env_AddTrack_ok : bool
}.

Definition Connect (env : ConnectEnv) (room : string) (c : Client) : Client * Outcome :=
  if connected c then (c, Error "already connected")
  else
    let c1 := mkClient (ID c) (ServerURL c) room (conn c) (peerConnection c)
                (audioTrack c) (connected c) (done_closed c)
                (rtpSeqNum c) (rtpTimestamp c) (effects c) in
    match env_Dial env with
    | None => (c1, Error "websocket dial failed")
    | Some cn =>
      let c2 := mkClient (ID c) (ServerURL c) room (Some cn) (peerConnection c)
                  (audioTrack c) (connected c) (done_closed c)
                  (rtpSeqNum c) (rtpTimestamp c) (effects c) in
      match env_createPeerConnection env with
      | None => (emit [CloseConn cn] c2, Error "failed to create peer connection")
      | Some pc =>
        let c3 := mkClient (ID c) (ServerURL c) room (Some cn) (Some pc)
                    (audioTrack c) (connected c) (done_closed c)
                    (rtpSeqNum c) (rtpTimestamp c) (effects c) in
        match env_NewTrackLocalStaticRTP env with
        | None =>
            (emit [ClosePeerConnection pc; CloseConn cn] c3,
             Error "failed to create audio track")
        | Some tr =>
          let c4 := mkClient (ID c) (ServerURL c) room (Some cn) (Some pc)
                      (Some tr) (connected c) (done_closed c)
                      (rtpSeqNum c) (rtpTimestamp c) (effects c) in
          if env_AddTrack_ok env then
            (mkClient (ID c) (ServerURL c) room (Some cn) (Some pc) (Some tr)
               true (done_closed c) (rtpSeqNum c) (rtpTimestamp c)
               (effects c ++ [StartHandleMessages; SendJoin room (ID c)]),
             Nil)
          else
            (emit [ClosePeerConnection pc; CloseConn cn] c4,
             Error "failed to add track")
        end
      end
    end.

(** [WriteOpus opusData]; [accepted] says whether [audioTrack.WriteRTP]
    returns nil for the packet.  The send state advances before the write,
    whatever the write answers. *)
Definition WriteOpus (accepted : bool) (opusData : list byte) (c : Client)
  : Client * Outcome :=
  match audioTrack c with
  | None => (c, Error "audio track not initialized")
  | Some _ =>
      let seqNum := rtpSeqNum c in
      let timestamp := rtpTimestamp c in
      let packet :=
        mkPacket (mkHeader 2 false false false 111 seqNum timestamp 0x12345678)
                 opusData in
      let c' := mkClient (ID c) (ServerURL c) (Room c) (conn c) (peerConnection c)
                  (audioTrack c) (connected c) (done_closed c)
                  (wrap_uint16 (seqNum + 1)) (wrap_uint32 (timestamp + 960))
                  (effects c) in
      if accepted then (emit [TrackWriteRTP packet] c', Nil)
      else (c', Error "WriteRTP failed")
  end.

(** A run of calls that all succeed. *)
Fixpoint WriteOpus_all (payloads : list (list byte)) (c : Client) : Client :=
  match payloads with
  | [] => c
  | p :: rest => WriteOpus_all rest (WriteOpus true p c).1
  end.

(** The packets handed to the track so far. *)
Definition emitted (c : Client) : list Packet :=
  omap (λ e, match e with TrackWriteRTP p => Some p | _ => None end) (effects c).

Definition Disconnect (c : Client) : Client * Outcome :=
  if negb (connected c) then (c, Nil)
  else if done_closed c then (c, Panic "close of closed channel")
  else
    let e1 := match peerConnection c with
              | Some pc => [ClosePeerConnection pc] | None => [] end in
    let e2 := match conn c with
              | Some cn => [CloseConn cn] | None => [] end in
    (mkClient (ID c) (ServerURL c) (Room c) (conn c) (peerConnection c)
       (audioTrack c) false true (rtpSeqNum c) (rtpTimestamp c)
       (effects c ++ CloseDone :: e1 ++ e2),
     Nil).

(** ** [RTPPacketizer] of [pkg/audio/encoder.go] *)

Record RTPPacketizer := mkRTPPacketizer {
  ssrc : Z;
  seqNum : Z;
  timestamp : Z;
  sampleRate : Z;
  frameSize : Z
}.

Definition NewRTPPacketizer (ssrc sampleRate frameSize : Z) : RTPPacketizer :=
  mkRTPPacketizer ssrc 0 0 (wrap_uint32 sampleRate) (wrap_uint32 frameSize).

Definition Packetize (opusData : list byte) (p : RTPPacketizer)
  : list byte * RTPPacketizer :=
  let header :=
    [ byte_of_Z 0x80; byte_of_Z 111;
      byte_of_Z (Z.shiftr (seqNum p) 8); byte_of_Z (seqNum p);
      byte_of_Z (Z.shiftr (timestamp p) 24); byte_of_Z (Z.shiftr (timestamp p) 16);
      byte_of_Z (Z.shiftr (timestamp p) 8); byte_of_Z (timestamp p);
      byte_of_Z (Z.shiftr (ssrc p) 24); byte_of_Z (Z.shiftr (ssrc p) 16);
      byte_of_Z (Z.shiftr (ssrc p) 8); byte_of_Z (ssrc p) ] in
  (header ++ opusData,
   mkRTPPacketizer (ssrc p) (wrap_uint16 (seqNum p + 1))
     (wrap_uint32 (timestamp p + frameSize p)) (sampleRate p) (frameSize p)).

(** The sequence number and the timestamp a packet's header bytes carry. *)
Definition be_value (bs : list byte) : Z :=
  foldl (λ acc b, acc * 256 + byte_to_Z b) 0 bs.

Definition packet_seq (packet : list byte) : Z := be_value (take 2 (drop 2 packet)).
Definition packet_ts (packet : list byte) : Z := be_value (take 4 (drop 4 packet)).

(** The packets handed to the track between [c] and a later [c']. *)
Definition emitted_since (c c' : Client) : list Packet :=
  drop (length (emitted c)) (emitted c').

(** A client after a successful [Connect]. *)
Definition connectedClient : Client :=
  (Connect (mkConnectEnv (Some 1%nat) (Some 2%nat) (Some 3%nat) true) "test"
           (NewClient "agent1" "ws://localhost:8080/ws")).1.

(** A run of [WriteOpus] calls, each with what [audioTrack.WriteRTP]
    answers to it. *)
Fixpoint WriteOpus_calls (calls : list (bool * list byte)) (c : Client) : Client :=
  match calls with
  | [] => c
  | (accepted, opusData) :: rest => WriteOpus_calls rest (WriteOpus accepted opusData c).1
  end.

(** The packet [WriteOpus] builds in the [k]-th call after the send state
    was [(seq0, ts0)]. *)
Definition packetOfCall (seq0 ts0 : Z) (k : nat) (opusData : list byte) : Packet :=
  mkPacket (mkHeader 2 false false false 111
              ((seq0 + Z.of_nat k) mod 2 ^ 16)
              ((ts0 + 960 * Z.of_nat k) mod 2 ^ 32) 0x12345678)
           opusData.

(** The packets of the accepted calls of a run, each numbered by the
    position of its call. *)
Fixpoint packetsOfCalls (seq0 ts0 : Z) (k : nat) (calls : list (bool * list byte))
  : list Packet :=
  match calls with
  | [] => []
  | (accepted, opusData) :: rest =>
      (if accepted then [packetOfCall seq0 ts0 k opusData] else [])
        ++ packetsOfCalls seq0 ts0 (S k) rest
  end.

(** Every call of the environment succeeds. *)
Definition all_ok (env : ConnectEnv) : Prop :=
  is_Some (env_Dial env) ∧ is_Some (env_createPeerConnection env)
  ∧ is_Some (env_NewTrackLocalStaticRTP env) ∧ env_AddTrack_ok env = true.

(** What a [Connect] that fails has closed: the peer connection if it was
    created, then the WebSocket connection if it was dialed. *)
Definition closedOnFailure (env : ConnectEnv) : list Effect :=
  match env_Dial env with
  | None => []
  | Some cn =>
      match env_createPeerConnection env with
      | None => []
      | Some pc => [ClosePeerConnection pc]
      end ++ [CloseConn cn]
  end.

(** Successive calls of [Packetize], one per payload. *)
Fixpoint Packetize_all (payloads : list (list byte)) (p : RTPPacketizer)
  : list (list byte) * RTPPacketizer :=
  match payloads with
  | [] => ([], p)
  | opusData :: rest =>
      let '(packet, p) := Packetize opusData p in
      let '(packets, p) := Packetize_all rest p in
      (packet :: packets, p)
  end.

Definition packet_ssrc (packet : list byte) : Z := be_value (take 4 (drop 8 packet)).

(** ** Stream ids

    The server's OnTrack callback in [handleJoin] names the stream of the
    track it forwards for a peer, and the client's [Connect] names the
    stream of its own track, with [fmt.Sprintf("stream-%s", id)]; the
    client's OnTrack callback takes the peer id back out of
    [track.StreamID()]. *)
Definition streamID (id : string) : string := "stream-" +:+ id.

Definition peerIDOfStream (streamID : string) : string :=
  let peerID := streamID in
  if (7 <? String.length peerID)%nat && String.eqb (String.substring 0 7 peerID) "stream-"
  then String.substring 7 (String.length peerID - 7) peerID
  else peerID.

End Rtp.

(* ===================================================================== *)
(** * Audio send pipeline ([pkg/audio/encoder.go]) *)
(* ===================================================================== *)

Module Audio.

Import Bytes.
Local Open Scope Z_scope.

(** ** Run-time panics and slices

    A Go function either returns or panics; the index expressions of the
    source are modelled with their bounds checks. *)
Inductive PanicKind :=
  | IndexOutOfRange
  | SliceBoundsOutOfRange
  | MakeSliceLenOutOfRange.

Inductive result (A : Type) : Type :=
  | Ok (a : A)
  | Panicked (p : PanicKind).
Arguments Ok {A} a.
Arguments Panicked {A} p.

Definition bind {A B} (r : result A) (k : A → result B) : result B :=
  match r with
  | Ok a => k a
  | Panicked p => Panicked p
  end.

#[global] Instance result_ret : MRet result := λ A a, Ok a.
#[global] Instance result_bind : MBind result := λ A B k r, bind r k.

Definition len {A} (b : list A) : Z := Z.of_nat (length b).

(** [make([]T, n)] *)
Definition make {A} (zero : A) (n : Z) : result (list A) :=
  if n <? 0 then Panicked MakeSliceLenOutOfRange
  else Ok (replicate (Z.to_nat n) zero).

(** [b[i]] *)
Definition index {A} (b : list A) (i : Z) : result A :=
  if i <? 0 then Panicked IndexOutOfRange
  else match b !! Z.to_nat i with
       | Some x => Ok x
       | None => Panicked IndexOutOfRange
       end.

(** [b[i] = v] *)
Definition store {A} (b : list A) (i : Z) (v : A) : result (list A) :=
  if (i <? 0) || (len b <=? i) then Panicked IndexOutOfRange
  else Ok (<[Z.to_nat i := v]> b).

(** [b[lo:]] and [b[lo:hi]] *)
Definition sliceFrom {A} (b : list A) (lo : Z) : result (list A) :=
  if (lo <? 0) || (len b <? lo) then Panicked SliceBoundsOutOfRange
  else Ok (drop (Z.to_nat lo) b).

Definition slice {A} (b : list A) (lo hi : Z) : result (list A) :=
  if (lo <? 0) || (hi <? lo) || (len b <? hi) then Panicked SliceBoundsOutOfRange
  else Ok (take (Z.to_nat (hi - lo)) (drop (Z.to_nat lo) b)).

(** [binary.LittleEndian.Uint16(b[off:])]: the bounds check on [b[1]] comes
    first, as in the library. *)
Definition Uint16_at (b : list byte) (off : Z) : result Z :=
  s ← sliceFrom b off;
  b1 ← index s 1;
  b0 ← index s 0;
  Ok (Z.lor (byte_to_Z b0) (Z.shiftl (byte_to_Z b1) 8)).

(** [binary.LittleEndian.PutUint16(b[off:], v)], the slice sharing [b]'s
    array. *)
Definition PutUint16_at (b : list byte) (off : Z) (v : Z) : result (list byte) :=
  s ← sliceFrom b off;
  _ ← index s 1;
  b ← store b off (byte_of_Z v);
  store b (off + 1) (byte_of_Z (Z.shiftr v 8)).

(** [for i := start; ...; i++] with [n] iterations left. *)
Fixpoint forLoop {St} (n : nat) (i : Z) (body : Z → St → result St) (s : St)
  : result St :=
  match n with
  | O => Ok s
  | S n' => s' ← body i s; forLoop n' (i + 1) body s'
  end.

(** ** [float64]

    IEEE 754 binary64 with round-to-nearest-even, by the reference
    implementation of the standard library ([prec = 53], [emax = 1024]). *)
Definition float64 := spec_float.

Definition f64_add : float64 → float64 → float64 := SFadd 53 1024.
Definition f64_sub : float64 → float64 → float64 := SFsub 53 1024.
Definition f64_mul : float64 → float64 → float64 := SFmul 53 1024.
Definition f64_div : float64 → float64 → float64 := SFdiv 53 1024.

(** [float64(n)] for an integer [n] *)
Definition f64_of_int (n : Z) : float64 := binary_normalize 53 1024 n 0 false.

(** The integer part of a finite value, rounding toward zero. *)
Definition f64_trunc (f : float64) : option Z :=
  match f with
  | S754_zero _ => Some 0
  | S754_finite s m e =>
      let a := Z.shiftl (Z.pos m) e in
      Some (if s then - a else a)
  | _ => None
  end.

(** [int(f)].  Go leaves the result open when the value does not fit; the
    model gives what the amd64 conversion instruction gives (the least
    integer of the width). *)
Definition f64_to_int (f : float64) : Z :=
  match f64_trunc f with
  | Some z => if (- 2 ^ 63 <=? z) && (z <? 2 ^ 63) then z else - 2 ^ 63
  | None => - 2 ^ 63
  end.

(** [int16(f)]: a 32-bit conversion, of which the low 16 bits are kept. *)
Definition f64_to_int16 (f : float64) : Z :=
  wrap_int16
    match f64_trunc f with
    | Some z => if (- 2 ^ 31 <=? z) && (z <? 2 ^ 31) then z else - 2 ^ 31
    | None => - 2 ^ 31
    end.

(** A positive finite number whose magnitude (binary digits of the mantissa
    plus exponent) lies between [lo] and [hi]; its value is in
    [[2^(lo-1), 2^hi)]. *)
Definition pos_finite (x : float64) (lo hi : Z) : Prop :=
  ∃ m e, x = S754_finite false m e ∧ lo ≤ Z.pos (digits2_pos m) + e ≤ hi.

(** ** [ResampleMono] *)

(** The two source indices of output sample [i], after the clamp. *)
Definition clampedIndices (inputSamples : Z) (ratio : float64) (i : Z) : Z * Z :=
  let srcPos := f64_div (f64_of_int i) ratio in
  let srcIdx := f64_to_int srcPos in
  let idx1 := srcIdx in
  let idx2 := wrap_int64 (srcIdx + 1) in
  let idx1 := if inputSamples <=? idx1 then inputSamples - 1 else idx1 in
  let idx2 := if inputSamples <=? idx2 then inputSamples - 1 else idx2 in
  (idx1, idx2).

(** The body of the loop. *)
Definition resampleStep (input : list byte) (inputSamples : Z) (ratio : float64)
    (i : Z) (output : list byte) : result (list byte) :=
  let srcPos := f64_div (f64_of_int i) ratio in
  let srcIdx := f64_to_int srcPos in
  let frac := f64_sub srcPos (f64_of_int srcIdx) in
  let '(idx1, idx2) := clampedIndices inputSamples ratio i in
  u1 ← Uint16_at input (wrap_int64 (idx1 * 2));
  let s1 := wrap_int16 u1 in
  u2 ← Uint16_at input (wrap_int64 (idx2 * 2));
  let s2 := wrap_int16 u2 in
  let sample :=
    f64_to_int16
      (f64_add (f64_mul (f64_of_int s1) (f64_sub (f64_of_int 1) frac))
               (f64_mul (f64_of_int s2) frac)) in
  PutUint16_at output (wrap_int64 (i * 2)) (wrap_uint16 sample).

(** [ratio] and [outputSamples] as [ResampleMono] computes them. *)
Definition ratioOf (inputRate outputRate : Z) : float64 :=
  f64_div (f64_of_int outputRate) (f64_of_int inputRate).

Definition outputSamplesOf (inputSamples inputRate outputRate : Z) : Z :=
  f64_to_int (f64_mul (f64_of_int inputSamples) (ratioOf inputRate outputRate)).

Definition ResampleMono (input : list byte) (inputRate outputRate : Z)
  : result (list byte) :=
  if decide (inputRate = outputRate) then Ok input
  else
    let inputSamples := len input / 2 in
    let ratio := ratioOf inputRate outputRate in
    let outputSamples := outputSamplesOf inputSamples inputRate outputRate in
    output ← make Byte.x00 (wrap_int64 (outputSamples * 2));
    forLoop (Z.to_nat outputSamples) 0
            (resampleStep input inputSamples ratio) output.

(** ** [MonoToStereo] *)

Definition monoToStereoStep (mono : list byte) (i : Z) (stereo : list byte)
  : result (list byte) :=
  sample ← slice mono (i * 2) (i * 2 + 2);
  s0 ← index sample 0;
  stereo ← store stereo (i * 4) s0;
  s1 ← index sample 1;
  stereo ← store stereo (i * 4 + 1) s1;
  s0 ← index sample 0;
  stereo ← store stereo (i * 4 + 2) s0;
  s1 ← index sample 1;
  store stereo (i * 4 + 3) s1.

Definition MonoToStereo (mono : list byte) : result (list byte) :=
  let numSamples := len mono / 2 in
  stereo ← make Byte.x00 (numSamples * 4);
  forLoop (Z.to_nat numSamples) 0 (monoToStereoStep mono) stereo.

(** What [MonoToStereo] returns, in closed form: every 2-byte sample twice;
    an odd last byte is dropped. *)
Fixpoint duplicateSamples (mono : list byte) : list byte :=
  match mono with
  | b0 :: b1 :: rest => b0 :: b1 :: b0 :: b1 :: duplicateSamples rest
  | _ => []
  end.

(** ** [OpusEncoder] and [AudioPipeline] *)

(** The libopus binding: an encoder handle and its [Encode], which gives the
    encoded bytes or an error ([None]). *)
Class Opus := {
  OpusState : Type;
  opus_Encode : OpusState → list Z → OpusState * option (list byte)
}.

Section Pipeline.
Context `{Opus}.

Record OpusEncoder := mkOpusEncoder {
  encoder : OpusState;
  sampleRate : Z;
  channels : Z;
  frameSize : Z
}.

(** [NewOpusEncoder], given the handle [opus.NewEncoder] returned. *)
Definition NewOpusEncoder (enc : OpusState) (sampleRate channels frameSize : Z)
  : OpusEncoder :=
  mkOpusEncoder enc sampleRate channels frameSize.

Definition Encode (pcm : list Z) (e : OpusEncoder)
  : OpusEncoder * option (list byte) :=
  let '(st, r) := opus_Encode (encoder e) pcm in
  (mkOpusEncoder st (sampleRate e) (channels e) (frameSize e), r).

Definition EncodeBytes (pcmBytes : list byte) (e : OpusEncoder)
  : result (OpusEncoder * option (list byte)) :=
  let numSamples := len pcmBytes / 2 in
  pcm ← make 0 numSamples;
  pcm ← forLoop (Z.to_nat numSamples) 0
        (λ i pcm, u ← Uint16_at pcmBytes (i * 2); store pcm i (wrap_int16 u))
        pcm;
  Ok (Encode pcm e).

Record AudioPipeline := mkAudioPipeline {
  pl_encoder : OpusEncoder;
  buffer : list byte
}.

(** [NewAudioPipeline], given the handle of the new libopus encoder. *)
Definition NewAudioPipeline (enc : OpusState) : AudioPipeline :=
  mkAudioPipeline (NewOpusEncoder enc 48000 2 960) [].

Definition frameBytes : Z := 960 * 2 * 2.

(** The loop [for len(p.buffer) >= frameBytes { ... }] of [ProcessChunk] and
    [Flush].  Every iteration removes [frameBytes] bytes, so the loop makes
    at most [len(p.buffer)] iterations; [fuel] bounds them. *)
Fixpoint drainFrames (fuel : nat) (p : AudioPipeline) (opusFrames : list (list byte))
  : result (AudioPipeline * list (list byte)) :=
  match fuel with
  | O => Ok (p, opusFrames)
  | S fuel' =>
      if frameBytes <=? len (buffer p) then
        let frame := take (Z.to_nat frameBytes) (buffer p) in
        let rest := drop (Z.to_nat frameBytes) (buffer p) in
        '(e, r) ← EncodeBytes frame (pl_encoder p);
        let p' := mkAudioPipeline e rest in
        match r with
        | None => drainFrames fuel' p' opusFrames
        | Some opusData => drainFrames fuel' p' (opusFrames ++ [opusData])
        end
      else Ok (p, opusFrames)
  end.

Definition ProcessChunk (pcm22kMono : list byte) (p : AudioPipeline)
  : result (AudioPipeline * list (list byte)) :=
  if len pcm22kMono =? 0 then Ok (p, [])
  else
    pcm48kMono ← ResampleMono pcm22kMono 22050 48000;
    pcm48kStereo ← MonoToStereo pcm48kMono;
    let p := mkAudioPipeline (pl_encoder p) (buffer p ++ pcm48kStereo) in
    drainFrames (length (buffer p)) p [].

Definition Flush (p : AudioPipeline) : result (AudioPipeline * list (list byte)) :=
  if 0 <? len (buffer p) then
    padding ← make Byte.x00 (frameBytes - len (buffer p) mod frameBytes);
    let p := mkAudioPipeline (pl_encoder p) (buffer p ++ padding) in
    drainFrames (length (buffer p)) p []
  else Ok (p, []).

Definition Reset (p : AudioPipeline) : AudioPipeline :=
  mkAudioPipeline (pl_encoder p) (take 0 (buffer p)).

(** The states the exported operations can produce from a new pipeline. *)
Inductive reachable : AudioPipeline → Prop :=
  | reach_new enc : reachable (NewAudioPipeline enc)
  | reach_ProcessChunk p pcm p' frames :
      reachable p → ProcessChunk pcm p = Ok (p', frames) → reachable p'
  | reach_Flush p p' frames :
      reachable p → Flush p = Ok (p', frames) → reachable p'
  | reach_Reset p : reachable p → reachable (Reset p).

(** libopus takes every 20 ms frame of 48 kHz stereo (960 samples per
    channel, 1920 in all): on such input [Encode] reports no error. *)
Definition accepts_frames : Prop :=
  ∀ st pcm, len pcm = 1920 → is_Some (opus_Encode st pcm).2.

End Pipeline.

(** An encoder for running the pipeline on examples: it counts the frames
    it has seen and answers each with a one-byte packet. *)
Definition demoOpus : Opus :=
  {| OpusState := Z;
     opus_Encode := λ st pcm, (st + 1, Some [byte_of_Z st]) |}.

Definition demoEncoder : @OpusState demoOpus := 0.

(** One second of silence at 22,050 Hz mono: 22,050 samples, 44,100 bytes. *)
Definition oneSecond : list byte := replicate (Z.to_nat 44100) Byte.x00.

(** Six samples: 256, 512, 768, -1, -32768, 1. *)
Definition sixSamples : list byte :=
  [Byte.x00; Byte.x01; Byte.x00; Byte.x02; Byte.x00; Byte.x03;
   Byte.xff; Byte.xff; Byte.x00; Byte.x80; Byte.x01; Byte.x00].

(** A new pipeline that was given the six samples. *)
Definition afterSixSamples : @AudioPipeline demoOpus :=
  match ProcessChunk sixSamples (NewAudioPipeline demoEncoder) with
  | Ok (p, _) => p
  | Panicked _ => NewAudioPipeline demoEncoder
  end.

(** ** PCM bytes and samples, in closed form *)

Definition int16 (x : Z) : Prop := - 2 ^ 15 ≤ x < 2 ^ 15.

#[global] Instance int16_dec x : Decision (int16 x).
Proof. unfold int16. apply _. Defined.

(** The sample [int16(binary.LittleEndian.Uint16(...))] makes of two bytes. *)
Definition int16_of_bytes (b0 b1 : byte) : Z :=
  wrap_int16 (Z.lor (byte_to_Z b0) (Z.shiftl (byte_to_Z b1) 8)).

(** The samples of PCM bytes: one per pair of bytes; an odd last byte is
    not read. *)
Fixpoint samplesOf (pcmBytes : list byte) : list Z :=
  match pcmBytes with
  | b0 :: b1 :: rest => int16_of_bytes b0 b1 :: samplesOf rest
  | _ => []
  end.

(** The bytes [binary.LittleEndian.PutUint16(..., uint16(sample))] writes
    for each sample. *)
Fixpoint bytesOf (pcm : list Z) : list byte :=
  match pcm with
  | [] => []
  | sample :: rest =>
      byte_of_Z (wrap_uint16 sample) :: byte_of_Z (Z.shiftr (wrap_uint16 sample) 8)
        :: bytesOf rest
  end.

(** Every sample twice. *)
Definition twice (pcm : list Z) : list Z := pcm ≫= (λ sample, [sample; sample]).

(** Digital silence: zero bytes only. *)
Definition silent (b : list byte) : Prop := Forall (λ x, x = Byte.x00) b.

(** The whole frames of a buffer, in order: consecutive slices of
    [frameBytes] bytes, as the frame loop cuts them ([fuel] as in
    [drainFrames]). *)
Fixpoint framesOf (fuel : nat) (buf : list byte) : list (list byte) :=
  match fuel with
  | O => []
  | S fuel' =>
      if frameBytes <=? len buf
      then take (Z.to_nat frameBytes) buf :: framesOf fuel' (drop (Z.to_nat frameBytes) buf)
      else []
  end.

Definition wholeFrames (buf : list byte) : list (list byte) :=
  framesOf (length buf) buf.

(** libopus run over frames, one [Encode] per frame on the frame's samples;
    the packets it returns, the frames it reports an error on left out. *)
Fixpoint encodeAll `{Opus} (frames : list (list byte)) (e : OpusEncoder)
  : OpusEncoder * list (list byte) :=
  match frames with
  | [] => (e, [])
  | frame :: rest =>
      let '(e, r) := Encode (samplesOf frame) e in
      let '(e, out) := encodeAll rest e in
      (e, match r with
          | Some opusData => opusData :: out
          | None => out
          end)
  end.

(** An encoder that reports an error on every second frame. *)
Definition pickyOpus : Opus :=
  {| OpusState := Z;
     opus_Encode := λ st pcm,
       (st + 1, if Z.even st then Some [byte_of_Z st] else None) |}.

End Audio.

(* ===================================================================== *)
(** * The Opus decoder ([pkg/audio], decoder) *)
(* ===================================================================== *)

Module Decoder.

Import Bytes Audio.
Local Open Scope Z_scope.

(** The libopus binding: [Decode(data, pcm)] fills the caller's slice and
    gives the number of samples per channel, or an error ([None]).  The
    slice is a [[]int16] of the caller: the library cannot change its
    length, and what it holds are 16-bit numbers. *)
Class OpusDec := {
  DecState : Type;
  opus_Decode : DecState → list byte → list Z → DecState * option (Z * list Z);
  opus_Decode_length : ∀ st data pcm st' n pcm',
    opus_Decode st data pcm = (st', Some (n, pcm')) → length pcm' = length pcm;
  opus_Decode_int16 : ∀ st data pcm st' n pcm',
    opus_Decode st data pcm = (st', Some (n, pcm')) → Forall int16 pcm'
}.

Section WithDecoder.
Context `{OpusDec}.

Record OpusDecoder := mkOpusDecoder {
  decoder : DecState;
  sampleRate : Z;
  channels : Z
}.

(** [NewOpusDecoder], given the handle [opus.NewDecoder] returned. *)
Definition NewOpusDecoder (dec : DecState) (sampleRate channels : Z) : OpusDecoder :=
  mkOpusDecoder dec sampleRate channels.

Definition Decode (opusData : list byte) (d : OpusDecoder)
  : result (OpusDecoder * option (list Z)) :=
  pcm ← make 0 (wrap_int64 (5760 * channels d));
  let '(st, r) := opus_Decode (decoder d) opusData pcm in
  let d' := mkOpusDecoder st (sampleRate d) (channels d) in
  match r with
  | None => Ok (d', None)
  | Some (n, pcm) =>
      pcm ← slice pcm 0 (wrap_int64 (n * channels d));
      Ok (d', Some pcm)
  end.

Definition DecodeToBytes (opusData : list byte) (d : OpusDecoder)
  : result (OpusDecoder * option (list byte)) :=
  '(d', r) ← Decode opusData d;
  match r with
  | None => Ok (d', None)
  | Some pcm =>
      bytes ← make Byte.x00 (wrap_int64 (len pcm * 2));
      bytes ← forLoop (length pcm) 0
                (λ i bytes,
                   sample ← index pcm i;
                   PutUint16_at bytes (wrap_int64 (i * 2)) (wrap_uint16 sample))
                bytes;
      Ok (d', Some bytes)
  end.

End WithDecoder.

(** A decoder for running examples: every packet decodes to one sample
    per channel, of value 255. *)
Program Definition demoDec : OpusDec :=
  {| DecState := unit;
     opus_Decode := λ st data pcm, (st, Some (1, replicate (length pcm) 255)) |}.
Next Obligation.
  intros st data pcm st' n pcm' [= _ _ <-]. apply length_replicate.
Qed.
Next Obligation.
  intros st data pcm st' n pcm' [= _ _ <-].
  apply Forall_replicate. unfold int16. lia.
Qed.

End Decoder.

(* ===================================================================== *)
(** * The AssemblyAI client: audio on its way to transcription *)
(* ===================================================================== *)

Module AssemblyAI.

Import Bytes Audio.
Local Open Scope Z_scope.

Definition minAudioBytes : Z := 3200.

(** [Client], as far as [SendAudio] uses it; [written] records every
    [conn.WriteMessage(websocket.BinaryMessage, data)], in order. *)
Record Client := mkClient {
  connected : bool;
  conn : option nat;
  sampleRate : Z;
  channels : Z;
  audioBuffer : list byte;
  written : list (list byte)
}.

(** The first loop of [SendAudio]: bytes to [int16] samples. *)
Definition toSamples (pcmData : list byte) : result (list Z) :=
  samples ← make 0 (len pcmData / 2);
  forLoop (length samples) 0
    (λ i samples,
       b0 ← index pcmData (i * 2);
       b1 ← index pcmData (i * 2 + 1);
       store samples i
         (Z.lor (byte_to_Z b0) (wrap_int16 (Z.shiftl (byte_to_Z b1) 8))))
    samples.

(** The second loop: stereo to mono by averaging the channels, in [int32];
    Go's [/] rounds toward zero. *)
Definition stereoToMono (samples : list Z) : result (list Z) :=
  monoSamples ← make 0 (len samples / 2);
  forLoop (length monoSamples) 0
    (λ i monoSamples,
       left ← index samples (i * 2);
       right ← index samples (i * 2 + 1);
       store monoSamples i (wrap_int16 ((left + right) ÷ 2)))
    monoSamples.

(** [resample]: linear interpolation. *)
Definition resampleStep (samples : list Z) (ratio : float64) (i : Z)
    (output : list Z) : result (list Z) :=
  let srcIndex := f64_mul (f64_of_int i) ratio in
  let srcIndexInt := f64_to_int srcIndex in
  let frac := f64_sub srcIndex (f64_of_int srcIndexInt) in
  if wrap_int64 (srcIndexInt + 1) <? len samples then
    s1 ← index samples srcIndexInt;
    s2 ← index samples (wrap_int64 (srcIndexInt + 1));
    store output i
      (f64_to_int16
         (f64_add (f64_mul (f64_of_int s1) (f64_sub (f64_of_int 1) frac))
                  (f64_mul (f64_of_int s2) frac)))
  else if srcIndexInt <? len samples then
    s1 ← index samples srcIndexInt;
    store output i s1
  else Ok output.

Definition resample (samples : list Z) (fromRate toRate : Z) : result (list Z) :=
  if decide (fromRate = toRate) then Ok samples
  else
    let ratio := f64_div (f64_of_int fromRate) (f64_of_int toRate) in
    let outputLen := f64_to_int (f64_div (f64_of_int (len samples)) ratio) in
    output ← make 0 outputLen;
    forLoop (length output) 0 (resampleStep samples ratio) output.

(** The last loop: samples back to bytes. *)
Definition toBytes (resampled : list Z) : result (list byte) :=
  resampledBytes ← make Byte.x00 (wrap_int64 (len resampled * 2));
  forLoop (length resampled) 0
    (λ i resampledBytes,
       s ← index resampled i;
       resampledBytes ← store resampledBytes (wrap_int64 (i * 2)) (byte_of_Z s);
       store resampledBytes (wrap_int64 (i * 2) + 1) (byte_of_Z (Z.shiftr s 8)))
    resampledBytes.

(** [SendAudio pcmData]; [write_ok] says whether [conn.WriteMessage]
    returns nil, should it be called. *)
Definition SendAudio (write_ok : bool) (pcmData : list byte) (c : Client)
  : result (Client * Rtp.Outcome) :=
  if negb (connected c) || bool_decide (conn c = None)
  then Ok (c, Rtp.Error "not connected")
  else
    samples ← toSamples pcmData;
    samples ← (if decide (channels c = 2) then stereoToMono samples else Ok samples);
    resampled ← resample samples (sampleRate c) 16000;
    resampledBytes ← toBytes resampled;
    let audioBuffer := audioBuffer c ++ resampledBytes in
    if minAudioBytes <=? len audioBuffer then
      Ok (mkClient (connected c) (conn c) (sampleRate c) (channels c)
                   (take 0 audioBuffer) (written c ++ [audioBuffer]),
          if write_ok then Rtp.Nil else Rtp.Error "write failed")
    else
      Ok (mkClient (connected c) (conn c) (sampleRate c) (channels c)
                   audioBuffer (written c),
          Rtp.Nil).

(** A run of [SendAudio] calls, each with what the write would answer;
    a call that returns an error does not stop the caller. *)
Fixpoint SendAudio_all (calls : list (bool * list byte)) (c : Client)
  : result Client :=
  match calls with
  | [] => Ok c
  | (write_ok, pcmData) :: rest =>
      '(c, _) ← SendAudio write_ok pcmData c;
      SendAudio_all rest c
  end.

(** What [stereoToMono] returns, in closed form: one sample per pair. *)
Fixpoint averagePairs (samples : list Z) : list Z :=
  match samples with
  | l :: r :: rest => wrap_int16 ((l + r) ÷ 2) :: averagePairs rest
  | _ => []
  end.

(** The bytes that are whole samples: all, or all but an odd last byte. *)
Definition wholeSamples (pcmData : list byte) : list byte :=
  take (2 * (length pcmData / 2)) pcmData.

(** What a call of [SendAudio] appends to the buffer when the input is at
    16 kHz already: the whole samples, averaged pairwise when the client is
    set up for stereo. *)
Definition converted16k (channels : Z) (pcmData : list byte) : list byte :=
  if decide (channels = 2) then bytesOf (averagePairs (samplesOf pcmData))
  else wholeSamples pcmData.

(** A connected client for 16 kHz mono input. *)
Definition client16k : Client := mkClient true (Some 1%nat) 16000 1 [] [].

End AssemblyAI.

(* ===================================================================== *)
(** * The voice agent ([examples/ai_agent]) *)
(* ===================================================================== *)

Module Agent.

Import Bytes Audio.
Local Open Scope Z_scope.

(** ** Transcripts and interruptions *)

(** What the handlers do to the outside, in order. *)
Inductive Effect :=
  | CloseCancelSpeaking                    (* close(a.cancelSpeaking) *)
  | CancelLLM                              (* a.cancelLLM() *)
  | GoProcessWithLLM (transcript : string).  (* go a.processWithLLM(...) *)

#[global] Instance Effect_eq_dec : EqDecision Effect.
Proof. solve_decision. Defined.

(** [AIAgent], as far as the transcript handlers use it.  [cancelSpeaking]
    and [cancelLLM] say whether the field is non-nil. *)
Record AIAgent := mkAIAgent {
  pendingTranscript : string;
  processingLLM : bool;
  isSpeaking : bool;
  cancelSpeaking : bool;
  cancelLLM : bool;
  effects : list Effect
}.

Definition interrupt (a : AIAgent) : AIAgent :=
  let a :=
    if cancelSpeaking a
    then mkAIAgent (pendingTranscript a) (processingLLM a) (isSpeaking a) false
                   (cancelLLM a) (effects a ++ [CloseCancelSpeaking])
    else a in
  if cancelLLM a
  then mkAIAgent (pendingTranscript a) (processingLLM a) (isSpeaking a)
                 (cancelSpeaking a) (cancelLLM a) (effects a ++ [CancelLLM])
  else a.

Definition handleTranscript (transcript : string) (isFinal : bool) (a : AIAgent)
  : AIAgent :=
  let speaking := isSpeaking a in
  let a := if speaking && negb (String.eqb transcript "") then interrupt a else a in
  if isFinal && negb (String.eqb transcript "") then
    let pending :=
      if (0 <? String.length (pendingTranscript a))%nat
      then pendingTranscript a +:+ " " else pendingTranscript a in
    mkAIAgent (pending +:+ transcript) (processingLLM a) (isSpeaking a)
              (cancelSpeaking a) (cancelLLM a) (effects a)
  else a.

Definition handleUtteranceEnd (a : AIAgent) : AIAgent :=
  if (String.length (pendingTranscript a) =? 0)%nat || processingLLM a then a
  else
    let fullTranscript := pendingTranscript a in
    mkAIAgent "" true (isSpeaking a) (cancelSpeaking a) (cancelLLM a)
              (effects a ++ [GoProcessWithLLM fullTranscript]).

(** A run of transcripts, as the speech-to-text client delivers them. *)
Definition handleTranscripts (ts : list (string * bool)) (a : AIAgent) : AIAgent :=
  foldl (λ a t, handleTranscript t.1 t.2 a) a ts.

(** The texts that count: final and not empty. *)
Definition finalTexts (ts : list (string * bool)) : list string :=
  (filter (λ t, t.2 = true ∧ t.1 ≠ "") ts).*1.

Definition nonEmpty (l : list string) : list string := filter (λ t, t ≠ "") l.

(** How often an effect occurs. *)
Definition count (e : Effect) (l : list Effect) : nat := length (filter (λ x, x = e) l).

(** ** Speaking *)

(** What the [select] of the send loop takes for a frame: the cancel
    channel, or a tick of the 20 ms ticker together with what the track
    answers to the write. *)
Inductive Tick :=
  | Cancelled
  | Ticked (accepted : bool).

#[global] Instance Tick_eq_dec : EqDecision Tick.
Proof. solve_decision. Defined.

(** The loop [for i, opusData := range opusFrames] of [speakResponse]: the
    client and the counter [audioSent] afterwards.  When the ticks run out
    the loop is still waiting. *)
Fixpoint sendFrames (opusFrames : list (list byte)) (ticks : list Tick)
    (client : Rtp.Client) (audioSent : Z) : Rtp.Client * Z :=
  match opusFrames, ticks with
  | [], _ => (client, audioSent)
  | _ :: _, [] => (client, audioSent)
  | _ :: _, Cancelled :: _ => (client, audioSent)
  | opusData :: rest, Ticked accepted :: ticks =>
      match Rtp.WriteOpus accepted opusData client with
      | (client, Rtp.Nil) =>
          sendFrames rest ticks client (wrap_int64 (audioSent + len opusData))
      | (client, _) => (client, audioSent)
      end
  end.

Section Speaking.
Context `{Opus}.

(** The parts of the agent [speakResponse] works on. *)
Record Voice := mkVoice {
  audioPipeline : AudioPipeline;
  client : Rtp.Client;
  audioSent : Z
}.

(** [speakResponse text]; [synth] is what [elevenlabsClient.Synthesize]
    returns for the text ([None]: an error). *)
Definition speakResponse (synth : option (list byte)) (ticks : list Tick)
    (a : Voice) : result Voice :=
  let pipeline := Reset (audioPipeline a) in
  match synth with
  | None => Ok (mkVoice pipeline (client a) (audioSent a))
  | Some pcmData =>
      '(pipeline, opusFrames) ← ProcessChunk pcmData pipeline;
      '(pipeline, flushFrames) ← Flush pipeline;
      let opusFrames := opusFrames ++ flushFrames in
      let '(client, audioSent) :=
        sendFrames opusFrames ticks (client a) (audioSent a) in
      Ok (mkVoice pipeline client audioSent)
  end.

End Speaking.

(** The number of payload bytes of some frames. *)
Definition totalLen (frames : list (list byte)) : Z :=
  foldr (λ frame n, len frame + n) 0 frames.

(** The packets [WriteOpus] makes of frames, numbered from [k]. *)
Fixpoint packetsOf (seq0 ts0 : Z) (k : nat) (frames : list (list byte))
  : list Rtp.Packet :=
  match frames with
  | [] => []
  | opusData :: rest =>
      Rtp.packetOfCall seq0 ts0 k opusData :: packetsOf seq0 ts0 (S k) rest
  end.

(** An agent that is speaking, with a request to the model under way. *)
Definition speakingAgent : AIAgent := mkAIAgent "" true true true true [].

End Agent.

(* ===================================================================== *)
(** * The test audio generator of the programmatic client *)
(* ===================================================================== *)

Module Generator.

Import Bytes Audio.
Local Open Scope Z_scope.

Record SimpleAudioGenerator := mkSimpleAudioGenerator {
  sampleRate : Z;
  channels : Z;
  frameSize : Z;
  seqNum : Z;
  timestamp : Z
}.

Definition NewSimpleAudioGenerator : SimpleAudioGenerator :=
  mkSimpleAudioGenerator 48000 2 960 0 0.

Definition GenerateFrame (g : SimpleAudioGenerator)
  : result (list byte * SimpleAudioGenerator) :=
  packet ← make Byte.x00 (12 + 3);
  packet ← store packet 0 (byte_of_Z 0x80);
  packet ← store packet 1 (byte_of_Z 111);
  packet ← store packet 2 (byte_of_Z (Z.shiftr (seqNum g) 8));
  packet ← store packet 3 (byte_of_Z (seqNum g));
  packet ← store packet 4 (byte_of_Z (Z.shiftr (timestamp g) 24));
  packet ← store packet 5 (byte_of_Z (Z.shiftr (timestamp g) 16));
  packet ← store packet 6 (byte_of_Z (Z.shiftr (timestamp g) 8));
  packet ← store packet 7 (byte_of_Z (timestamp g));
  packet ← store packet 8 (byte_of_Z 0);
  packet ← store packet 9 (byte_of_Z 0);
  packet ← store packet 10 (byte_of_Z 0);
  packet ← store packet 11 (byte_of_Z 1);
  packet ← store packet 12 (byte_of_Z 0xFC);
  packet ← store packet 13 (byte_of_Z 0xFF);
  packet ← store packet 14 (byte_of_Z 0xFE);
  Ok (packet,
      mkSimpleAudioGenerator (sampleRate g) (channels g) (frameSize g)
        (wrap_uint16 (seqNum g + 1))
        (wrap_uint32 (timestamp g + wrap_uint32 (frameSize g)))).

(** [Client.WriteRTP]: the error of a missing track, or what
    [audioTrack.Write] answers ([accepted]). *)
Definition WriteRTP (accepted : bool) (data : list byte) (c : Rtp.Client) : bool :=
  match Rtp.audioTrack c with
  | None => false
  | Some _ => accepted
  end.

(** What the [select] of [StartGenerating] takes, one entry per iteration:
    the [done] channel, or a tick of the 20 ms ticker together with what
    the track answers to the write. *)
Inductive Event :=
  | Done
  | Tick (accepted : bool).

(** [StartGenerating client done]: the generator afterwards and the frames
    that were written to the client.  When the events run out the loop is
    still waiting. *)
Fixpoint StartGenerating (events : list Event) (client : Rtp.Client)
    (g : SimpleAudioGenerator) (written : list (list byte))
  : result (SimpleAudioGenerator * list (list byte)) :=
  match events with
  | [] => Ok (g, written)
  | Done :: _ => Ok (g, written)
  | Tick accepted :: rest =>
      '(frame, g) ← GenerateFrame g;
      if WriteRTP accepted frame client
      then StartGenerating rest client g (written ++ [frame])
      else Ok (g, written)
  end.

(** The three payload bytes of a generated frame. *)
Definition silenceFrame : list byte := [byte_of_Z 0xFC; byte_of_Z 0xFF; byte_of_Z 0xFE].

(** The packetizer that is in the state of generator [g]. *)
Definition packetizerOf (g : SimpleAudioGenerator) : Rtp.RTPPacketizer :=
  Rtp.mkRTPPacketizer 1 (seqNum g) (timestamp g)
    (wrap_uint32 (sampleRate g)) (wrap_uint32 (frameSize g)).

End Generator.

(* ===================================================================== *)
(** * Properties of the signaling controller *)
(* ===================================================================== *)

Module SignalingSpec.

Import Signaling.

(** ** Rooms *)

Lemma peersOf_GetOrCreateRoom room r s :
  peersOf r (GetOrCreateRoom room s) = peersOf r s.
Proof.
  unfold GetOrCreateRoom, peersOf.
  destruct (Rooms s !! room) eqn:E; [done|]. simpl.
  destruct (decide (room = r)) as [->|Hne].
  - by rewrite lookup_insert_eq, E.
  - by rewrite lookup_insert_ne.
Qed.

Lemma GetOrCreateRoom_is_Some room s :
  is_Some (Rooms (GetOrCreateRoom room s) !! room).
Proof.
  unfold GetOrCreateRoom. destruct (Rooms s !! room) eqn:E; simpl.
  - by rewrite E.
  - rewrite lookup_insert_eq. eauto.
Qed.

Lemma sent_GetOrCreateRoom room s : sent (GetOrCreateRoom room s) = sent s.
Proof. unfold GetOrCreateRoom. by destruct (Rooms s !! room). Qed.

Lemma closed_GetOrCreateRoom room s : closed (GetOrCreateRoom room s) = closed s.
Proof. unfold GetOrCreateRoom. by destruct (Rooms s !! room). Qed.

Lemma peersOf_AddPeer room peer s r :
  is_Some (Rooms s !! room) →
  peersOf r (AddPeer room peer s).1 =
    if decide (room = r) then <[peer_ID peer := (AddPeer room peer s).2]> (peersOf r s)
    else peersOf r s.
Proof.
  intros [rm Hrm]. unfold peersOf, AddPeer. simpl.
  rewrite lookup_alter. destruct (decide (room = r)) as [->|Hne].
  - by rewrite Hrm.
  - done.
Qed.

Lemma peersOf_RemovePeer room id s r :
  peersOf r (RemovePeer room id s) =
    if decide (room = r) then delete id (peersOf r s) else peersOf r s.
Proof.
  unfold peersOf, RemovePeer. simpl. rewrite lookup_alter.
  destruct (decide (room = r)) as [->|Hne]; [|done].
  destruct (Rooms s !! r); simpl; [done|]. by rewrite delete_empty.
Qed.

Lemma RemovePeer_twice room id s :
  RemovePeer room id (RemovePeer room id s) = RemovePeer room id s.
Proof.
  unfold RemovePeer. simpl. f_equal.
  rewrite alter_alter_eq. apply alter_ext. intros rm _.
  unfold withPeers. simpl. by rewrite delete_delete_eq.
Qed.

(** ** Sending *)

Lemma foldl_SendMessage msg (ps : list Peer) s :
  foldl (λ s' p, SendMessage p msg s') s ps =
    mkServer (Rooms s) (sent s ++ ((λ p, (p, msg)) <$> ps)) (closed s).
Proof.
  revert s. induction ps as [|p ps IH]; intros s; simpl.
  - rewrite app_nil_r. by destruct s.
  - rewrite IH. simpl. by rewrite <- app_assoc.
Qed.

Lemma BroadcastExcept_eq room id msg s :
  BroadcastExcept room id msg s =
    mkServer (Rooms s) (sent s ++ ((λ p, (p, msg)) <$> GetOtherPeers room id s))
             (closed s).
Proof. apply foldl_SendMessage. Qed.

Lemma GetOtherPeers_Rooms room id s s' :
  Rooms s = Rooms s' → GetOtherPeers room id s = GetOtherPeers room id s'.
Proof. unfold GetOtherPeers, othersOf, peersOf. by intros ->. Qed.

Lemma GetOtherPeers_GetOrCreateRoom room r id s :
  GetOtherPeers r id (GetOrCreateRoom room s) = GetOtherPeers r id s.
Proof. unfold GetOtherPeers, othersOf. by rewrite peersOf_GetOrCreateRoom. Qed.

Lemma elem_of_GetOtherPeers room id s p :
  p ∈ GetOtherPeers room id s ↔ ∃ k, k ≠ id ∧ peersOf room s !! k = Some p.
Proof.
  unfold GetOtherPeers, othersOf. rewrite list_elem_of_fmap. split.
  - intros [[k q] [-> Hin]]. apply list_elem_of_filter in Hin as [Hk Hin].
    apply elem_of_map_to_list in Hin. by exists k.
  - intros (k & Hk & Hl). exists (k, p). split; [done|].
    apply list_elem_of_filter. split; [done|]. by apply elem_of_map_to_list.
Qed.

Section WithStack.
Context `{MediaStack}.

Lemma triggerNegotiation_eq peer s :
  ∃ l, offers_to peer l ∧
       triggerNegotiation peer s = mkServer (Rooms s) (sent s ++ l) (closed s).
Proof.
  unfold triggerNegotiation. destruct (CreateOffer peer) as [sdp|].
  - eexists [_]. split; [|done]. by repeat constructor.
  - exists []. split; [constructor|]. rewrite app_nil_r. by destruct s.
Qed.

Lemma addTrackToPeer_eq peer track s :
  ∃ l, offers_to peer l ∧
       addTrackToPeer peer track s = mkServer (Rooms s) (sent s ++ l) (closed s).
Proof.
  unfold addTrackToPeer. destruct (AddTrack_ok peer track).
  - apply triggerNegotiation_eq.
  - exists []. split; [constructor|]. rewrite app_nil_r. by destruct s.
Qed.

Lemma addTracks_eq peer (tracks : list string) s :
  ∃ l, offers_to peer l ∧
       foldl (λ s'' track, addTrackToPeer peer track s'') s tracks =
         mkServer (Rooms s) (sent s ++ l) (closed s).
Proof.
  revert s. induction tracks as [|t ts IH]; intros s; simpl.
  - exists []. split; [constructor|]. rewrite app_nil_r. by destruct s.
  - destruct (addTrackToPeer_eq peer t s) as (l1 & H1 & ->).
    destruct (IH (mkServer (Rooms s) (sent s ++ l1) (closed s))) as (l2 & H2 & ->).
    exists (l1 ++ l2). split; [by apply Forall_app|].
    simpl. by rewrite app_assoc.
Qed.

Lemma addAllTracks_eq peer (existing : list Peer) s :
  ∃ l, offers_to peer l ∧
       foldl (λ s' existingPeer,
                foldl (λ s'' track, addTrackToPeer peer track s'')
                      s' (peer_LocalTracks existingPeer)) s existing =
         mkServer (Rooms s) (sent s ++ l) (closed s).
Proof.
  revert s. induction existing as [|e es IH]; intros s; simpl.
  - exists []. split; [constructor|]. rewrite app_nil_r. by destruct s.
  - destruct (addTracks_eq peer (peer_LocalTracks e) s) as (l1 & H1 & ->).
    destruct (IH (mkServer (Rooms s) (sent s ++ l1) (closed s))) as (l2 & H2 & ->).
    exists (l1 ++ l2). split; [by apply Forall_app|].
    simpl. by rewrite app_assoc.
Qed.

(** ** The join sequence, step by step *)

Lemma handleJoin_eq conn msg pc s :
  ∃ offers,
    offers_to (joinedPeer conn msg pc) offers ∧
    handleJoin conn msg (Some pc) s =
      (mkServer
         (alter (withPeers (insert (sm_ClientID msg) (joinedPeer conn msg pc)))
                (sm_Room msg) (Rooms (GetOrCreateRoom (sm_Room msg) s)))
         (sent s
            ++ ((λ p, (p, peerJoined (sm_ClientID msg)))
                  <$> GetOtherPeers (sm_Room msg) (sm_ClientID msg) s)
            ++ offers)
         (closed s),
       Some (joinedPeer conn msg pc)).
Proof.
  unfold handleJoin. cbn [peer_ID].
  rewrite BroadcastExcept_eq, GetOtherPeers_GetOrCreateRoom.
  rewrite sent_GetOrCreateRoom, closed_GetOrCreateRoom.
  unfold AddPeer. cbn -[GetOtherPeers triggerNegotiation].
  fold (joinedPeer conn msg pc).
  match goal with |- context [foldl _ ?s0 ?l] =>
    destruct (addAllTracks_eq (joinedPeer conn msg pc) l s0) as (l1 & H1 & ->) end.
  simpl.
  match goal with |- context [triggerNegotiation ?p ?s0] =>
    destruct (triggerNegotiation_eq p s0) as (l2 & H2 & ->) end.
  simpl. exists (l1 ++ l2). split; [by apply Forall_app|].
  by rewrite <- !app_assoc.
Qed.

Lemma peersOf_handleJoin conn msg pc s r :
  peersOf r (handleJoin conn msg (Some pc) s).1 =
    if decide (sm_Room msg = r)
    then <[sm_ClientID msg := joinedPeer conn msg pc]> (peersOf r s)
    else peersOf r s.
Proof.
  destruct (handleJoin_eq conn msg pc s) as (l & _ & ->). simpl.
  pose proof (peersOf_AddPeer (sm_Room msg) (mkPeer (sm_ClientID msg) conn (Some pc) None [])
                (GetOrCreateRoom (sm_Room msg) s) r
                (GetOrCreateRoom_is_Some _ _)) as HA.
  unfold AddPeer in HA. simpl in HA. fold (joinedPeer conn msg pc) in HA.
  rewrite peersOf_GetOrCreateRoom in HA. rewrite <- HA.
  by unfold peersOf.
Qed.

Lemma since_handleJoin conn msg pc s :
  ∃ offers,
    offers_to (joinedPeer conn msg pc) offers ∧
    since s (handleJoin conn msg (Some pc) s).1 =
      ((λ p, (p, peerJoined (sm_ClientID msg)))
         <$> GetOtherPeers (sm_Room msg) (sm_ClientID msg) s) ++ offers.
Proof.
  destruct (handleJoin_eq conn msg pc s) as (l & Hl & ->).
  exists l. split; [done|]. unfold since. simpl. by rewrite drop_app_length.
Qed.

Lemma keyed_by_ID_lookup s r k p :
  keyed_by_ID s → peersOf r s !! k = Some p → peer_ID p = k.
Proof.
  unfold keyed_by_ID, peersOf. intros Hk Hl.
  destruct (Rooms s !! r) as [rm|] eqn:E; [|by rewrite lookup_empty in Hl].
  exact (Hk r rm E k p Hl).
Qed.

Lemma keyed_by_ID_intro s :
  (∀ r k p, peersOf r s !! k = Some p → peer_ID p = k) → keyed_by_ID s.
Proof.
  intros Hk r rm E k p Hl. apply (Hk r k p). unfold peersOf. by rewrite E.
Qed.

Lemma keyed_by_ID_handleJoin conn msg pc s :
  keyed_by_ID s → keyed_by_ID (handleJoin conn msg pc s).1.
Proof.
  intros Hk. destruct pc as [pc|]; [|done].
  apply keyed_by_ID_intro. intros r k p. rewrite peersOf_handleJoin.
  case_decide as Hr; [|by apply keyed_by_ID_lookup].
  destruct (decide (sm_ClientID msg = k)) as [<-|Hne].
  - rewrite lookup_insert_eq. by intros [= <-].
  - rewrite lookup_insert_ne by done. by apply keyed_by_ID_lookup.
Qed.

Lemma keyed_by_ID_newServer : keyed_by_ID newServer.
Proof. unfold keyed_by_ID, newServer. simpl. apply map_Forall_empty. Qed.

Lemma keyed_by_ID_Rooms s s' : Rooms s' = Rooms s → keyed_by_ID s → keyed_by_ID s'.
Proof. unfold keyed_by_ID. by intros ->. Qed.

Lemma keyed_by_ID_handlePeerDisconnect peer s :
  keyed_by_ID s → keyed_by_ID (handlePeerDisconnect peer s).
Proof.
  intros Hk. apply keyed_by_ID_intro. intros r k p Hl.
  assert (Hsub : ∃ room, peersOf r (handlePeerDisconnect peer s)
                         = peersOf r (RemovePeer room (peer_ID peer) s)
                 ∨ peersOf r (handlePeerDisconnect peer s) = peersOf r s).
  { unfold handlePeerDisconnect.
    destruct (peer_Room peer) as [room|]; [exists room; left|exists ""; right];
      destruct (peer_PeerConnection peer); simpl;
      try rewrite BroadcastExcept_eq; done. }
  destruct Hsub as [room [E|E]]; rewrite E in Hl.
  - rewrite peersOf_RemovePeer in Hl. case_decide.
    + apply lookup_delete_Some in Hl as [_ Hl]. by eapply keyed_by_ID_lookup.
    + by eapply keyed_by_ID_lookup.
  - by eapply keyed_by_ID_lookup.
Qed.

(** Every entry sits under its own id in every state the receive loops
    produce. *)
Lemma keyed_by_ID_handleWebSocket_iter conn pc peer r s :
  keyed_by_ID s → keyed_by_ID (handleWebSocket_iter conn pc peer r s).1.
Proof.
  intros Hk. unfold handleWebSocket_iter. destruct r as [msg|].
  - repeat case_decide.
    + pose proof (keyed_by_ID_handleJoin conn msg pc s Hk) as Hj.
      by destruct (handleJoin conn msg pc s) as [s' [p|]].
    + destruct peer as [p|]; [|done]. simpl. unfold handleOffer.
      destruct (CreateAnswer p (sm_SDP msg)); done.
    + by destruct peer.
    + by destruct peer.
    + destruct peer as [p|]; [|done]. simpl. unfold handleScreenshot.
      destruct (peer_Room p); [|done]. case_decide; [done|].
      by destruct (GetPeer _ _ s).
    + done.
  - destruct peer as [p|]; [|done]. by apply keyed_by_ID_handlePeerDisconnect.
Qed.

(** ** Counting what a connection observes *)

Lemma observed_count c ty cid s : observed c ty cid s = count_in c ty cid (sent s).
Proof. done. Qed.

Lemma count_in_app c ty cid l1 l2 :
  count_in c ty cid (l1 ++ l2) = count_in c ty cid l1 + count_in c ty cid l2.
Proof.
  unfold count_in. by rewrite filter_app, fmap_app, filter_app, length_app.
Qed.

Lemma count_in_none c ty cid l :
  Forall (λ pm, ¬ (peer_Conn pm.1 = c ∧ sm_Type pm.2 = ty ∧ sm_ClientID pm.2 = cid)) l →
  count_in c ty cid l = 0.
Proof.
  unfold count_in. induction 1 as [|[p m] l Hx _ IH]; [done|].
  rewrite filter_cons. case_decide as Hc; simpl in *.
  - rewrite filter_cons. case_decide as Hm; [|done]. destruct Hx. tauto.
  - done.
Qed.

Lemma count_in_unused c ty cid s : conn_unused c s → count_in c ty cid (sent s) = 0.
Proof.
  intros [_ Hs]. apply count_in_none. eapply Forall_impl; [done|].
  simpl. tauto.
Qed.

Lemma count_in_offers c cid peer l :
  offers_to peer l → count_in c "peer_joined" cid l = 0.
Proof.
  intros Hl. apply count_in_none. eapply Forall_impl; [done|].
  simpl. intros [p m] [_ Hty] (_ & Hty' & _). simpl in *. congruence.
Qed.

Lemma count_in_broadcast c ty cid (ps : list Peer) msg :
  count_in c ty cid ((λ p, (p, msg)) <$> ps) =
    if decide (sm_Type msg = ty ∧ sm_ClientID msg = cid)
    then length (filter (λ p, peer_Conn p = c) ps) else 0.
Proof.
  induction ps as [|p ps IH].
  - by case_decide.
  - rewrite fmap_cons. change ((p, msg) :: ?l) with ([(p, msg)] ++ l).
    rewrite count_in_app, IH. unfold count_in.
    rewrite (filter_cons _ p). rewrite filter_cons. simpl.
    destruct (decide (peer_Conn p = c)); simpl.
    + rewrite (filter_cons _ msg), filter_nil.
      destruct (decide (sm_Type msg = ty ∧ sm_ClientID msg = cid)); done.
    + by case_decide.
Qed.

Lemma conn_unused_lookup c s r k p :
  conn_unused c s → peersOf r s !! k = Some p → peer_Conn p ≠ c.
Proof.
  intros [Hk _]. unfold peersOf. intros Hl.
  destruct (Rooms s !! r) as [rm|] eqn:E; [|by rewrite lookup_empty in Hl].
  exact (Hk r rm E k p Hl).
Qed.

Lemma filter_none {A} (P : A → Prop) `{∀ x, Decision (P x)} (l : list A) :
  Forall (λ x, ¬ P x) l → filter P l = [].
Proof.
  induction 1 as [|x l Hx _ IH]; [done|].
  rewrite filter_cons. by case_decide.
Qed.

Lemma no_conn_GetOtherPeers c room id s :
  conn_unused c s →
  filter (λ p, peer_Conn p = c) (GetOtherPeers room id s) = [].
Proof.
  intros Hc. apply filter_none. apply Forall_forall. intros p Hp.
  apply elem_of_GetOtherPeers in Hp as (k & _ & Hl).
  by eapply conn_unused_lookup.
Qed.

Lemma GetOtherPeers_insert room id s s' k p :
  k ≠ id →
  peersOf room s' = <[k := p]> (peersOf room s) →
  GetOtherPeers room id s' ≡ₚ
    p :: (filter (λ kp, kp.1 ≠ id) (map_to_list (delete k (peersOf room s)))).*2.
Proof.
  intros Hk Hs'. unfold GetOtherPeers, othersOf. rewrite Hs'.
  rewrite <- insert_delete_eq.
  rewrite map_to_list_insert by apply lookup_delete_eq.
  rewrite filter_cons. simpl. by rewrite decide_True.
Qed.

Lemma one_conn_GetOtherPeers c room id s s' k p :
  k ≠ id → peer_Conn p = c → conn_unused c s →
  peersOf room s' = <[k := p]> (peersOf room s) →
  length (filter (λ q, peer_Conn q = c) (GetOtherPeers room id s')) = 1.
Proof.
  intros Hk Hp Hc Hs'.
  rewrite (GetOtherPeers_insert room id s s' k p Hk Hs').
  rewrite filter_cons. rewrite decide_True by done. simpl. f_equal.
  rewrite filter_none; [done|].
  apply Forall_forall. intros q Hq.
  apply list_elem_of_fmap in Hq as [[k' q'] [-> Hq]].
  apply list_elem_of_filter in Hq as [_ Hq].
  apply elem_of_map_to_list in Hq. simpl.
  apply lookup_delete_Some in Hq as [_ Hq].
  by eapply conn_unused_lookup.
Qed.

Lemma filter_all {A} (P : A → Prop) `{∀ x, Decision (P x)} (l : list A) :
  Forall P l → filter P l = l.
Proof.
  induction 1 as [|x l Hx _ IH]; [done|].
  rewrite filter_cons, decide_True by done. by rewrite IH.
Qed.

Lemma peer_joined_since_handleJoin conn msg pc s :
  filter (λ pm, sm_Type pm.2 = "peer_joined")
         (since s (handleJoin conn msg (Some pc) s).1)
    = (λ p, (p, peerJoined (sm_ClientID msg)))
        <$> GetOtherPeers (sm_Room msg) (sm_ClientID msg) s.
Proof.
  destruct (since_handleJoin conn msg pc s) as (offers & Ho & ->).
  rewrite filter_app, filter_all, filter_none, app_nil_r; [done| |].
  - eapply Forall_impl; [exact Ho|]. simpl. intros [p m] [_ Hty]. simpl in *.
    congruence.
  - apply Forall_fmap, Forall_forall. by intros p _.
Qed.

Lemma observed_two_joins s room a b ca cb pca pcb :
  a ≠ b → ca ≠ cb → conn_unused ca s → conn_unused cb s →
  let s1 := (handleJoin ca (joinMsg room a) (Some pca) s).1 in
  let s2 := (handleJoin cb (joinMsg room b) (Some pcb) s1).1 in
  observed ca "peer_joined" b s2 = 1 ∧ observed cb "peer_joined" a s2 = 0
  ∧ observed ca "peer_joined" a s2 = 0 ∧ observed cb "peer_joined" b s2 = 0.
Proof.
  intros Hab Hc Hua Hub s1 s2.
  set (pa := joinedPeer ca (joinMsg room a) pca).
  assert (Hp1 : peersOf room s1 = <[a := pa]> (peersOf room s)).
  { unfold s1. rewrite peersOf_handleJoin. cbn [joinMsg sm_Room sm_ClientID].
    by rewrite decide_True. }
  destruct (handleJoin_eq ca (joinMsg room a) pca s) as (o1 & Ho1 & E1).
  destruct (handleJoin_eq cb (joinMsg room b) pcb s1) as (o2 & Ho2 & E2).
  assert (Hs1 : sent s1 = sent s
            ++ ((λ p, (p, peerJoined a)) <$> GetOtherPeers room a s) ++ o1).
  { unfold s1. rewrite E1. done. }
  assert (Hs2 : sent s2 = sent s1
            ++ ((λ p, (p, peerJoined b)) <$> GetOtherPeers room b s1) ++ o2).
  { unfold s2. rewrite E2. done. }
  rewrite !observed_count, Hs2, Hs1. rewrite !count_in_app.
  rewrite !count_in_unused by done.
  rewrite !(count_in_offers _ _ _ _ Ho1), !(count_in_offers _ _ _ _ Ho2).
  rewrite !count_in_broadcast. simpl.
  rewrite !(no_conn_GetOtherPeers ca room a s), !(no_conn_GetOtherPeers cb room a s) by done.
  rewrite (one_conn_GetOtherPeers ca room b s s1 a pa) by done.
  assert (Hb : filter (λ q, peer_Conn q = cb) (GetOtherPeers room b s1) = []).
  { apply filter_none, Forall_forall. intros q Hq.
    apply elem_of_GetOtherPeers in Hq as (k & _ & Hl). rewrite Hp1 in Hl.
    destruct (decide (a = k)) as [<-|Hne].
    - rewrite lookup_insert_eq in Hl. injection Hl as <-. simpl. congruence.
    - rewrite lookup_insert_ne in Hl by done. by eapply conn_unused_lookup. }
  rewrite Hb. simpl.
  rewrite (decide_True (P := _ ∧ b = b)) by done.
  rewrite !(decide_False (P := _ ∧ b = a)) by (intros [_ ?]; congruence).
  rewrite (decide_False (P := _ ∧ a = b)) by (intros [_ ?]; congruence).
  rewrite !(decide_True (P := _ ∧ a = a)) by done.
  rewrite (decide_True (P := _ ∧ b = b)) by done.
  done.
Qed.

(** C1 (as amended).  A join notifies exactly the peers that are in the
    room before the new peer is inserted, the new peer being none of them,
    and no peer_joined goes to a peer whose id it carries.  When two peers
    join a room one after the other on new connections, the earlier one
    observes exactly one peer_joined for the later one, the later one
    observes none for the earlier one, and neither observes one for
    itself. *)
Theorem C1_peer_joined_reaches_earlier_peers_only :
  (∀ s conn msg pc,
     keyed_by_ID s →
     let s' := (handleJoin conn msg (Some pc) s).1 in
     let new := joinedPeer conn msg pc in
     filter (λ pm, sm_Type pm.2 = "peer_joined") (since s s')
       = ((λ p, (p, peerJoined (sm_ClientID msg)))
            <$> GetOtherPeers (sm_Room msg) (sm_ClientID msg) s)
     ∧ (new ∉ GetOtherPeers (sm_Room msg) (sm_ClientID msg) s)
     ∧ peersOf (sm_Room msg) s' !! sm_ClientID msg = Some new
     ∧ (∀ p m, (p, m) ∈ since s s' → sm_Type m = "peer_joined" →
               peer_ID p ≠ sm_ClientID m))
  ∧ (∀ s room a b ca cb pca pcb,
       a ≠ b → ca ≠ cb → conn_unused ca s → conn_unused cb s →
       let s1 := (handleJoin ca (joinMsg room a) (Some pca) s).1 in
       let s2 := (handleJoin cb (joinMsg room b) (Some pcb) s1).1 in
       observed ca "peer_joined" b s2 = 1 ∧ observed cb "peer_joined" a s2 = 0
       ∧ observed ca "peer_joined" a s2 = 0 ∧ observed cb "peer_joined" b s2 = 0).
Proof.
  split; [|apply observed_two_joins].
  intros s conn msg pc Hk s' new.
  assert (Hothers : ∀ p, p ∈ GetOtherPeers (sm_Room msg) (sm_ClientID msg) s →
                         peer_ID p ≠ sm_ClientID msg).
  { intros p (k & Hne & Hl)%elem_of_GetOtherPeers.
    by rewrite (keyed_by_ID_lookup _ _ _ _ Hk Hl). }
  split; [apply peer_joined_since_handleJoin|].
  split; [intros Hin; by apply Hothers in Hin|].
  split.
  - unfold s'. rewrite peersOf_handleJoin, decide_True by done.
    apply lookup_insert_eq.
  - intros p m Hin Hty.
    assert (Hin' : (p, m) ∈ filter (λ pm, sm_Type pm.2 = "peer_joined") (since s s'))
      by (by apply list_elem_of_filter).
    unfold s' in Hin'. rewrite peer_joined_since_handleJoin in Hin'.
    apply list_elem_of_fmap in Hin' as (q & [= -> ->] & Hq). simpl.
    by apply Hothers.
Qed.

(** C2 (as amended).  The receive loop handles every join it reads in the
    same way, whether or not the connection already has a Peer.  When
    createPeerConnection succeeds the join sequence runs: a new Peer is made
    and becomes the connection's peer, it is put into the named room under
    its id, and every other peer of that room is sent peer_joined.  When
    createPeerConnection fails no Peer is made, the rooms stay as they are,
    nothing is sent and no session is closed, and the handler returns.  In
    neither case does the outcome depend on the peer the connection had. *)
Theorem C2_every_join_runs_the_join_sequence
    (conn : nat) (old : option Peer) (msg : SignalMessage) (s : Server) :
  sm_Type msg = "join" →
  (∀ pc : nat,
     let new := joinedPeer conn msg pc in
     let s' := (handleJoin conn msg (Some pc) s).1 in
     handleWebSocket_iter conn (Some pc) old (ReadOk msg) s = (s', Running (Some new))
     ∧ peersOf (sm_Room msg) s' !! sm_ClientID msg = Some new
     ∧ (∀ q, q ∈ GetOtherPeers (sm_Room msg) (sm_ClientID msg) s →
             (q, peerJoined (sm_ClientID msg)) ∈ since s s'))
  ∧ handleWebSocket_iter conn None old (ReadOk msg) s = (s, Returned)
  ∧ (∀ pc : option nat,
       handleWebSocket_iter conn pc old (ReadOk msg) s
         = handleWebSocket_iter conn pc None (ReadOk msg) s).
Proof.
  intros Hty. split; [|split].
  - intros pc new s'. split; [|split].
    + unfold handleWebSocket_iter. rewrite decide_True by done.
      unfold s', new. by destruct (handleJoin_eq conn msg pc s) as (l & _ & ->).
    + unfold s'. rewrite peersOf_handleJoin, decide_True by done.
      apply lookup_insert_eq.
    + intros q Hq. unfold s'.
      destruct (since_handleJoin conn msg pc s) as (l & _ & ->).
      apply elem_of_app. left. apply list_elem_of_fmap. by exists q.
  - unfold handleWebSocket_iter. by rewrite decide_True.
  - intros pc. unfold handleWebSocket_iter. by rewrite !decide_True.
Qed.

End WithStack.

(** ** The disconnect path *)

Lemma handlePeerDisconnect_Rooms peer s :
  Rooms (handlePeerDisconnect peer s) =
    match peer_Room peer with
    | Some room => Rooms (RemovePeer room (peer_ID peer) s)
    | None => Rooms s
    end.
Proof.
  unfold handlePeerDisconnect.
  destruct (peer_Room peer) as [room|], (peer_PeerConnection peer); simpl;
    try rewrite BroadcastExcept_eq; done.
Qed.

Lemma handlePeerDisconnect_sent peer s :
  sent (handlePeerDisconnect peer s) =
    sent s ++
    match peer_Room peer with
    | Some room =>
        (λ p, (p, peerLeft (peer_ID peer)))
          <$> GetOtherPeers room (peer_ID peer) (RemovePeer room (peer_ID peer) s)
    | None => []
    end.
Proof.
  unfold handlePeerDisconnect.
  destruct (peer_Room peer) as [room|], (peer_PeerConnection peer); simpl;
    try rewrite BroadcastExcept_eq; simpl; by rewrite ?app_nil_r.
Qed.

Lemma handlePeerDisconnect_closed peer s :
  closed (handlePeerDisconnect peer s) =
    closed s ++ match peer_PeerConnection peer with
                | Some _ => [peer]
                | None => []
                end.
Proof.
  unfold handlePeerDisconnect.
  destruct (peer_Room peer) as [room|], (peer_PeerConnection peer); simpl;
    try rewrite BroadcastExcept_eq; simpl; by rewrite ?app_nil_r.
Qed.

Lemma since_app s s' l : sent s' = sent s ++ l → since s s' = l.
Proof. unfold since. intros ->. apply drop_app_length. Qed.

(** C3 (as amended).  Running the server's disconnect path a second time
    for the same peer leaves every room's peer map as the first run left it,
    and it broadcasts peer_left once more: each peer that remains in the
    room is sent one further peer_left (and Close is called on the peer's
    media session again).  The client's Disconnect called twice is
    Disconnect called once, in state, result and effects. *)
Theorem C3_disconnect_twice (peer : Peer) (s : Server) (c : Rtp.Client) :
  let s1 := handlePeerDisconnect peer s in
  let s2 := handlePeerDisconnect peer s1 in
  Rooms s2 = Rooms s1
  ∧ since s1 s2 =
      match peer_Room peer with
      | Some room =>
          (λ p, (p, peerLeft (peer_ID peer))) <$> GetOtherPeers room (peer_ID peer) s1
      | None => []
      end
  ∧ closed s2 =
      closed s1 ++ match peer_PeerConnection peer with
                   | Some _ => [peer]
                   | None => []
                   end
  ∧ Rtp.Disconnect (Rtp.Disconnect c).1 = Rtp.Disconnect c.
Proof.
  intros s1 s2. split; [|split; [|split; [apply handlePeerDisconnect_closed|]]].
  - unfold s2. rewrite handlePeerDisconnect_Rooms.
    destruct (peer_Room peer) as [room|] eqn:E; [|done].
    unfold s1 at 2. rewrite handlePeerDisconnect_Rooms, E.
    unfold RemovePeer at 1. cbn [Rooms].
    unfold s1. rewrite handlePeerDisconnect_Rooms, E.
    change (Rooms (RemovePeer room (peer_ID peer) (RemovePeer room (peer_ID peer) s))
            = Rooms (RemovePeer room (peer_ID peer) s)).
    by rewrite RemovePeer_twice.
  - apply since_app. unfold s2. rewrite handlePeerDisconnect_sent.
    destruct (peer_Room peer) as [room|] eqn:E; [|done].
    do 2 f_equal. apply GetOtherPeers_Rooms.
    unfold RemovePeer at 1. cbn [Rooms].
    unfold s1. rewrite handlePeerDisconnect_Rooms, E.
    change (Rooms (RemovePeer room (peer_ID peer) (RemovePeer room (peer_ID peer) s))
            = Rooms (RemovePeer room (peer_ID peer) s)).
    by rewrite RemovePeer_twice.
  - unfold Rtp.Disconnect.
    destruct (Rtp.connected c) eqn:Ec; simpl; [|by rewrite Ec].
    destruct (Rtp.done_closed c) eqn:Ed; simpl; [by rewrite Ec, Ed|done].
Qed.

(** ** The screenshot side channel *)

(** C4 (as amended).  When a peer whose room is [room] sends a screenshot
    with a non-empty target id and the room has a peer under that id, that
    peer and no other is sent the screenshot with the sender's id and the
    data unchanged; when the target id is empty or the room has no such
    peer, nothing is sent to anyone and the state is unchanged. *)
Theorem C4_screenshot_forwarding (peer : Peer) (room : string)
    (msg : SignalMessage) (s : Server) :
  peer_Room peer = Some room →
  (∀ target, sm_TargetID msg ≠ "" → GetPeer room (sm_TargetID msg) s = Some target →
     since s (handleScreenshot peer msg s) = [(target, screenshotFrom peer (sm_Data msg))]
     ∧ Rooms (handleScreenshot peer msg s) = Rooms s)
  ∧ (sm_TargetID msg = "" ∨ GetPeer room (sm_TargetID msg) s = None →
     handleScreenshot peer msg s = s).
Proof.
  intros Hroom. unfold handleScreenshot. rewrite Hroom. split.
  - intros target Hne Hget. rewrite decide_False, Hget by done.
    split; [|done]. apply since_app. done.
  - intros [Hempty|Hnone].
    + by rewrite decide_True.
    + case_decide; [done|]. by rewrite Hnone.
Qed.

(** ** Concrete runs *)

Example room_cab_peers :
  GetPeer "r" "a" room_cab = Some peer_a
  ∧ GetPeer "r" "b" room_cab = Some peer_b
  ∧ GetPeer "r" "c" room_cab = Some peer_c
  ∧ size (peersOf "r" room_cab) = 3.
Proof. vm_compute. done. Qed.

Example room_cab_inboxes :
  sm_Type <$> inbox 3 room_cab = ["offer"; "peer_joined"; "peer_joined"]
  ∧ sm_Type <$> inbox 1 room_cab = ["offer"; "peer_joined"]
  ∧ sm_Type <$> inbox 2 room_cab = ["offer"].
Proof. vm_compute. done. Qed.

Lemma C1_witness :
  (let s' := (handleJoin (H := demoStack) 2 (joinMsg "r" "b") (Some 20) room_ca).1 in
   let new := joinedPeer 2 (joinMsg "r" "b") 20 in
   filter (λ pm, sm_Type pm.2 = "peer_joined") (since room_ca s')
     = ((λ p, (p, peerJoined "b")) <$> GetOtherPeers "r" "b" room_ca)
   ∧ (new ∉ GetOtherPeers "r" "b" room_ca)
   ∧ peersOf "r" s' !! "b" = Some new
   ∧ (∀ p m, (p, m) ∈ since room_ca s' → sm_Type m = "peer_joined" →
             peer_ID p ≠ sm_ClientID m))
  ∧ (observed 1 "peer_joined" "b" room_cab = 1
     ∧ observed 2 "peer_joined" "a" room_cab = 0
     ∧ observed 1 "peer_joined" "a" room_cab = 0
     ∧ observed 2 "peer_joined" "b" room_cab = 0).
Proof.
  destruct (C1_peer_joined_reaches_earlier_peers_only (H := demoStack)) as [H1 H2].
  split.
  - apply (H1 room_ca 2 (joinMsg "r" "b") 20).
    apply (bool_decide_unpack _). vm_compute. exact I.
  - apply (H2 room_c "r" "a" "b" 1 2 10 20).
    + vm_compute. congruence.
    + lia.
    + apply (bool_decide_unpack _). vm_compute. exact I.
    + apply (bool_decide_unpack _). vm_compute. exact I.
Defined.

(** Against C1 as stated: "a" and "b" join room "r" one after the other;
    "b", the later one, observes no peer_joined for "a", so it is not the
    case that each of the two observes exactly one for the other. *)
Lemma C1_counterexample :
  let s1 := (handleJoin (H := demoStack) 1 (joinMsg "r" "a") (Some 10) newServer).1 in
  let s2 := (handleJoin (H := demoStack) 2 (joinMsg "r" "b") (Some 20) s1).1 in
  inbox 2 s2 = [mkSignalMessage "offer" "" "" "offer-for-b" "" "" ""]
  ∧ observed 2 "peer_joined" "a" s2 = 0
  ∧ ¬ (observed 1 "peer_joined" "b" s2 = 1 ∧ observed 2 "peer_joined" "a" s2 = 1).
Proof. vm_compute. split; [done|]. split; [done|]. intros [_ ?]. discriminate. Qed.

Lemma C2_witness :
  let msg := joinMsg "r" "a2" in
  (∀ pc : nat,
     let s' := (handleJoin (H := demoStack) 1 msg (Some pc) room_cab).1 in
     handleWebSocket_iter (H := demoStack) 1 (Some pc) (Some peer_a) (ReadOk msg) room_cab
       = (s', Running (Some (joinedPeer 1 msg pc)))
     ∧ peersOf "r" s' !! "a2" = Some (joinedPeer 1 msg pc)
     ∧ (∀ q, q ∈ GetOtherPeers "r" "a2" room_cab → (q, peerJoined "a2") ∈ since room_cab s'))
  ∧ handleWebSocket_iter (H := demoStack) 1 None (Some peer_a) (ReadOk msg) room_cab
      = (room_cab, Returned)
  ∧ (∀ pc : option nat,
       handleWebSocket_iter (H := demoStack) 1 pc (Some peer_a) (ReadOk msg) room_cab
         = handleWebSocket_iter (H := demoStack) 1 pc None (ReadOk msg) room_cab).
Proof.
  apply (C2_every_join_runs_the_join_sequence (H := demoStack)
           1 (Some peer_a) (joinMsg "r" "a2") room_cab).
  reflexivity.
Defined.

(** Against C2 as stated: connection 1 has joined as "a"; a second join on
    it, as "a2", makes a new Peer the connection's peer, adds it to the
    room, and has peer_joined sent to the three peers of the room. *)
Lemma C2_counterexample :
  let '(s', st) :=
    handleWebSocket_iter (H := demoStack) 1 (Some 11) (Some peer_a)
      (ReadOk (joinMsg "r" "a2")) room_cab in
  st = Running (Some (mkPeer "a2" 1 (Some 11) (Some "r") []))
  ∧ GetPeer "r" "a2" room_cab = None
  ∧ GetPeer "r" "a2" s' = Some (mkPeer "a2" 1 (Some 11) (Some "r") [])
  ∧ GetPeer "r" "a" s' = Some peer_a
  ∧ (since room_cab s').*2 =
      [peerJoined "a2"; peerJoined "a2"; peerJoined "a2";
       mkSignalMessage "offer" "" "" "offer-for-a2" "" "" ""].
Proof. vm_compute. done. Qed.

(** Against C3 as stated: "a" leaves room "r" of "a", "b" and "c"; the
    second run of the disconnect path for "a" sends "b" and "c" one more
    peer_left each, so each of them observes two. *)
Lemma C3_counterexample :
  let s1 := handlePeerDisconnect peer_a room_cab in
  let s2 := handlePeerDisconnect peer_a s1 in
  (peer_b, peerLeft "a") ∈ since s1 s2
  ∧ (peer_c, peerLeft "a") ∈ since s1 s2
  ∧ observed 2 "peer_left" "a" s1 = 1
  ∧ observed 2 "peer_left" "a" s2 = 2.
Proof.
  split; [|split; [|by vm_compute]];
    apply (bool_decide_unpack _); vm_compute; exact I.
Qed.

Lemma C4_witness :
  (∀ target, "b" ≠ "" → GetPeer "r" "b" room_cab = Some target →
     since room_cab (handleScreenshot peer_a (screenshotMsg "b" "QUJD") room_cab)
       = [(target, screenshotFrom peer_a "QUJD")]
     ∧ Rooms (handleScreenshot peer_a (screenshotMsg "b" "QUJD") room_cab) = Rooms room_cab)
  ∧ ("b" = "" ∨ GetPeer "r" "b" room_cab = None →
     handleScreenshot peer_a (screenshotMsg "b" "QUJD") room_cab = room_cab).
Proof.
  apply (C4_screenshot_forwarding peer_a "r" (screenshotMsg "b" "QUJD") room_cab).
  reflexivity.
Defined.

(** Against C4 as stated: the room has a peer under the empty id, "a" sends
    a screenshot whose target id is empty, and nothing is sent. *)
Lemma C4_counterexample :
  GetPeer "r" "" room_with_anonymous = Some (mkPeer "" 4 (Some 40) (Some "r") [])
  ∧ handleScreenshot peer_a (screenshotMsg "" "x") room_with_anonymous
      = room_with_anonymous
  ∧ since room_with_anonymous
      (handleScreenshot peer_a (screenshotMsg "" "x") room_with_anonymous) = [].
Proof. vm_compute. done. Qed.

Example screenshot_forward :
  since room_cab (handleScreenshot peer_a (screenshotMsg "b" "QUJD") room_cab)
    = [(peer_b, mkSignalMessage "screenshot" "" "a" "" "" "QUJD" "")].
Proof. vm_compute. reflexivity. Qed.

Example screenshot_unknown_target :
  handleScreenshot peer_a (screenshotMsg "zz" "x") room_cab = room_cab.
Proof. vm_compute. reflexivity. Qed.

End SignalingSpec.

(* ===================================================================== *)
(** * Properties of bytes and of the RTP send state *)
(* ===================================================================== *)

Module BytesSpec.

Import Bytes.
Local Open Scope Z_scope.

Lemma byte_to_Z_range b : 0 ≤ byte_to_Z b < 256.
Proof.
  unfold byte_to_Z. pose proof (Byte.to_N_bounded b) as Hb. lia.
Qed.

Lemma byte_of_to_Z b : byte_of_Z (byte_to_Z b) = b.
Proof.
  unfold byte_of_Z. rewrite Z.mod_small by apply byte_to_Z_range.
  unfold byte_to_Z. rewrite N2Z.id. by rewrite Byte.of_to_N.
Qed.

Lemma byte_to_of_Z z : byte_to_Z (byte_of_Z z) = z mod 256.
Proof.
  unfold byte_of_Z, byte_to_Z.
  pose proof (Z.mod_pos_bound z 256 ltac:(lia)) as Hm.
  destruct (Byte.of_N (Z.to_N (z mod 256))) as [b|] eqn:E.
  - apply Byte.to_of_N in E. rewrite E. lia.
  - apply Byte.of_N_None_iff in E. lia.
Qed.

End BytesSpec.

Module RtpSpec.

Import Bytes BytesSpec Rtp.
Local Open Scope Z_scope.

Lemma emitted_emit e c : emitted (emit e c) =
  emitted c ++ omap (λ e, match e with TrackWriteRTP p => Some p | _ => None end) e.
Proof. unfold emitted, emit. simpl. apply omap_app. Qed.

Lemma WriteOpus_accepted opusData c tr :
  audioTrack c = Some tr →
  let c' := (WriteOpus true opusData c).1 in
  audioTrack c' = Some tr
  ∧ rtpSeqNum c' = wrap_uint16 (rtpSeqNum c + 1)
  ∧ rtpTimestamp c' = wrap_uint32 (rtpTimestamp c + 960)
  ∧ emitted c' = emitted c ++
      [mkPacket (mkHeader 2 false false false 111 (rtpSeqNum c) (rtpTimestamp c)
                          0x12345678) opusData]
  ∧ (WriteOpus true opusData c).2 = Nil.
Proof.
  intros Htr. unfold WriteOpus. rewrite Htr. simpl.
  rewrite emitted_emit. done.
Qed.

(** A failed write leaves a gap: the state advances although no packet
    went out. *)
Lemma WriteOpus_rejected opusData c tr :
  audioTrack c = Some tr →
  let c' := (WriteOpus false opusData c).1 in
  rtpSeqNum c' = wrap_uint16 (rtpSeqNum c + 1)
  ∧ rtpTimestamp c' = wrap_uint32 (rtpTimestamp c + 960)
  ∧ emitted c' = emitted c.
Proof. intros Htr. unfold WriteOpus. rewrite Htr. done. Qed.

Lemma WriteOpus_all_emitted payloads : ∀ c tr,
  audioTrack c = Some tr →
  0 ≤ rtpSeqNum c < 2 ^ 16 → 0 ≤ rtpTimestamp c < 2 ^ 32 →
  ∃ pkts,
    emitted (WriteOpus_all payloads c) = emitted c ++ pkts
    ∧ length pkts = length payloads
    ∧ ∀ (k : nat) p, pkts !! k = Some p →
        SequenceNumber (pkt_Header p) = (rtpSeqNum c + Z.of_nat k) mod 2 ^ 16
        ∧ Timestamp (pkt_Header p) = (rtpTimestamp c + 960 * Z.of_nat k) mod 2 ^ 32
        ∧ PayloadType (pkt_Header p) = 111
        ∧ payloads !! k = Some (Payload p).
Proof.
  induction payloads as [|d ds IH]; intros c tr Htr Hs Ht.
  - exists []. simpl. rewrite app_nil_r. split; [done|]. split; [done|].
    intros k p Hp. by rewrite lookup_nil in Hp.
  - simpl. destruct (WriteOpus_accepted d c tr Htr) as (Htr' & Hs' & Ht' & He & _).
    destruct (IH (WriteOpus true d c).1 tr Htr') as (pkts & Hem & Hlen & Hk).
    { rewrite Hs'. apply Z.mod_pos_bound. lia. }
    { rewrite Ht'. apply Z.mod_pos_bound. lia. }
    eexists (_ :: pkts). split; [|split].
    + rewrite Hem, He, <- app_assoc. reflexivity.
    + simpl. by rewrite Hlen.
    + intros [|k] p Hp; simpl in Hp.
      * injection Hp as <-. simpl.
        rewrite Z.add_0_r, Z.mul_0_r, Z.add_0_r, !Z.mod_small by lia. done.
      * destruct (Hk k p Hp) as (H1 & H2 & H3 & H4).
        rewrite H1, H2, Hs', Ht'. unfold wrap_uint16, wrap_uint32.
        rewrite !Zplus_mod_idemp_l. repeat split; [f_equal; lia..|done|done].
Qed.

(** C5.  A run of WriteOpus calls that all succeed on a client with an audio
    track hands the track one packet per call; the k-th carries the sequence
    number (initial + k) mod 2^16 and the timestamp (initial + 960 k) mod
    2^32, so each packet's sequence number is the previous one's plus 1
    modulo 2^16 and its timestamp the previous one's plus 960 modulo 2^32. *)
Theorem C5_sequence_numbers_and_timestamps
    (c : Client) (payloads : list (list byte)) :
  is_Some (audioTrack c) →
  0 ≤ rtpSeqNum c < 2 ^ 16 → 0 ≤ rtpTimestamp c < 2 ^ 32 →
  let pkts := emitted_since c (WriteOpus_all payloads c) in
  length pkts = length payloads
  ∧ (∀ (k : nat) p, pkts !! k = Some p →
       SequenceNumber (pkt_Header p) = (rtpSeqNum c + Z.of_nat k) mod 2 ^ 16
       ∧ Timestamp (pkt_Header p) = (rtpTimestamp c + 960 * Z.of_nat k) mod 2 ^ 32
       ∧ payloads !! k = Some (Payload p))
  ∧ (∀ (k : nat) p q, pkts !! k = Some p → pkts !! S k = Some q →
       SequenceNumber (pkt_Header q) = (SequenceNumber (pkt_Header p) + 1) mod 2 ^ 16
       ∧ Timestamp (pkt_Header q) = (Timestamp (pkt_Header p) + 960) mod 2 ^ 32).
Proof.
  intros [tr Htr] Hs Ht pkts.
  destruct (WriteOpus_all_emitted payloads c tr Htr Hs Ht) as (l & Hem & Hlen & Hk).
  assert (pkts = l) as ->.
  { unfold pkts, emitted_since. rewrite Hem. apply drop_app_length. }
  split; [done|]. split.
  - intros k p Hp. destruct (Hk k p Hp) as (? & ? & ? & ?). done.
  - intros k p q Hp Hq.
    destruct (Hk k p Hp) as (-> & -> & _), (Hk (S k) q Hq) as (-> & -> & _).
    rewrite !Zplus_mod_idemp_l. split; f_equal; lia.
Qed.

Lemma C5_witness :
  let pkts := emitted_since connectedClient
                (WriteOpus_all [[Byte.x01]; [Byte.x02]; []] connectedClient) in
  length pkts = 3%nat
  ∧ (∀ (k : nat) p, pkts !! k = Some p →
       SequenceNumber (pkt_Header p) = (0 + Z.of_nat k) mod 2 ^ 16
       ∧ Timestamp (pkt_Header p) = (0 + 960 * Z.of_nat k) mod 2 ^ 32
       ∧ [[Byte.x01]; [Byte.x02]; []] !! k = Some (Payload p))
  ∧ (∀ (k : nat) p q, pkts !! k = Some p → pkts !! S k = Some q →
       SequenceNumber (pkt_Header q) = (SequenceNumber (pkt_Header p) + 1) mod 2 ^ 16
       ∧ Timestamp (pkt_Header q) = (Timestamp (pkt_Header p) + 960) mod 2 ^ 32).
Proof.
  apply (C5_sequence_numbers_and_timestamps connectedClient
           [[Byte.x01]; [Byte.x02]; []]).
  - vm_compute. eauto.
  - vm_compute. split; congruence.
  - vm_compute. split; congruence.
Defined.

(** The sequence number wraps from 65535 to 0. *)
Example WriteOpus_wraps :
  let c := mkClient "x" "" "" None None (Some 3%nat) true false 65535 4294967000 [] in
  (λ p, (SequenceNumber (pkt_Header p), Timestamp (pkt_Header p)))
    <$> emitted (WriteOpus_all [[]; []; []] c)
  = [(65535, 4294967000); (0, 664); (1, 1624)].
Proof. vm_compute. reflexivity. Qed.

(** ** [RTPPacketizer] *)

Lemma Packetize_state opusData p :
  seqNum (Packetize opusData p).2 = wrap_uint16 (seqNum p + 1)
  ∧ timestamp (Packetize opusData p).2 = wrap_uint32 (timestamp p + frameSize p).
Proof. done. Qed.

Lemma Packetize_header opusData p :
  0 ≤ seqNum p < 2 ^ 16 → 0 ≤ timestamp p < 2 ^ 32 →
  packet_seq (Packetize opusData p).1 = seqNum p
  ∧ packet_ts (Packetize opusData p).1 = timestamp p
  ∧ drop 12 (Packetize opusData p).1 = opusData.
Proof.
  intros Hs Ht. unfold Packetize, packet_seq, packet_ts, be_value. simpl.
  rewrite !byte_to_of_Z, !Z.shiftr_div_pow2 by lia.
  change (2 ^ 8) with 256. change (2 ^ 16) with 65536 in *.
  change (2 ^ 24) with 16777216. change (2 ^ 32) with 4294967296 in *.
  repeat split.
  - pose proof (Z.div_mod (seqNum p) 256 ltac:(lia)).
    rewrite (Z.mod_small (seqNum p / 256)) by (split; [apply Z.div_pos|apply Z.div_lt_upper_bound]; lia).
    lia.
  - assert (Hq2 : timestamp p / 65536 = timestamp p / 256 / 256)
      by (rewrite Z.div_div by lia; done).
    assert (Hq3 : timestamp p / 16777216 = timestamp p / 256 / 256 / 256)
      by (rewrite !Z.div_div by lia; done).
    rewrite Hq2, Hq3.
    pose proof (Z.div_mod (timestamp p) 256 ltac:(lia)).
    pose proof (Z.div_mod (timestamp p / 256) 256 ltac:(lia)).
    pose proof (Z.div_mod (timestamp p / 256 / 256) 256 ltac:(lia)).
    rewrite (Z.mod_small (timestamp p / 256 / 256 / 256)); [lia|].
    split; [repeat apply Z.div_pos; lia|].
    repeat (apply Z.div_lt_upper_bound; [lia|]). lia.
Qed.

End RtpSpec.

(* ===================================================================== *)
(** * Magnitudes of binary64 results *)
(* ===================================================================== *)

Module Float64Spec.

Import Bytes Audio.
Local Open Scope Z_scope.

(** Goals with quotients and remainders by constants. *)
Ltac div_mod_lia := Z.div_mod_to_equations; lia.

(** ** Binary digits *)

Lemma digits2_pos_size p : digits2_pos p = Pos.size p.
Proof. induction p; simpl; congruence. Qed.

Lemma digits_bounds (p : positive) :
  2 ^ (Z.pos (digits2_pos p) - 1) ≤ Z.pos p < 2 ^ Z.pos (digits2_pos p).
Proof.
  rewrite digits2_pos_size. split.
  - pose proof (Pos.size_le p) as Hle.
    assert (2 ^ Z.pos (Pos.size p) ≤ 2 * Z.pos p).
    { rewrite <- Pos2Z.inj_pow. lia. }
    replace (Z.pos (Pos.size p)) with (Z.pos (Pos.size p) - 1 + 1) in H by lia.
    rewrite Z.pow_add_r in H by lia. lia.
  - pose proof (Pos.size_gt p) as Hgt. rewrite <- Pos2Z.inj_pow. lia.
Qed.

Lemma digits_unique (p : positive) (d : Z) :
  2 ^ (d - 1) ≤ Z.pos p < 2 ^ d → Z.pos (digits2_pos p) = d.
Proof.
  intros [Hlo Hhi]. pose proof (digits_bounds p) as [Hlo' Hhi'].
  assert (0 < d).
  { destruct (Z.le_gt_cases d 0) as [Hd|Hd]; [|done].
    assert (2 ^ d ≤ 2 ^ 0) by (apply Z.pow_le_mono_r; lia). lia. }
  destruct (Z.lt_trichotomy (Z.pos (digits2_pos p)) d) as [Hlt|[Heq|Hgt]]; [|done|].
  - assert (2 ^ Z.pos (digits2_pos p) ≤ 2 ^ (d - 1)) by (apply Z.pow_le_mono_r; lia).
    lia.
  - assert (2 ^ d ≤ 2 ^ (Z.pos (digits2_pos p) - 1)) by (apply Z.pow_le_mono_r; lia).
    lia.
Qed.

Lemma pow2_pos (k : Z) : 0 ≤ k → 0 < 2 ^ k.
Proof. intros. apply Z.pow_pos_nonneg; lia. Qed.

Lemma pow2_split (a b : Z) : 0 ≤ a → 0 ≤ b → 2 ^ (a + b) = 2 ^ a * 2 ^ b.
Proof. intros. apply Z.pow_add_r; lia. Qed.

(** The digits of a positive integer given by bounds. *)
Lemma digits_of_bounds (z d : Z) :
  0 < d → 2 ^ (d - 1) ≤ z < 2 ^ d →
  ∃ p, z = Z.pos p ∧ Z.pos (digits2_pos p) = d.
Proof.
  intros Hd [Hlo Hhi]. pose proof (pow2_pos (d - 1) ltac:(lia)).
  destruct z as [|p|p]; try lia. exists p. split; [done|].
  by apply digits_unique.
Qed.

Lemma div_pow2_bounds (z d k : Z) :
  0 ≤ k → k < d → 2 ^ (d - 1) ≤ z < 2 ^ d →
  2 ^ (d - k - 1) ≤ z / 2 ^ k < 2 ^ (d - k).
Proof.
  intros Hk Hkd [Hlo Hhi]. pose proof (pow2_pos k Hk). split.
  - apply Z.div_le_lower_bound; [done|].
    rewrite Z.mul_comm, <- pow2_split by lia.
    by replace (d - k - 1 + k) with (d - 1) by lia.
  - apply Z.div_lt_upper_bound; [done|].
    rewrite <- pow2_split by lia. by replace (k + (d - k)) with d by lia.
Qed.

(** ** Shifting and rounding a positive mantissa *)

Lemma shr_1_m r : 0 ≤ shr_m r → shr_m (shr_1 r) = shr_m r / 2.
Proof.
  destruct r as [m r s]. simpl. intros Hm.
  destruct m as [|[p|p|]|p]; simpl; try lia; try done.
  - rewrite <- Z.div2_div. done.
  - rewrite <- Z.div2_div. done.
Qed.

Lemma shr_1_nonneg r : 0 ≤ shr_m r → 0 ≤ shr_m (shr_1 r).
Proof.
  intros Hm. rewrite shr_1_m by done. apply Z.div_pos; lia.
Qed.

Lemma iter_pos_shr_1 k : ∀ r,
  0 ≤ shr_m r →
  shr_m (iter_pos shr_1 k r) = shr_m r / 2 ^ Z.pos k.
Proof.
  induction k as [k IH|k IH|]; intros r Hr; simpl.
  - assert (H1 : 0 ≤ shr_m (shr_1 r)) by by apply shr_1_nonneg.
    assert (H2 : 0 ≤ shr_m (iter_pos shr_1 k (shr_1 r))).
    { rewrite IH by done. apply Z.div_pos; [done|]. apply pow2_pos. lia. }
    rewrite IH, IH, shr_1_m by done.
    pose proof (pow2_pos (Z.pos k) ltac:(lia)).
    rewrite !Z.div_div by lia. f_equal.
    change (Z.pos k~1) with (2 * Z.pos k + 1).
    replace (2 * Z.pos k + 1) with (1 + Z.pos k + Z.pos k) by lia.
    rewrite (pow2_split (1 + Z.pos k)), (pow2_split 1) by lia. lia.
  - assert (H2 : 0 ≤ shr_m (iter_pos shr_1 k r)).
    { rewrite IH by done. apply Z.div_pos; [done|]. apply pow2_pos. lia. }
    rewrite IH, IH by done.
    pose proof (pow2_pos (Z.pos k) ltac:(lia)).
    rewrite !Z.div_div by lia. f_equal.
    change (Z.pos k~0) with (2 * Z.pos k).
    replace (2 * Z.pos k) with (Z.pos k + Z.pos k) by lia.
    rewrite (pow2_split (Z.pos k)) by lia. lia.
  - rewrite shr_1_m by done. done.
Qed.

Lemma shr_m_of_loc m l : shr_m (shr_record_of_loc m l) = m.
Proof. destruct l as [|[| |]]; done. Qed.

(** In the normal range, [shr_fexp] keeps at most 53 digits of the
    mantissa. *)
Lemma shr_fexp_normal (p : positive) (e : Z) (l : location) :
  let d := Z.pos (digits2_pos p) in
  -1021 ≤ d + e →
  let k := Z.max 0 (d - 53) in
  ∃ mrs, shr_fexp 53 1024 (Z.pos p) e l = (mrs, e + k) ∧ shr_m mrs = Z.pos p / 2 ^ k.
Proof.
  intros d Hn k. unfold shr_fexp, shr. cbn [Zdigits2]. fold d.
  assert (Hf : fexp 53 1024 (d + e) - e = d - 53).
  { unfold fexp, emin. lia. }
  rewrite Hf. destruct (d - 53) as [|q|q] eqn:Hq.
  - eexists. split; [f_equal; unfold k; lia|].
    rewrite shr_m_of_loc. unfold k. rewrite Z.max_l by lia.
    by rewrite Z.pow_0_r, Z.div_1_r.
  - eexists. split; [f_equal; unfold k; lia|].
    rewrite iter_pos_shr_1 by (rewrite shr_m_of_loc; lia).
    rewrite shr_m_of_loc. unfold k. by rewrite Z.max_r by lia.
  - eexists. split; [f_equal; unfold k; lia|].
    rewrite shr_m_of_loc. unfold k. rewrite Z.max_l by lia.
    by rewrite Z.pow_0_r, Z.div_1_r.
Qed.

Lemma round_nearest_even_bounds m l :
  m ≤ round_nearest_even m l ≤ m + 1.
Proof.
  unfold round_nearest_even. destruct l as [|[| |]]; try lia.
  destruct (Z.even m); lia.
Qed.

(** Rounding keeps the magnitude or raises it by one. *)
Lemma binary_round_aux_mag (p : positive) (e : Z) (l : location) :
  let d := Z.pos (digits2_pos p) in
  -1021 ≤ d + e → d + e ≤ 900 → e ≤ 900 →
  pos_finite (binary_round_aux 53 1024 false (Z.pos p) e l) (d + e) (d + e + 1).
Proof.
  intros d Hlo Hhi He. unfold binary_round_aux.
  destruct (shr_fexp_normal p e l Hlo) as (mrs1 & -> & Hm1). fold d in Hm1.
  set (k1 := Z.max 0 (d - 53)) in *.
  set (d1 := d - k1).
  pose proof (digits_bounds p) as Hp. fold d in Hp.
  assert (Hd : 0 < d) by (unfold d; lia).
  assert (Hb1 : 2 ^ (d1 - 1) ≤ shr_m mrs1 < 2 ^ d1).
  { rewrite Hm1. unfold d1.
    apply div_pow2_bounds; unfold k1; lia. }
  assert (Hd1 : 0 < d1 ≤ 53) by (unfold d1, k1; lia).
  set (m2 := round_nearest_even (shr_m mrs1) (loc_of_shr_record mrs1)).
  pose proof (round_nearest_even_bounds (shr_m mrs1) (loc_of_shr_record mrs1)) as Hr.
  fold m2 in Hr.
  assert (Hm2 : (2 ^ (d1 - 1) ≤ m2 < 2 ^ d1) ∨ m2 = 2 ^ d1) by lia.
  assert (Hdig : ∃ p2 d2, m2 = Z.pos p2 ∧ Z.pos (digits2_pos p2) = d2
                          ∧ (d2 = d1 ∨ d2 = d1 + 1)
                          ∧ 2 ^ (d2 - 1) ≤ m2 < 2 ^ d2).
  { destruct Hm2 as [Hm2|Hm2].
    - destruct (digits_of_bounds m2 d1 ltac:(lia) Hm2) as (p2 & E & Hd2).
      exists p2, d1. repeat split; [done|done|by left|lia|lia].
    - assert (Hb : 2 ^ (d1 + 1 - 1) ≤ m2 < 2 ^ (d1 + 1)).
      { replace (d1 + 1 - 1) with d1 by lia. rewrite Hm2.
        rewrite (pow2_split d1 1) by lia. pose proof (pow2_pos d1 ltac:(lia)).
        lia. }
      destruct (digits_of_bounds m2 (d1 + 1) ltac:(lia) Hb) as (p2 & E & Hd2).
      exists p2, (d1 + 1). repeat split; [done|done|by right|lia|lia]. }
  destruct Hdig as (p2 & d2 & E2 & Hd2 & Hd2' & Hb2).
  rewrite E2. fold d. fold k1.
  destruct (shr_fexp_normal p2 (e + k1) loc_Exact) as (mrs2 & -> & Hm3).
  { rewrite Hd2. unfold d1 in Hd2'. lia. }
  rewrite Hd2 in Hm3. set (k2 := Z.max 0 (d2 - 53)) in *.
  assert (Hb3 : 2 ^ (d2 - k2 - 1) ≤ shr_m mrs2 < 2 ^ (d2 - k2)).
  { rewrite Hm3, <- E2. apply div_pow2_bounds; unfold k2; lia. }
  destruct (digits_of_bounds (shr_m mrs2) (d2 - k2) ltac:(unfold k2; lia) Hb3)
    as (p3 & E3 & Hd3).
  rewrite E3, Hd2. fold k2.
  assert (Hle : (e + k1 + k2 <=? 1024 - 53) = true).
  { apply Z.leb_le. unfold k1, k2, d1 in *. lia. }
  rewrite Hle. exists p3, (e + k1 + k2). split; [done|].
  rewrite Hd3. unfold d1 in *. lia.
Qed.

Lemma pos_finite_weaken x lo hi lo' hi' :
  pos_finite x lo hi → lo' ≤ lo → hi ≤ hi' → pos_finite x lo' hi'.
Proof. intros (m & e & -> & Hm) ? ?. exists m, e. split; [done|lia]. Qed.

Lemma digits_between (p : positive) (a b : Z) :
  0 ≤ a → 2 ^ a ≤ Z.pos p < 2 ^ b → a + 1 ≤ Z.pos (digits2_pos p) ≤ b.
Proof.
  intros Ha [Hlo Hhi]. pose proof (digits_bounds p) as [Hlo' Hhi'].
  set (d := Z.pos (digits2_pos p)) in *. split.
  - destruct (Z.le_gt_cases (a + 1) d) as [|Hgt]; [done|].
    assert (2 ^ d ≤ 2 ^ a) by (apply Z.pow_le_mono_r; lia). lia.
  - destruct (Z.le_gt_cases d b) as [|Hgt]; [done|].
    destruct (Z.le_gt_cases 0 b) as [Hb|Hb].
    + assert (2 ^ b ≤ 2 ^ (d - 1)) by (apply Z.pow_le_mono_r; lia). lia.
    + rewrite Z.pow_neg_r in Hhi by done. lia.
Qed.

(** ** The operations on positive finite numbers *)

Lemma shift_pos_pow2 (p k : positive) :
  Z.pos (Pos.iter xO p k) = Z.pos p * 2 ^ Z.pos k.
Proof.
  pose proof (Zpower.shift_pos_correct k p) as Hs.
  unfold Zpower.shift_pos in Hs. rewrite Hs.
  rewrite Zpower.Zpower_pos_nat, Zpower.Zpower_nat_Z, positive_nat_Z. lia.
Qed.

Lemma f64_of_int_pos (n : Z) :
  0 < n → n < 2 ^ 800 →
  ∃ p, n = Z.pos p ∧
       pos_finite (f64_of_int n) (Z.pos (digits2_pos p)) (Z.pos (digits2_pos p) + 1).
Proof.
  intros Hn Hhi. destruct n as [|p|p]; try lia. exists p. split; [done|].
  set (d := Z.pos (digits2_pos p)).
  assert (Hd : 1 ≤ d ≤ 800).
  { unfold d. apply (digits_between p 0 800); [lia|]. lia. }
  unfold f64_of_int, binary_normalize, binary_round, shl_align.
  fold d. rewrite Z.add_0_r.
  assert (Hf : fexp 53 1024 d = d - 53) by (unfold fexp, emin; lia).
  rewrite Hf, Z.sub_0_r. pose proof (digits_bounds p) as Hp. fold d in Hp.
  destruct (d - 53) as [|k|k] eqn:Hk.
  - pose proof (binary_round_aux_mag p 0 loc_Exact) as Hb.
    fold d in Hb. cbn zeta in Hb. rewrite Z.add_0_r in Hb. apply Hb; lia.
  - pose proof (binary_round_aux_mag p 0 loc_Exact) as Hb.
    fold d in Hb. cbn zeta in Hb. rewrite Z.add_0_r in Hb. apply Hb; lia.
  - assert (Hq : Z.pos (digits2_pos (Pos.iter xO p k)) = 53).
    { apply digits_unique. rewrite shift_pos_pow2.
      assert (E1 : 2 ^ (53 - 1) = 2 ^ (d - 1) * 2 ^ Z.pos k).
      { rewrite <- pow2_split by lia. f_equal. lia. }
      assert (E2 : 2 ^ 53 = 2 ^ d * 2 ^ Z.pos k).
      { rewrite <- pow2_split by lia. f_equal. lia. }
      rewrite E1, E2.
      pose proof (pow2_pos (Z.pos k) ltac:(lia)). nia. }
    pose proof (binary_round_aux_mag (Pos.iter xO p k) (Z.neg k) loc_Exact) as Hb.
    cbn zeta in Hb. rewrite Hq in Hb.
    specialize (Hb ltac:(lia) ltac:(lia) ltac:(lia)).
    eapply pos_finite_weaken; [exact Hb|lia|lia].
Qed.

Lemma f64_of_int_0 : f64_of_int 0 = S754_zero false.
Proof. done. Qed.

Lemma f64_mul_pos x y lx hx ly hy :
  pos_finite x lx hx → pos_finite y ly hy →
  -1000 ≤ lx + ly → hx + hy ≤ 900 →
  pos_finite (f64_mul x y) (lx + ly - 1) (hx + hy + 1).
Proof.
  intros (mx & ex & -> & Hx) (my & ey & -> & Hy) Hlo Hhi.
  unfold f64_mul, SFmul. cbn [xorb].
  pose proof (digits_bounds mx) as Hbx. pose proof (digits_bounds my) as Hby.
  set (dx := Z.pos (digits2_pos mx)) in *. set (dy := Z.pos (digits2_pos my)) in *.
  assert (Hdx : 0 < dx) by (unfold dx; lia).
  assert (Hdy : 0 < dy) by (unfold dy; lia).
  assert (Hd : dx + dy - 1 ≤ Z.pos (digits2_pos (mx * my)) ≤ dx + dy).
  { pose proof (digits_between (mx * my) (dx + dy - 2) (dx + dy)) as Hb.
    replace (dx + dy - 2 + 1) with (dx + dy - 1) in Hb by lia.
    apply Hb; [lia|]. rewrite Pos2Z.inj_mul.
    replace (dx + dy - 2) with ((dx - 1) + (dy - 1)) by lia.
    rewrite !pow2_split by lia.
    pose proof (pow2_pos (dx - 1) ltac:(lia)).
    pose proof (pow2_pos (dy - 1) ltac:(lia)). nia. }
  pose proof (binary_round_aux_mag (mx * my) (ex + ey) loc_Exact) as Hb.
  cbn zeta in Hb.
  specialize (Hb ltac:(lia) ltac:(lia) ltac:(lia)).
  eapply pos_finite_weaken; [exact Hb|lia|lia].
Qed.

Lemma f64_mul_zero_l y lo hi :
  pos_finite y lo hi → f64_mul (S754_zero false) y = S754_zero false.
Proof. by intros (m & e & -> & _). Qed.

Lemma f64_div_zero_l y lo hi :
  pos_finite y lo hi → f64_div (S754_zero false) y = S754_zero false.
Proof. by intros (m & e & -> & _). Qed.

Lemma SFdiv_core_binary_mag (mx my : positive) (ex ey : Z) :
  let MX := Z.pos (digits2_pos mx) + ex in
  let MY := Z.pos (digits2_pos my) + ey in
  -1021 ≤ MX - MY →
  ∃ q e' l,
    SFdiv_core_binary 53 1024 (Z.pos mx) ex (Z.pos my) ey = (Z.pos q, e', l)
    ∧ MX - MY ≤ Z.pos (digits2_pos q) + e' ≤ MX - MY + 1
    ∧ e' ≤ MX - MY - 53.
Proof.
  intros MX MY Hn. unfold SFdiv_core_binary. cbn [Zdigits2].
  set (dx := Z.pos (digits2_pos mx)) in *. set (dy := Z.pos (digits2_pos my)) in *.
  pose proof (digits_bounds mx) as Hbx. pose proof (digits_bounds my) as Hby.
  fold dx in Hbx. fold dy in Hby.
  assert (Hdx : 0 < dx) by (unfold dx; lia).
  assert (Hdy : 0 < dy) by (unfold dy; lia).
  assert (Hf : fexp 53 1024 (dx + ex - (dy + ey)) = MX - MY - 53).
  { unfold fexp, emin, MX, MY. lia. }
  rewrite Hf.
  set (e' := Z.min (MX - MY - 53) (ex - ey)).
  set (s := ex - ey - e').
  assert (Hs : 0 ≤ s ∧ 53 + dy - dx ≤ s ∧ s + e' = ex - ey) by (unfold s, e', MX, MY; lia).
  set (m' := match s with Z.pos _ => Z.shiftl (Z.pos mx) s | 0 => Z.pos mx | Z.neg _ => 0 end).
  assert (Hm' : m' = Z.pos mx * 2 ^ s).
  { unfold m'. destruct s as [|k|k] eqn:Es; [lia| |lia].
    rewrite Z.shiftl_mul_pow2 by lia. done. }
  destruct (Z.div_eucl m' (Z.pos my)) as [q r] eqn:Ediv.
  assert (Hq : q = m' / Z.pos my) by (unfold Z.div; by rewrite Ediv).
  pose proof (pow2_pos s ltac:(lia)) as Hps.
  assert (Hlo : 2 ^ (dx + s - dy - 1) ≤ q).
  { rewrite Hq. apply Z.div_le_lower_bound; [lia|].
    transitivity (2 ^ dy * 2 ^ (dx + s - dy - 1)).
    - apply Z.mul_le_mono_nonneg_r; [apply Z.lt_le_incl, pow2_pos|]; lia.
    - rewrite <- pow2_split by lia.
      replace (dy + (dx + s - dy - 1)) with ((dx - 1) + s) by lia.
      rewrite pow2_split by lia. rewrite Hm'. nia. }
  assert (Hhi : q < 2 ^ (dx + s - dy + 1)).
  { rewrite Hq. apply Z.div_lt_upper_bound; [lia|].
    apply Z.lt_le_trans with (2 ^ (dy - 1) * 2 ^ (dx + s - dy + 1)).
    - rewrite <- pow2_split by lia.
      replace (dy - 1 + (dx + s - dy + 1)) with (dx + s) by lia.
      rewrite pow2_split by lia. rewrite Hm'. nia.
    - apply Z.mul_le_mono_nonneg_r; [apply Z.lt_le_incl, pow2_pos|]; lia. }
  pose proof (pow2_pos (dx + s - dy - 1) ltac:(lia)) as Hpq.
  destruct q as [|q|q]; try lia.
  exists q, e'. eexists. split; [done|].
  pose proof (digits_between q (dx + s - dy - 1) (dx + s - dy + 1) ltac:(lia)
                ltac:(lia)) as Hd.
  unfold MX, MY. split; [|unfold e', MX, MY; lia]. lia.
Qed.

Lemma f64_div_pos x y lx hx ly hy :
  pos_finite x lx hx → pos_finite y ly hy →
  -1000 ≤ lx - hy → hx - ly ≤ 800 →
  pos_finite (f64_div x y) (lx - hy) (hx - ly + 2).
Proof.
  intros (mx & ex & -> & Hx) (my & ey & -> & Hy) Hlo Hhi.
  unfold f64_div, SFdiv. cbn [xorb].
  destruct (SFdiv_core_binary_mag mx my ex ey ltac:(lia)) as (q & e' & l & -> & Hq & He').
  pose proof (binary_round_aux_mag q e' l) as Hb. cbn zeta in Hb.
  specialize (Hb ltac:(lia) ltac:(lia) ltac:(lia)).
  eapply pos_finite_weaken; [exact Hb|lia|lia].
Qed.

(** ** Conversion to an integer *)

Lemma f64_trunc_pos x lo hi :
  pos_finite x lo hi →
  ∃ z, f64_trunc x = Some z ∧ 0 ≤ z < 2 ^ Z.max 0 hi ∧ (1 ≤ lo → 2 ^ (lo - 1) ≤ z).
Proof.
  intros (m & e & -> & Hm). simpl. eexists. split; [done|].
  pose proof (digits_bounds m) as Hb. set (d := Z.pos (digits2_pos m)) in *.
  assert (Hd : 0 < d) by (unfold d; lia).
  destruct (Z.le_gt_cases 0 e) as [He|He].
  - rewrite Z.shiftl_mul_pow2 by done. pose proof (pow2_pos e He).
    split; [split; [nia|]|].
    + apply Z.lt_le_trans with (2 ^ (d + e)).
      * rewrite pow2_split by lia. nia.
      * apply Z.pow_le_mono_r; lia.
    + intros Hlo. transitivity (2 ^ (d - 1 + e)).
      * apply Z.pow_le_mono_r; lia.
      * rewrite pow2_split by lia. nia.
  - rewrite Z.shiftl_div_pow2 by lia. pose proof (pow2_pos (- e) ltac:(lia)).
    split; [split; [apply Z.div_pos; lia|]|].
    + apply Z.div_lt_upper_bound; [done|].
      destruct (Z.le_gt_cases 0 (d + e)) as [Hde|Hde].
      * apply Z.lt_le_trans with (2 ^ (- e) * 2 ^ (d + e)).
        -- rewrite <- pow2_split by lia.
           replace (- e + (d + e)) with d by lia. lia.
        -- apply Z.mul_le_mono_nonneg_l; [lia|]. apply Z.pow_le_mono_r; lia.
      * pose proof (pow2_pos (Z.max 0 hi) ltac:(lia)).
        assert (2 ^ d ≤ 2 ^ (- e)) by (apply Z.pow_le_mono_r; lia). nia.
    + intros Hlo. apply Z.div_le_lower_bound; [done|].
      transitivity (2 ^ (d - 1)); [|lia].
      rewrite <- pow2_split by lia. apply Z.pow_le_mono_r; lia.
Qed.

Lemma f64_to_int_pos x lo hi :
  pos_finite x lo hi → hi ≤ 63 →
  f64_trunc x = Some (f64_to_int x) ∧ 0 ≤ f64_to_int x < 2 ^ Z.max 0 hi.
Proof.
  intros Hx Hhi. destruct (f64_trunc_pos x lo hi Hx) as (z & Ez & Hz & _).
  unfold f64_to_int. rewrite Ez.
  assert (2 ^ Z.max 0 hi ≤ 2 ^ 63) by (apply Z.pow_le_mono_r; lia).
  assert (Hin : (- 2 ^ 63 <=? z) && (z <? 2 ^ 63) = true).
  { apply andb_true_iff. split; [apply Z.leb_le|apply Z.ltb_lt]; lia. }
  by rewrite Hin.
Qed.

(** Whatever the magnitude, the conversion of a positive number gives a
    natural number or the one value that stands for "does not fit". *)
Lemma f64_to_int_pos_cases x lo hi :
  pos_finite x lo hi →
  f64_to_int x = - 2 ^ 63
  ∨ (f64_trunc x = Some (f64_to_int x) ∧ 0 ≤ f64_to_int x < 2 ^ 63).
Proof.
  intros Hx. destruct (f64_trunc_pos x lo hi Hx) as (z & Ez & Hz & _).
  unfold f64_to_int. rewrite Ez.
  destruct ((- 2 ^ 63 <=? z) && (z <? 2 ^ 63)) eqn:Hin; [|by left].
  right. apply andb_true_iff in Hin as [_ Hlt]. apply Z.ltb_lt in Hlt.
  split; [done|lia].
Qed.

(** ** The numbers [ResampleMono] computes *)

Lemma pos_finite_exact x lo hi :
  pos_finite x lo hi → ∃ M, lo ≤ M ≤ hi ∧ pos_finite x M M.
Proof.
  intros (m & e & -> & Hm). exists (Z.pos (digits2_pos m) + e).
  split; [done|]. exists m, e. split; [done|lia].
Qed.

Lemma f64_of_int_range (n k : Z) :
  0 < n < 2 ^ k → 0 ≤ k ≤ 800 → pos_finite (f64_of_int n) 1 (k + 1).
Proof.
  intros [Hn Hk] Hk'.
  assert (n < 2 ^ 800).
  { apply Z.lt_le_trans with (2 ^ k); [done|]. apply Z.pow_le_mono_r; lia. }
  destruct (f64_of_int_pos n) as (p & -> & Hp); [done..|].
  pose proof (digits_between p 0 k ltac:(lia) ltac:(lia)).
  eapply pos_finite_weaken; [exact Hp|lia|lia].
Qed.

Lemma ratioOf_pos inputRate outputRate :
  0 < inputRate < 2 ^ 63 → 0 < outputRate < 2 ^ 63 →
  ∃ M, -63 ≤ M ≤ 65 ∧ pos_finite (ratioOf inputRate outputRate) M M.
Proof.
  intros Hi Ho. apply pos_finite_exact. unfold ratioOf.
  pose proof (f64_of_int_range inputRate 63 Hi ltac:(lia)) as H1.
  pose proof (f64_of_int_range outputRate 63 Ho ltac:(lia)) as H2.
  pose proof (f64_div_pos _ _ _ _ _ _ H2 H1 ltac:(lia) ltac:(lia)) as H3.
  eapply pos_finite_weaken; [exact H3|lia|lia].
Qed.

Lemma outputSamples_zero inputRate outputRate :
  0 < inputRate < 2 ^ 63 → 0 < outputRate < 2 ^ 63 →
  outputSamplesOf 0 inputRate outputRate = 0.
Proof.
  intros Hi Ho. destruct (ratioOf_pos _ _ Hi Ho) as (M & _ & HR).
  unfold outputSamplesOf.
  rewrite f64_of_int_0, (f64_mul_zero_l _ _ _ HR). done.
Qed.

Lemma outputSamples_cases n inputRate outputRate :
  0 ≤ n < 2 ^ 57 → 0 < inputRate < 2 ^ 63 → 0 < outputRate < 2 ^ 63 →
  outputSamplesOf n inputRate outputRate = - 2 ^ 63
  ∨ 0 ≤ outputSamplesOf n inputRate outputRate < 2 ^ 63.
Proof.
  intros Hn Hi Ho.
  destruct (Z.eq_dec n 0) as [->|Hn0].
  { right. rewrite outputSamples_zero by done. lia. }
  destruct (ratioOf_pos _ _ Hi Ho) as (M & HM & HR).
  unfold outputSamplesOf.
  pose proof (f64_of_int_range n 57 ltac:(lia) ltac:(lia)) as HN.
  pose proof (f64_mul_pos _ _ _ _ _ _ HN HR ltac:(lia) ltac:(lia)) as HP.
  destruct (f64_to_int_pos_cases _ _ _ HP) as [?|[_ ?]]; [by left|by right].
Qed.

(** The source index of every output sample is a natural number below 2^62,
    and an output sample exists only if there is an input sample. *)
Lemma srcIdx_bounds n inputRate outputRate i :
  0 ≤ n < 2 ^ 57 → 0 < inputRate < 2 ^ 63 → 0 < outputRate < 2 ^ 63 →
  0 ≤ i < outputSamplesOf n inputRate outputRate →
  0 < n
  ∧ 0 ≤ f64_to_int (f64_div (f64_of_int i) (ratioOf inputRate outputRate)) < 2 ^ 62.
Proof.
  intros Hn Hi Ho Hlt.
  destruct (Z.eq_dec n 0) as [->|Hn0].
  { rewrite outputSamples_zero in Hlt by done. lia. }
  split; [lia|].
  destruct (ratioOf_pos _ _ Hi Ho) as (M & HM & HR).
  unfold outputSamplesOf in Hlt.
  set (R := ratioOf inputRate outputRate) in *.
  pose proof (f64_of_int_range n 57 ltac:(lia) ltac:(lia)) as HN.
  pose proof (f64_mul_pos _ _ _ _ _ _ HN HR ltac:(lia) ltac:(lia)) as HP.
  set (P := f64_mul (f64_of_int n) R) in *.
  destruct (f64_to_int_pos_cases _ _ _ HP) as [Hbad|[Htr Hos]]; [lia|].
  destruct (f64_trunc_pos _ _ _ HP) as (z & Ez & Hz & _).
  rewrite Htr in Ez. injection Ez as Ez. rewrite <- Ez in Hz.
  destruct (Z.eq_dec i 0) as [->|Hi0].
  { rewrite f64_of_int_0, (f64_div_zero_l _ _ _ HR).
    change (f64_to_int (S754_zero false)) with 0. lia. }
  assert (Hhp : 0 < 57 + 1 + M + 1).
  { destruct (Z.le_gt_cases (57 + 1 + M + 1) 0) as [Hle|]; [|done].
    rewrite Z.max_l in Hz by lia. lia. }
  rewrite Z.max_r in Hz by lia.
  destruct (f64_of_int_pos i) as (p & Ep & HI); [lia| |].
  { apply Z.lt_le_trans with (2 ^ 63); [lia|]. apply Z.pow_le_mono_r; lia. }
  assert (Hdi : 1 ≤ Z.pos (digits2_pos p) ≤ 57 + 1 + M + 1).
  { apply (digits_between p 0); [lia|]. lia. }
  pose proof (f64_div_pos _ _ _ _ _ _ HI HR ltac:(lia) ltac:(lia)) as HS.
  destruct (f64_to_int_pos _ _ _ HS ltac:(lia)) as [_ Hsrc].
  split; [lia|].
  apply Z.lt_le_trans with (2 ^ Z.max 0 (Z.pos (digits2_pos p) + 1 - M + 2)); [lia|].
  apply Z.pow_le_mono_r; lia.
Qed.

End Float64Spec.

(* ===================================================================== *)
(** * Properties of the audio send pipeline *)
(* ===================================================================== *)

Module AudioSpec.

Import Bytes BytesSpec Audio Float64Spec.
Local Open Scope Z_scope.

(** ** Slices and loops *)

Lemma bind_Ok {A B} (a : A) (k : A → result B) : (x ← Ok a; k x) = k a.
Proof. done. Qed.

Lemma make_ok {A} (zero : A) n :
  0 ≤ n → make zero n = Ok (replicate (Z.to_nat n) zero).
Proof. intros Hn. unfold make. by rewrite (proj2 (Z.ltb_ge n 0)). Qed.

Lemma make_neg {A} (zero : A) n :
  n < 0 → make zero n = Panicked MakeSliceLenOutOfRange.
Proof. intros Hn. unfold make. by rewrite (proj2 (Z.ltb_lt n 0)). Qed.

Lemma index_ok {A} (b : list A) i x :
  0 ≤ i → b !! Z.to_nat i = Some x → index b i = Ok x.
Proof. intros Hi Hl. unfold index. by rewrite (proj2 (Z.ltb_ge i 0)), Hl. Qed.

Lemma store_ok {A} (b : list A) i v :
  0 ≤ i < len b → store b i v = Ok (<[Z.to_nat i := v]> b).
Proof.
  intros Hi. unfold store.
  rewrite (proj2 (Z.ltb_ge i 0)), (proj2 (Z.leb_gt (len b) i)) by lia. done.
Qed.

Lemma sliceFrom_ok {A} (b : list A) lo :
  0 ≤ lo ≤ len b → sliceFrom b lo = Ok (drop (Z.to_nat lo) b).
Proof.
  intros Hlo. unfold sliceFrom.
  rewrite (proj2 (Z.ltb_ge lo 0)), (proj2 (Z.ltb_ge (len b) lo)) by lia. done.
Qed.

Lemma slice_ok {A} (b : list A) lo hi :
  0 ≤ lo ≤ hi → hi ≤ len b →
  slice b lo hi = Ok (take (Z.to_nat (hi - lo)) (drop (Z.to_nat lo) b)).
Proof.
  intros Hlo Hhi. unfold slice.
  rewrite (proj2 (Z.ltb_ge lo 0)), (proj2 (Z.ltb_ge hi lo)),
    (proj2 (Z.ltb_ge (len b) hi)) by lia. done.
Qed.

Lemma lookup_lt_len {A} (b : list A) (i : Z) :
  0 ≤ i < len b → ∃ x, b !! Z.to_nat i = Some x.
Proof.
  intros Hi. apply lookup_lt_is_Some. unfold len in Hi. lia.
Qed.

Lemma Uint16_at_ok (b : list byte) off :
  0 ≤ off → off + 2 ≤ len b →
  ∃ b0 b1, b !! Z.to_nat off = Some b0 ∧ b !! Z.to_nat (off + 1) = Some b1
           ∧ Uint16_at b off = Ok (Z.lor (byte_to_Z b0) (Z.shiftl (byte_to_Z b1) 8)).
Proof.
  intros Hoff Hlen.
  destruct (lookup_lt_len b off ltac:(lia)) as [b0 H0].
  destruct (lookup_lt_len b (off + 1) ltac:(lia)) as [b1 H1].
  exists b0, b1. split; [done|]. split; [done|].
  unfold Uint16_at. rewrite sliceFrom_ok by lia. rewrite bind_Ok.
  rewrite (index_ok _ 1 b1); [|lia|].
  2:{ rewrite lookup_drop. rewrite <- H1. f_equal. lia. }
  rewrite bind_Ok.
  rewrite (index_ok _ 0 b0); [|lia|].
  2:{ rewrite lookup_drop. rewrite <- H0. f_equal. lia. }
  done.
Qed.

Lemma PutUint16_at_ok (b : list byte) off v :
  0 ≤ off → off + 2 ≤ len b →
  ∃ b', PutUint16_at b off v = Ok b' ∧ length b' = length b.
Proof.
  intros Hoff Hlen.
  destruct (lookup_lt_len b (off + 1) ltac:(lia)) as [b1 H1].
  unfold PutUint16_at. rewrite sliceFrom_ok by lia. rewrite bind_Ok.
  rewrite (index_ok _ 1 b1); [|lia|].
  2:{ rewrite lookup_drop. rewrite <- H1. f_equal. lia. }
  rewrite bind_Ok. rewrite store_ok by lia. rewrite bind_Ok.
  rewrite store_ok by (unfold len in *; rewrite length_insert; lia).
  eexists. split; [done|]. by rewrite !length_insert.
Qed.

(** The invariant rule for [forLoop]. *)
Lemma forLoop_inv {St} (I : Z → St → Prop) (body : Z → St → result St) n : ∀ i s,
  I i s →
  (∀ j t, i ≤ j < i + Z.of_nat n → I j t → ∃ t', body j t = Ok t' ∧ I (j + 1) t') →
  ∃ s', forLoop n i body s = Ok s' ∧ I (i + Z.of_nat n) s'.
Proof.
  induction n as [|n IH]; intros i s Hi Hstep; simpl.
  - exists s. split; [done|]. by rewrite Z.add_0_r.
  - destruct (Hstep i s ltac:(lia) Hi) as (t & -> & Ht). rewrite bind_Ok.
    destruct (IH (i + 1) t Ht) as (s' & -> & Hs').
    { intros j u Hj. apply Hstep. lia. }
    exists s'. split; [done|].
    by replace (i + Z.of_nat (S n)) with (i + 1 + Z.of_nat n) by lia.
Qed.

(** ** [MonoToStereo] *)

Lemma list_ind2 {A} (P : list A → Prop) :
  P [] → (∀ x, P [x]) → (∀ x y l, P l → P (x :: y :: l)) → ∀ l, P l.
Proof.
  intros H0 H1 H2. fix IH 1. intros [|x [|y l]]; [done|done|].
  apply H2, IH.
Qed.

Lemma length_duplicateSamples mono :
  length (duplicateSamples mono) = (4 * (length mono / 2))%nat.
Proof.
  induction mono as [|x|x y l IH] using list_ind2; [done|done|].
  assert (E : (length (x :: y :: l) / 2 = S (length l / 2))%nat).
  { cbn [length]. change (S (S (length l))) with (1 * 2 + length l)%nat.
    rewrite Nat.div_add_l by lia. lia. }
  rewrite E. cbn [duplicateSamples length]. rewrite IH. lia.
Qed.

Lemma lookup_duplicateSamples mono : ∀ (j r : nat),
  (2 * j + 1 < length mono)%nat → (r < 4)%nat →
  duplicateSamples mono !! (4 * j + r)%nat = mono !! (2 * j + r mod 2)%nat.
Proof.
  induction mono as [|x|x y l IH] using list_ind2; intros j r Hj Hr;
    [simpl in Hj; lia|simpl in Hj; lia|].
  destruct j as [|j].
  - destruct r as [|[|[|[|r]]]]; try lia; done.
  - replace (4 * S j + r)%nat with (S (S (S (S (4 * j + r))))) by lia.
    replace (2 * S j + r mod 2)%nat with (S (S (2 * j + r mod 2))) by lia.
    cbn [duplicateSamples lookup list_lookup]. simpl. apply IH; [|done].
    simpl in Hj. lia.
Qed.

Lemma monoToStereoStep_ok mono (j : nat) (stereo : list byte) :
  (2 * j + 1 < length mono)%nat → (4 * j + 3 < length stereo)%nat →
  ∃ s0 s1,
    mono !! (2 * j)%nat = Some s0 ∧ mono !! (2 * j + 1)%nat = Some s1
    ∧ monoToStereoStep mono (Z.of_nat j) stereo =
        Ok (<[(4 * j + 3)%nat := s1]> (<[(4 * j + 2)%nat := s0]>
           (<[(4 * j + 1)%nat := s1]> (<[(4 * j)%nat := s0]> stereo)))).
Proof.
  intros Hm Hs.
  destruct (lookup_lt_is_Some_2 mono (2 * j)%nat ltac:(lia)) as [s0 H0].
  destruct (lookup_lt_is_Some_2 mono (2 * j + 1)%nat ltac:(lia)) as [s1 H1].
  exists s0, s1. split; [done|]. split; [done|].
  unfold monoToStereoStep.
  rewrite slice_ok by (unfold len; lia). rewrite bind_Ok.
  replace (Z.to_nat (Z.of_nat j * 2 + 2 - Z.of_nat j * 2)) with 2%nat by lia.
  replace (Z.to_nat (Z.of_nat j * 2)) with (2 * j)%nat by lia.
  set (sample := take 2 (drop (2 * j) mono)).
  assert (Hs0 : index sample 0 = Ok s0).
  { apply index_ok; [lia|]. unfold sample.
    rewrite lookup_take_lt by (simpl; lia). rewrite lookup_drop.
    rewrite <- H0. f_equal. simpl. lia. }
  assert (Hs1 : index sample 1 = Ok s1).
  { apply index_ok; [lia|]. unfold sample.
    rewrite lookup_take_lt by (simpl; lia). rewrite lookup_drop.
    rewrite <- H1. f_equal. }
  rewrite Hs0, bind_Ok.
  rewrite store_ok by (unfold len; lia). rewrite bind_Ok.
  rewrite Hs1, bind_Ok.
  rewrite store_ok by (unfold len; rewrite !length_insert; lia). rewrite bind_Ok.
  rewrite bind_Ok.
  rewrite store_ok by (unfold len; rewrite !length_insert; lia). rewrite bind_Ok.
  rewrite bind_Ok.
  rewrite store_ok by (unfold len; rewrite !length_insert; lia).
  do 5 f_equal; lia.
Qed.

(** [MonoToStereo] never panics and gives every sample twice. *)
Lemma MonoToStereo_eq mono : MonoToStereo mono = Ok (duplicateSamples mono).
Proof.
  unfold MonoToStereo.
  set (n := (length mono / 2)%nat).
  assert (Hn : len mono / 2 = Z.of_nat n).
  { unfold len, n. by rewrite Nat2Z.inj_div. }
  assert (Hn2 : (2 * n ≤ length mono)%nat).
  { unfold n. pose proof (Nat.div_mod (length mono) 2 ltac:(lia)). lia. }
  rewrite Hn, make_ok by lia. rewrite bind_Ok. rewrite Nat2Z.id.
  set (dup := duplicateSamples mono).
  assert (Hdup : length dup = (4 * n)%nat) by apply length_duplicateSamples.
  destruct (forLoop_inv
    (λ j st, length st = (4 * n)%nat
             ∧ ∀ k : nat, Z.of_nat k < 4 * j → st !! k = dup !! k)
    (monoToStereoStep mono) n 0
    (replicate (Z.to_nat (Z.of_nat n * 4)) Byte.x00)) as (st & -> & Hlen & Hst).
  - split; [rewrite length_replicate; lia|]. intros k Hk. lia.
  - intros j t Hj [Hlen Ht].
    destruct (monoToStereoStep_ok mono (Z.to_nat j) t ltac:(lia) ltac:(lia))
      as (s0 & s1 & H0 & H1 & Hstep).
    rewrite Z2Nat.id in Hstep by lia. rewrite Hstep. eexists. split; [done|].
    split; [by rewrite !length_insert|].
    set (jn := Z.to_nat j) in *.
    intros k Hk.
    destruct (decide (k < 4 * jn)%nat) as [Hlt|Hge].
    + rewrite !list_lookup_insert_ne by lia. apply Ht. lia.
    + assert (Hr : ∃ r, (r < 4)%nat ∧ k = (4 * jn + r)%nat).
      { exists (k - 4 * jn)%nat. lia. }
      destruct Hr as (r & Hr & ->).
      unfold dup. rewrite lookup_duplicateSamples by lia.
      destruct r as [|[|[|[|r]]]]; try lia.
      * rewrite !list_lookup_insert_ne by lia.
        replace (4 * jn + 0)%nat with (4 * jn)%nat by lia.
        rewrite list_lookup_insert_eq by lia.
        rewrite <- H0. f_equal. simpl. lia.
      * rewrite !list_lookup_insert_ne by lia.
        rewrite list_lookup_insert_eq by (rewrite !length_insert; lia).
        rewrite <- H1. f_equal.
      * rewrite !list_lookup_insert_ne by lia.
        rewrite list_lookup_insert_eq by (rewrite !length_insert; lia).
        rewrite <- H0. f_equal. simpl. lia.
      * rewrite list_lookup_insert_eq by (rewrite !length_insert; lia).
        rewrite <- H1. f_equal.
  - f_equal. apply list_eq. intros k.
    destruct (decide (k < 4 * n)%nat) as [Hlt|Hge].
    + apply Hst. lia.
    + rewrite !lookup_ge_None_2 by lia. done.
Qed.

(** ** Bytes of integers *)

Lemma byte_of_Z_mod z : byte_of_Z (z mod 256) = byte_of_Z z.
Proof. unfold byte_of_Z. by rewrite Z.mod_mod by lia. Qed.

Lemma byte_of_Z_eq z b : z mod 256 = byte_to_Z b → byte_of_Z z = b.
Proof.
  intros Hz. rewrite <- byte_of_Z_mod, Hz. apply byte_of_to_Z.
Qed.

Example MonoToStereo_two_samples :
  MonoToStereo [Byte.x01; Byte.x02; Byte.x03; Byte.x04]
  = Ok [Byte.x01; Byte.x02; Byte.x01; Byte.x02;
        Byte.x03; Byte.x04; Byte.x03; Byte.x04].
Proof. reflexivity. Qed.

(** An odd last byte is dropped by MonoToStereo, so the round trip loses
    it. *)
Example MonoToStereo_odd_length :
  MonoToStereo [Byte.x01; Byte.x02; Byte.x03]
  = Ok [Byte.x01; Byte.x02; Byte.x01; Byte.x02].
Proof. reflexivity. Qed.

(** ** [ResampleMono] *)

Lemma wrap_int64_small z : - 2 ^ 63 ≤ z < 2 ^ 63 → wrap_int64 z = z.
Proof.
  intros Hz. unfold wrap_int64.
  change (2 ^ 64) with (2 ^ 63 + 2 ^ 63). rewrite Z.mod_small; lia.
Qed.

(** Both indices are clamped to the last input sample. *)
Lemma clampedIndices_in_range n ratio i :
  0 < n < 2 ^ 57 →
  0 ≤ f64_to_int (f64_div (f64_of_int i) ratio) < 2 ^ 62 →
  0 ≤ (clampedIndices n ratio i).1 < n ∧ 0 ≤ (clampedIndices n ratio i).2 < n.
Proof.
  intros Hn Hsrc. unfold clampedIndices.
  set (srcIdx := f64_to_int (f64_div (f64_of_int i) ratio)) in *.
  assert (H62 : 2 ^ 62 + 2 ^ 62 = 2 ^ 63) by done.
  rewrite (wrap_int64_small (srcIdx + 1)) by lia. cbn [fst snd].
  destruct (Z.leb_spec n srcIdx), (Z.leb_spec n (srcIdx + 1)); lia.
Qed.

(** Every read and write of one iteration is in bounds. *)
Lemma resampleStep_ok input n ratio i (output : list byte) :
  0 < n < 2 ^ 57 → 2 * n ≤ len input →
  0 ≤ f64_to_int (f64_div (f64_of_int i) ratio) < 2 ^ 62 →
  0 ≤ i < 2 ^ 62 → i * 2 + 2 ≤ len output →
  ∃ output', resampleStep input n ratio i output = Ok output'
             ∧ length output' = length output.
Proof.
  intros Hn Hin Hsrc Hi Hout. unfold resampleStep.
  pose proof (clampedIndices_in_range n ratio i Hn Hsrc) as [H1 H2].
  destruct (clampedIndices n ratio i) as [idx1 idx2]. cbn [fst snd] in H1, H2.
  assert (H62 : 2 ^ 62 + 2 ^ 62 = 2 ^ 63) by done.
  assert (H57 : 2 ^ 57 < 2 ^ 62) by done.
  rewrite (wrap_int64_small (idx1 * 2)), (wrap_int64_small (idx2 * 2)),
    (wrap_int64_small (i * 2)) by lia.
  destruct (Uint16_at_ok input (idx1 * 2) ltac:(lia) ltac:(lia)) as (? & ? & _ & _ & ->).
  rewrite bind_Ok.
  destruct (Uint16_at_ok input (idx2 * 2) ltac:(lia) ltac:(lia)) as (? & ? & _ & _ & ->).
  rewrite bind_Ok.
  apply PutUint16_at_ok; lia.
Qed.

Lemma ResampleMono_same_rate input rate : ResampleMono input rate rate = Ok input.
Proof. unfold ResampleMono. by rewrite decide_True. Qed.

Lemma ResampleMono_cases input inputRate outputRate :
  inputRate ≠ outputRate →
  0 < inputRate < 2 ^ 63 → 0 < outputRate < 2 ^ 63 → len input < 2 ^ 58 →
  let outputSamples := outputSamplesOf (len input / 2) inputRate outputRate in
  (outputSamples = - 2 ^ 63 ∧ ResampleMono input inputRate outputRate = Ok [])
  ∨ (0 ≤ outputSamples < 2 ^ 62
     ∧ ∃ output, ResampleMono input inputRate outputRate = Ok output
                 ∧ len output = 2 * outputSamples)
  ∨ (2 ^ 62 ≤ outputSamples < 2 ^ 63
     ∧ ResampleMono input inputRate outputRate = Panicked MakeSliceLenOutOfRange).
Proof.
  intros Hne Hi Ho Hlen. cbn zeta.
  set (n := len input / 2).
  set (os := outputSamplesOf n inputRate outputRate).
  assert (Hn : 0 ≤ n < 2 ^ 57 ∧ 2 * n ≤ len input).
  { unfold n. change (2 ^ 58) with (2 * 2 ^ 57) in Hlen.
    assert (0 ≤ len input) by (unfold len; lia).
    div_mod_lia. }
  unfold ResampleMono. rewrite decide_False by done. fold n. fold os.
  assert (H62 : 2 ^ 62 + 2 ^ 62 = 2 ^ 63) by done.
  assert (H64 : 2 ^ 63 + 2 ^ 63 = 2 ^ 64) by done.
  pose proof (outputSamples_cases n inputRate outputRate ltac:(lia) Hi Ho) as Hc.
  fold os in Hc. destruct Hc as [Hbad|Hos].
  - left. split; [done|]. rewrite Hbad. done.
  - right. destruct (Z.lt_ge_cases os (2 ^ 62)) as [Hlt|Hge].
    + left. split; [lia|].
      rewrite wrap_int64_small, make_ok by lia. rewrite bind_Ok.
      destruct (forLoop_inv (λ _ out, len out = 2 * os)
        (resampleStep input n (ratioOf inputRate outputRate)) (Z.to_nat os) 0
        (replicate (Z.to_nat (os * 2)) Byte.x00)) as (out & -> & Hout).
      * unfold len. rewrite length_replicate. lia.
      * intros j t Hj Ht.
        destruct (srcIdx_bounds n inputRate outputRate j ltac:(lia) Hi Ho) as [Hn0 Hsrc].
        { fold os. lia. }
        destruct (resampleStep_ok input n (ratioOf inputRate outputRate) j t)
          as (t' & -> & Hlen'); [lia|lia|done|lia|lia|].
        exists t'. split; [done|]. unfold len in *. lia.
      * by exists out.
    + right. split; [lia|].
      unfold wrap_int64. rewrite <- H64.
      replace (os * 2 + 2 ^ 63) with (os * 2 - 2 ^ 63 + 1 * (2 ^ 63 + 2 ^ 63)) by lia.
      rewrite Z.mod_add, Z.mod_small by lia.
      rewrite make_neg by lia. done.
Qed.

(** C9 (as amended).  For rates that fit Go's int and inputs of fewer than
    2^58 bytes, ResampleMono terminates and no read or write of it is out of
    bounds: it returns, or it panics in [make] because twice the output
    sample count is no valid length.  Wherever an output sample exists,
    both interpolation indices are clamped to existing input samples.  With
    equal rates the input is returned as it is; with different rates an
    input shorter than one sample gives the empty output. *)
Theorem C9_ResampleMono_stays_in_bounds
    (input : list byte) (inputRate outputRate : Z) :
  0 < inputRate < 2 ^ 63 → 0 < outputRate < 2 ^ 63 → len input < 2 ^ 58 →
  let inputSamples := len input / 2 in
  let outputSamples := outputSamplesOf inputSamples inputRate outputRate in
  ((∃ output, ResampleMono input inputRate outputRate = Ok output)
   ∨ ResampleMono input inputRate outputRate = Panicked MakeSliceLenOutOfRange)
  ∧ (inputRate ≠ outputRate → 0 ≤ outputSamples < 2 ^ 62 →
     ∃ output, ResampleMono input inputRate outputRate = Ok output
               ∧ len output = 2 * outputSamples)
  ∧ (∀ i, 0 ≤ i < outputSamples →
       let idx := clampedIndices inputSamples (ratioOf inputRate outputRate) i in
       0 ≤ idx.1 ≤ inputSamples - 1 ∧ 0 ≤ idx.2 ≤ inputSamples - 1)
  ∧ (inputRate = outputRate → ResampleMono input inputRate outputRate = Ok input)
  ∧ (inputRate ≠ outputRate → len input < 2 →
     ResampleMono input inputRate outputRate = Ok []).
Proof.
  intros Hi Ho Hlen. cbn zeta.
  set (n := len input / 2).
  set (os := outputSamplesOf n inputRate outputRate).
  assert (Hn : 0 ≤ n < 2 ^ 57).
  { unfold n. change (2 ^ 58) with (2 * 2 ^ 57) in Hlen.
    assert (0 ≤ len input) by (unfold len; lia).
    div_mod_lia. }
  pose proof (λ Hne, ResampleMono_cases input inputRate outputRate Hne Hi Ho Hlen)
    as Hcases.
  cbn zeta in Hcases. fold n in Hcases. fold os in Hcases.
  split; [|split; [|split; [|split]]].
  - destruct (decide (inputRate = outputRate)) as [->|Hne].
    + left. exists input. apply ResampleMono_same_rate.
    + destruct (Hcases Hne) as [[_ ->]|[[_ (out & -> & _)]|[_ ->]]]; eauto.
  - intros Hne Hos.
    assert (H62 : 2 ^ 62 < 2 ^ 63) by done.
    destruct (Hcases Hne) as [[? _]|[[_ ?]|[? _]]]; [lia|done|lia].
  - intros i Hlt.
    destruct (srcIdx_bounds n inputRate outputRate i Hn Hi Ho Hlt) as [Hn0 Hsrc].
    pose proof (clampedIndices_in_range n (ratioOf inputRate outputRate) i
                  ltac:(lia) Hsrc). lia.
  - intros ->. apply ResampleMono_same_rate.
  - intros Hne Hshort.
    assert (Hn0 : n = 0).
    { unfold n. assert (0 ≤ len input) by (unfold len; lia).
      div_mod_lia. }
    assert (Hos : os = 0) by (unfold os; rewrite Hn0; by apply outputSamples_zero).
    destruct (Hcases Hne) as [[? _]|[[_ (out & -> & Hout)]|[? _]]]; [lia| |lia].
    f_equal. apply nil_length_inv. unfold len in Hout. lia.
Qed.

Lemma C9_witness :
  ((∃ output, ResampleMono sixSamples 22050 48000 = Ok output)
   ∨ ResampleMono sixSamples 22050 48000 = Panicked MakeSliceLenOutOfRange)
  ∧ (22050 ≠ 48000 → 0 ≤ outputSamplesOf (len sixSamples / 2) 22050 48000 < 2 ^ 62 →
     ∃ output, ResampleMono sixSamples 22050 48000 = Ok output
               ∧ len output = 2 * outputSamplesOf (len sixSamples / 2) 22050 48000)
  ∧ (∀ i, 0 ≤ i < outputSamplesOf (len sixSamples / 2) 22050 48000 →
       let idx := clampedIndices (len sixSamples / 2) (ratioOf 22050 48000) i in
       0 ≤ idx.1 ≤ len sixSamples / 2 - 1 ∧ 0 ≤ idx.2 ≤ len sixSamples / 2 - 1)
  ∧ (22050 = 48000 → ResampleMono sixSamples 22050 48000 = Ok sixSamples)
  ∧ (22050 ≠ 48000 → len sixSamples < 2 →
     ResampleMono sixSamples 22050 48000 = Ok []).
Proof.
  apply (C9_ResampleMono_stays_in_bounds sixSamples 22050 48000).
  - lia.
  - lia.
  - vm_compute. reflexivity.
Defined.

(** Against C9 as stated: with equal rates a one-byte input, which is
    shorter than one sample, comes back as it is, not as the empty output. *)
Lemma C9_counterexample :
  len [Byte.x07] < 2
  ∧ ResampleMono [Byte.x07] 48000 48000 = Ok [Byte.x07]
  ∧ ResampleMono [Byte.x07] 48000 48000 ≠ Ok [].
Proof. split; [done|]. split; [done|]. discriminate. Qed.

Example ResampleMono_22050_to_48000 :
  ResampleMono sixSamples 22050 48000
  = Ok (byte_of_Z <$>
          [0; 1; 117; 1; 235; 1; 96; 2; 214; 2; 27; 2; 186; 0; 102; 228; 154;
           169; 52; 145; 1; 204; 1; 0; 1; 0]).
Proof. vm_compute. reflexivity. Qed.

Example ResampleMono_short_input :
  ResampleMono [] 22050 48000 = Ok [] ∧ ResampleMono [Byte.x01] 22050 48000 = Ok [].
Proof. vm_compute. done. Qed.

(** With an output rate of 2^62 one input sample asks for 2^62 output
    samples, and [make] panics on the doubled count. *)
Example ResampleMono_huge_rate :
  ResampleMono [Byte.x01; Byte.x02] 1 (2 ^ 62) = Panicked MakeSliceLenOutOfRange.
Proof. vm_compute. reflexivity. Qed.

(** ** [OpusEncoder] and the frame loop *)

Lemma frameBytes_eq : frameBytes = 3840.
Proof. done. Qed.

Lemma len_app {A} (l k : list A) : len (l ++ k) = len l + len k.
Proof. unfold len. rewrite length_app. lia. Qed.

Lemma len_nonneg {A} (l : list A) : 0 ≤ len l.
Proof. unfold len. lia. Qed.

Lemma len_duplicateSamples mono : len (duplicateSamples mono) = 4 * (len mono / 2).
Proof.
  unfold len. rewrite length_duplicateSamples.
  rewrite Nat2Z.inj_mul, Nat2Z.inj_div. done.
Qed.

Section PipelineSpec.
Context `{Opus}.

(** [EncodeBytes] reads every sample in bounds and hands libopus
    [len(pcmBytes)/2] samples. *)
Lemma EncodeBytes_ok (pcmBytes : list byte) (e : OpusEncoder) :
  ∃ pcm, EncodeBytes pcmBytes e = Ok (Encode pcm e) ∧ len pcm = len pcmBytes / 2.
Proof.
  unfold EncodeBytes. set (n := len pcmBytes / 2).
  pose proof (len_nonneg pcmBytes) as Hnn.
  assert (Hn : 0 ≤ n ∧ 2 * n ≤ len pcmBytes) by (unfold n; div_mod_lia).
  rewrite make_ok by lia. rewrite bind_Ok.
  destruct (forLoop_inv (λ _ pcm, len pcm = n)
    (λ i pcm, u ← Uint16_at pcmBytes (i * 2); store pcm i (wrap_int16 u))
    (Z.to_nat n) 0 (replicate (Z.to_nat n) 0)) as (pcm & -> & Hpcm).
  - unfold len. rewrite length_replicate. lia.
  - intros j t Hj Ht.
    destruct (Uint16_at_ok pcmBytes (j * 2) ltac:(lia) ltac:(lia)) as (? & ? & _ & _ & ->).
    rewrite bind_Ok, store_ok by lia. eexists. split; [done|].
    unfold len in *. by rewrite length_insert.
  - rewrite bind_Ok. by exists pcm.
Qed.

Lemma Encode_accepts pcm e :
  accepts_frames → len pcm = 1920 → ∃ e' opusData, Encode pcm e = (e', Some opusData).
Proof.
  intros Hacc Hlen. unfold Encode.
  destruct (Hacc (encoder e) pcm Hlen) as [o Ho].
  destruct (opus_Encode (encoder e) pcm) as [st r]. simpl in Ho. subst r. eauto.
Qed.

(** The frame loop empties the buffer of its whole frames, emits at most
    one packet per frame, and exactly one when libopus takes the frames. *)
Lemma drainFrames_spec fuel : ∀ p opusFrames,
  len (buffer p) / frameBytes ≤ Z.of_nat fuel →
  ∃ p' out,
    drainFrames fuel p opusFrames = Ok (p', opusFrames ++ out)
    ∧ buffer p' = drop (Z.to_nat (frameBytes * (len (buffer p) / frameBytes))) (buffer p)
    ∧ len out ≤ len (buffer p) / frameBytes
    ∧ (accepts_frames → len out = len (buffer p) / frameBytes).
Proof.
  rewrite frameBytes_eq.
  induction fuel as [|fuel IH]; intros p frames Hfuel;
    pose proof (len_nonneg (buffer p)) as Hnn.
  - assert (Hq : len (buffer p) / 3840 = 0) by (div_mod_lia).
    exists p, []. rewrite Hq, app_nil_r. simpl. repeat split; try done.
  - cbn [drainFrames]. rewrite frameBytes_eq.
    destruct (Z.leb_spec 3840 (len (buffer p))) as [Hge|Hlt].
    + set (frame := take (Z.to_nat 3840) (buffer p)).
      set (rest := drop (Z.to_nat 3840) (buffer p)).
      assert (Hframe : len frame = 3840).
      { unfold frame, len in *. rewrite length_take. lia. }
      assert (Hrest : len rest = len (buffer p) - 3840).
      { unfold rest, len in *. rewrite length_drop. lia. }
      assert (Hq : len rest / 3840 = len (buffer p) / 3840 - 1).
      { rewrite Hrest. div_mod_lia. }
      destruct (EncodeBytes_ok frame (pl_encoder p)) as (pcm & -> & Hpcm).
      rewrite bind_Ok.
      assert (Hpcm' : len pcm = 1920) by (rewrite Hpcm, Hframe; done).
      assert (Hdrop : drop (Z.to_nat (3840 * (len rest / 3840))) rest
                = drop (Z.to_nat (3840 * (len (buffer p) / 3840))) (buffer p)).
      { rewrite Hq. unfold rest. rewrite drop_drop. f_equal.
        assert (1 ≤ len (buffer p) / 3840) by (div_mod_lia). lia. }
      destruct (Encode pcm (pl_encoder p)) as [e' [opusData|]] eqn:Henc.
      * destruct (IH (mkAudioPipeline e' rest) (frames ++ [opusData]))
          as (p' & out & -> & Hbuf & Hle & Hacc); [cbn [buffer]; lia|].
        cbn [buffer] in *. exists p', (opusData :: out).
        split; [by rewrite <- app_assoc|]. split; [by rewrite Hbuf, Hdrop|].
        unfold len in *. cbn [length]. split; [lia|]. intros Ha. specialize (Hacc Ha). lia.
      * destruct (IH (mkAudioPipeline e' rest) frames)
          as (p' & out & -> & Hbuf & Hle & Hacc); [cbn [buffer]; lia|].
        cbn [buffer] in *. exists p', out.
        split; [done|]. split; [by rewrite Hbuf, Hdrop|].
        split; [lia|]. intros Ha.
        destruct (Encode_accepts pcm (pl_encoder p) Ha Hpcm') as (? & ? & Henc').
        congruence.
    + assert (Hq : len (buffer p) / 3840 = 0) by (div_mod_lia).
      exists p, []. rewrite Hq, app_nil_r. simpl. repeat split; try done.
Qed.

Lemma drainFrames_buffer_short fuel p opusFrames p' out :
  len (buffer p) / frameBytes ≤ Z.of_nat fuel →
  drainFrames fuel p opusFrames = Ok (p', out) →
  len (buffer p') = len (buffer p) mod frameBytes.
Proof.
  intros Hfuel Hd.
  destruct (drainFrames_spec fuel p opusFrames Hfuel) as (p1 & o1 & E & Hbuf & _).
  rewrite E in Hd. injection Hd as <- _. rewrite Hbuf.
  rewrite frameBytes_eq in *. pose proof (len_nonneg (buffer p)).
  unfold len in *. rewrite length_drop. div_mod_lia.
Qed.

(** The loop on a buffer of exactly one frame. *)
Lemma drainFrames_one_frame fuel p :
  len (buffer p) = frameBytes →
  ∃ pcm, len pcm = 1920 ∧
    drainFrames (S fuel) p [] =
      Ok (mkAudioPipeline (Encode pcm (pl_encoder p)).1 [],
          match (Encode pcm (pl_encoder p)).2 with
          | Some opusData => [opusData]
          | None => []
          end)
    ∧ EncodeBytes (buffer p) (pl_encoder p) = Ok (Encode pcm (pl_encoder p)).
Proof.
  intros Hlen. rewrite frameBytes_eq in Hlen.
  destruct (EncodeBytes_ok (buffer p) (pl_encoder p)) as (pcm & Henc & Hpcm).
  exists pcm. split; [rewrite Hpcm, Hlen; done|]. split; [|done].
  cbn [drainFrames]. rewrite frameBytes_eq, Hlen. cbn [Z.leb Z.compare Pos.compare Pos.compare_cont].
  rewrite take_ge, drop_ge by (unfold len in Hlen; lia).
  rewrite Henc, bind_Ok.
  destruct (Encode pcm (pl_encoder p)) as [e' [opusData|]]; cbn [fst snd];
    destruct fuel; done.
Qed.

End PipelineSpec.

(** ** [ProcessChunk], [Flush] and [Reset] *)

Lemma ratio_22050_48000 : pos_finite (ratioOf 22050 48000) 2 2.
Proof. exists 4901877145437275%positive, (-51). split; [by vm_compute|]. done. Qed.

(** The resampling step of [ProcessChunk] returns for every chunk. *)
Lemma ResampleMono_22050_48000 (pcm : list byte) :
  len pcm < 2 ^ 58 →
  ∃ out, ResampleMono pcm 22050 48000 = Ok out
         ∧ len out = 2 * outputSamplesOf (len pcm / 2) 22050 48000.
Proof.
  intros Hlen. set (n := len pcm / 2).
  pose proof (len_nonneg pcm) as Hnn.
  assert (Hn : 0 ≤ n < 2 ^ 57).
  { unfold n. change (2 ^ 58) with (2 * 2 ^ 57) in Hlen.
    div_mod_lia. }
  assert (Hos : 0 ≤ outputSamplesOf n 22050 48000 < 2 ^ 62).
  { destruct (Z.eq_dec n 0) as [->|Hn0]; [by vm_compute|].
    unfold outputSamplesOf.
    pose proof (f64_of_int_range n 57 ltac:(lia) ltac:(lia)) as HN.
    pose proof (f64_mul_pos _ _ _ _ _ _ HN ratio_22050_48000 ltac:(lia) ltac:(lia)) as HP.
    destruct (f64_to_int_pos _ _ _ HP ltac:(lia)) as [_ Hr].
    split; [lia|]. eapply Z.lt_le_trans; [apply Hr|]. apply Z.pow_le_mono_r; lia. }
  pose proof (ResampleMono_cases pcm 22050 48000 ltac:(lia) ltac:(lia) ltac:(lia) Hlen)
    as Hc.
  cbn zeta in Hc. fold n in Hc.
  destruct Hc as [[? _]|[[_ ?]|[? _]]]; [lia|done|lia].
Qed.

Section PipelineOps.
Context `{Opus}.

Lemma ProcessChunk_empty (p : AudioPipeline) : ProcessChunk [] p = Ok (p, []).
Proof. done. Qed.

(** A non-empty chunk: the buffer grows by four bytes per resampled sample
    and is then drained of its whole frames. *)
Lemma ProcessChunk_nonempty (pcm : list byte) (p : AudioPipeline) :
  pcm ≠ [] → len pcm < 2 ^ 58 →
  ∃ stereo p' opusFrames,
    len stereo = 4 * outputSamplesOf (len pcm / 2) 22050 48000
    ∧ ProcessChunk pcm p = Ok (p', opusFrames)
    ∧ buffer p' =
        drop (Z.to_nat (frameBytes * (len (buffer p ++ stereo) / frameBytes)))
             (buffer p ++ stereo)
    ∧ len (buffer p') = len (buffer p ++ stereo) mod frameBytes
    ∧ len opusFrames ≤ len (buffer p ++ stereo) / frameBytes
    ∧ (accepts_frames → len opusFrames = len (buffer p ++ stereo) / frameBytes).
Proof.
  intros Hne Hlen. unfold ProcessChunk.
  assert (Hz : (len pcm =? 0) = false).
  { apply Z.eqb_neq. unfold len. destruct pcm; [done|]. simpl. lia. }
  rewrite Hz.
  destruct (ResampleMono_22050_48000 pcm Hlen) as (out & -> & Hout).
  rewrite bind_Ok, MonoToStereo_eq, bind_Ok.
  set (stereo := duplicateSamples out).
  assert (Hst : len stereo = 4 * outputSamplesOf (len pcm / 2) 22050 48000).
  { unfold stereo. rewrite len_duplicateSamples, Hout.
    rewrite (Z.mul_comm 2), Z.div_mul by lia. done. }
  cbn [buffer pl_encoder].
  set (p1 := mkAudioPipeline (pl_encoder p) (buffer p ++ stereo)).
  assert (Hfuel : len (buffer p1) / frameBytes ≤ Z.of_nat (length (buffer p ++ stereo))).
  { cbn [p1 buffer]. rewrite frameBytes_eq. pose proof (len_nonneg (buffer p ++ stereo)).
    unfold len in *. div_mod_lia. }
  destruct (drainFrames_spec _ p1 [] Hfuel) as (p' & frames & Hd & Hbuf & Hle & Hacc).
  exists stereo, p', frames. cbn [p1 buffer] in *.
  split; [done|]. split; [done|]. split; [done|]. split; [|done].
  by apply (drainFrames_buffer_short _ p1 [] p' frames Hfuel).
Qed.

(** [Flush] always returns and leaves the buffer empty. *)
Lemma Flush_spec (p : AudioPipeline) :
  ∃ p' opusFrames,
    Flush p = Ok (p', opusFrames)
    ∧ buffer p' = []
    ∧ (buffer p = [] → p' = p ∧ opusFrames = [])
    ∧ len opusFrames ≤ len (buffer p) / frameBytes + 1.
Proof.
  unfold Flush. pose proof (len_nonneg (buffer p)) as Hnn.
  destruct (Z.ltb_spec 0 (len (buffer p))) as [Hpos|Hzero].
  - set (k := frameBytes - len (buffer p) mod frameBytes).
    assert (Hk : 0 < k ≤ frameBytes).
    { unfold k. rewrite frameBytes_eq. div_mod_lia. }
    rewrite make_ok by lia. rewrite bind_Ok.
    set (padded := buffer p ++ replicate (Z.to_nat k) Byte.x00).
    assert (Hpad : len padded = len (buffer p) + k).
    { unfold padded. rewrite len_app. unfold len. rewrite length_replicate. lia. }
    assert (Hmul : len padded = frameBytes * (len padded / frameBytes)
                   ∧ len padded / frameBytes = len (buffer p) / frameBytes + 1).
    { rewrite Hpad. unfold k. rewrite frameBytes_eq. div_mod_lia. }
    set (p1 := mkAudioPipeline (pl_encoder p) padded).
    assert (Hfuel : len (buffer p1) / frameBytes ≤ Z.of_nat (length padded)).
    { cbn [p1 buffer]. rewrite frameBytes_eq. pose proof (len_nonneg padded).
      unfold len in *. div_mod_lia. }
    destruct (drainFrames_spec _ p1 [] Hfuel) as (p' & frames & Hd & Hbuf & Hle & _).
    cbn [p1 buffer pl_encoder] in *. exists p', frames.
    split; [done|]. split; [|split].
    + rewrite Hbuf. apply drop_ge. destruct Hmul as [Hm _].
      unfold len in *. lia.
    + intros Hnil. rewrite Hnil in Hpos. done.
    + destruct Hmul as [_ <-]. done.
  - exists p, []. split; [done|]. split.
    + apply nil_length_inv. unfold len in *. lia.
    + split; [done|]. unfold len at 1. simpl. rewrite frameBytes_eq.
      div_mod_lia.
Qed.

(** [Flush] on a partial frame: the buffer is padded with zeros to one
    frame, which libopus is given. *)
Lemma Flush_partial_frame (p : AudioPipeline) :
  0 < len (buffer p) < frameBytes →
  let padded := buffer p ++ replicate (Z.to_nat (frameBytes - len (buffer p))) Byte.x00 in
  len padded = frameBytes
  ∧ ∃ pcm, len pcm = 1920
      ∧ EncodeBytes padded (pl_encoder p) = Ok (Encode pcm (pl_encoder p))
      ∧ Flush p = Ok (mkAudioPipeline (Encode pcm (pl_encoder p)).1 [],
                      match (Encode pcm (pl_encoder p)).2 with
                      | Some opusData => [opusData]
                      | None => []
                      end).
Proof.
  intros Hlen padded.
  assert (Hpad : len padded = frameBytes).
  { unfold padded. rewrite len_app. unfold len at 2. rewrite length_replicate. lia. }
  split; [done|].
  unfold Flush. rewrite (proj2 (Z.ltb_lt 0 (len (buffer p)))) by lia.
  rewrite Z.mod_small by lia. rewrite make_ok by lia. rewrite bind_Ok.
  fold padded. cbn [buffer].
  destruct (drainFrames_one_frame (Nat.pred (length padded))
              (mkAudioPipeline (pl_encoder p) padded) Hpad)
    as (pcm & Hpcm & Hd & Henc).
  cbn [buffer pl_encoder] in *. exists pcm. split; [done|]. split; [done|].
  rewrite <- Hd. f_equal.
  rewrite frameBytes_eq in Hpad. unfold len in Hpad. lia.
Qed.

Lemma Reset_spec (p : AudioPipeline) :
  buffer (Reset p) = [] ∧ pl_encoder (Reset p) = pl_encoder p.
Proof. done. Qed.

(** The invariant of the pipeline. *)
Lemma reachable_buffer_short (p : AudioPipeline) :
  reachable p → len (buffer p) < frameBytes.
Proof.
  induction 1 as [enc|p pcm p' frames Hp IH Hpc|p p' frames Hp IH Hfl|p Hp IH].
  - done.
  - unfold ProcessChunk in Hpc.
    destruct (Z.eqb_spec (len pcm) 0) as [Hz|Hnz].
    { by injection Hpc as <- _. }
    destruct (ResampleMono pcm 22050 48000) as [out|] eqn:Hres; [|done].
    rewrite bind_Ok, MonoToStereo_eq, bind_Ok in Hpc. cbn [buffer pl_encoder] in Hpc.
    match type of Hpc with drainFrames ?f ?p1 _ = _ =>
      assert (Hfuel : len (buffer p1) / frameBytes ≤ Z.of_nat f) end.
    { cbn [buffer]. rewrite frameBytes_eq.
      match goal with |- len ?l / _ ≤ _ => pose proof (len_nonneg l) end.
      unfold len in *. div_mod_lia. }
    rewrite (drainFrames_buffer_short _ _ _ _ _ Hfuel Hpc).
    rewrite frameBytes_eq. div_mod_lia.
  - destruct (Flush_spec p) as (p1 & f1 & E & Hbuf & _).
    rewrite E in Hfl. injection Hfl as <- _. by rewrite Hbuf.
  - done.
Qed.

(** C6.  In every state the pipeline can be in, Flush on a non-empty buffer
    pads it with zeros to 3,840 bytes, emits the one frame libopus makes
    of that, and leaves the buffer empty; on an empty buffer it emits
    nothing.  Reset empties the buffer and emits nothing (it returns
    nothing and does not touch the encoder).  So Flush followed by Reset
    emits at most one frame. *)
Theorem C6_Flush_pads_and_emits_one_frame (p : AudioPipeline) :
  accepts_frames → reachable p →
  ∃ p' opusFrames,
    Flush p = Ok (p', opusFrames)
    ∧ buffer p' = []
    ∧ (buffer p = [] → opusFrames = [])
    ∧ (buffer p ≠ [] →
       let padded :=
         buffer p ++ replicate (Z.to_nat (frameBytes - len (buffer p))) Byte.x00 in
       len padded = frameBytes
       ∧ ∃ e' opusData,
           EncodeBytes padded (pl_encoder p) = Ok (e', Some opusData)
           ∧ opusFrames = [opusData] ∧ pl_encoder p' = e')
    ∧ len opusFrames ≤ 1
    ∧ buffer (Reset p) = [] ∧ pl_encoder (Reset p) = pl_encoder p
    ∧ buffer (Reset p') = [].
Proof.
  intros Hacc Hreach. pose proof (reachable_buffer_short p Hreach) as Hshort.
  pose proof (len_nonneg (buffer p)) as Hnn.
  destruct (decide (buffer p = [])) as [Hnil|Hne].
  - destruct (Flush_spec p) as (p' & frames & E & Hbuf & Hempty & _).
    destruct (Hempty Hnil) as [-> ->].
    exists p, []. repeat split; try done.
  - assert (Hpos : 0 < len (buffer p)).
    { unfold len. destruct (buffer p); [done|]. simpl. lia. }
    destruct (Flush_partial_frame p ltac:(lia)) as (Hpad & pcm & Hpcm & Henc & Hfl).
    destruct (Encode_accepts pcm (pl_encoder p) Hacc Hpcm) as (e' & opusData & Hen).
    rewrite Hen in Hfl, Henc. cbn [fst snd] in Hfl.
    eexists _, _. split; [exact Hfl|]. split; [done|]. split; [done|].
    split; [|done]. intros _. split; [done|]. by exists e', opusData.
Qed.

(** C10.  In every state the pipeline can be in the buffer holds fewer than
    3,840 bytes.  ProcessChunk returns with the buffer drained of every
    whole frame, Flush returns with the buffer empty and at most one frame
    emitted, and Reset leaves the buffer empty. *)
Theorem C10_buffer_stays_below_one_frame (p : AudioPipeline) :
  reachable p →
  len (buffer p) < frameBytes
  ∧ ProcessChunk [] p = Ok (p, [])
  ∧ (∀ pcm, pcm ≠ [] → len pcm < 2 ^ 58 →
       ∃ stereo p' opusFrames,
         ProcessChunk pcm p = Ok (p', opusFrames)
         ∧ buffer p' =
             drop (Z.to_nat (frameBytes * (len (buffer p ++ stereo) / frameBytes)))
                  (buffer p ++ stereo)
         ∧ len (buffer p') < frameBytes)
  ∧ (∃ p' opusFrames,
       Flush p = Ok (p', opusFrames) ∧ buffer p' = [] ∧ len opusFrames ≤ 1)
  ∧ buffer (Reset p) = [].
Proof.
  intros Hreach. pose proof (reachable_buffer_short p Hreach) as Hshort.
  split; [done|]. split; [done|]. split; [|split; [|done]].
  - intros pcm Hne Hlen.
    destruct (ProcessChunk_nonempty pcm p Hne Hlen)
      as (stereo & p' & frames & _ & E & Hbuf & Hmod & _).
    exists stereo, p', frames. split; [done|]. split; [done|].
    rewrite Hmod, frameBytes_eq. div_mod_lia.
  - destruct (Flush_spec p) as (p' & frames & E & Hbuf & _ & Hle).
    exists p', frames. split; [done|]. split; [done|].
    rewrite frameBytes_eq in *. pose proof (len_nonneg (buffer p)).
    div_mod_lia.
Qed.

Lemma outputSamples_one_second : outputSamplesOf 22050 22050 48000 = 48000.
Proof. by vm_compute. Qed.

(** C7.  One second of 16-bit mono PCM at 22,050 Hz (22,050 samples,
    44,100 bytes) pushed into a new pipeline with ProcessChunk and then
    Flush gives exactly 50 Opus frames in all: ProcessChunk emits the 50,
    Flush finds the buffer empty and adds none. *)
Theorem C7_one_second_gives_50_frames (enc : OpusState) (pcm : list byte) :
  accepts_frames → len pcm = 44100 →
  ∃ p1 frames1 p2 frames2,
    ProcessChunk pcm (NewAudioPipeline enc) = Ok (p1, frames1)
    ∧ Flush p1 = Ok (p2, frames2)
    ∧ len frames1 + len frames2 = 50
    ∧ len frames1 = 50 ∧ frames2 = [] ∧ buffer p2 = [].
Proof.
  intros Hacc Hlen.
  assert (Hne : pcm ≠ []) by (intros ->; done).
  destruct (ProcessChunk_nonempty pcm (NewAudioPipeline enc) Hne)
    as (stereo & p1 & frames1 & Hst & E1 & _ & Hmod & _ & Hcount).
  { rewrite Hlen. done. }
  replace (len pcm / 2) with 22050 in Hst by (rewrite Hlen; done).
  rewrite outputSamples_one_second in Hst.
  cbn [NewAudioPipeline buffer] in *. rewrite app_nil_l in *.
  rewrite Hst, frameBytes_eq in *.
  destruct (Flush_spec p1) as (p2 & frames2 & E2 & Hbuf2 & Hempty & _).
  assert (Hnil : buffer p1 = []).
  { apply nil_length_inv. change (4 * 48000 mod 3840) with 0 in Hmod.
    unfold len in Hmod. lia. }
  destruct (Hempty Hnil) as [_ ->].
  exists p1, frames1, p2, []. split; [done|]. split; [done|].
  rewrite (Hcount Hacc). done.
Qed.

End PipelineOps.

(** ** Concrete runs of the pipeline *)

Lemma demoOpus_accepts : accepts_frames (H := demoOpus).
Proof. intros st pcm _. by eexists. Qed.

Lemma afterSixSamples_reachable : reachable afterSixSamples.
Proof.
  apply (reach_ProcessChunk (H := demoOpus) (NewAudioPipeline demoEncoder)
           sixSamples _ []).
  - apply reach_new.
  - by vm_compute.
Qed.

Lemma C6_witness :
  ∃ p' opusFrames,
    Flush afterSixSamples = Ok (p', opusFrames)
    ∧ buffer p' = []
    ∧ (buffer afterSixSamples = [] → opusFrames = [])
    ∧ (buffer afterSixSamples ≠ [] →
       let padded :=
         buffer afterSixSamples
           ++ replicate (Z.to_nat (frameBytes - len (buffer afterSixSamples))) Byte.x00 in
       len padded = frameBytes
       ∧ ∃ e' opusData,
           EncodeBytes padded (pl_encoder afterSixSamples) = Ok (e', Some opusData)
           ∧ opusFrames = [opusData] ∧ pl_encoder p' = e')
    ∧ len opusFrames ≤ 1
    ∧ buffer (Reset afterSixSamples) = []
    ∧ pl_encoder (Reset afterSixSamples) = pl_encoder afterSixSamples
    ∧ buffer (Reset p') = [].
Proof.
  apply (C6_Flush_pads_and_emits_one_frame (H := demoOpus) afterSixSamples).
  - exact demoOpus_accepts.
  - exact afterSixSamples_reachable.
Defined.

Lemma C7_witness :
  ∃ p1 frames1 p2 frames2,
    ProcessChunk oneSecond (NewAudioPipeline demoEncoder) = Ok (p1, frames1)
    ∧ Flush p1 = Ok (p2, frames2)
    ∧ len frames1 + len frames2 = 50
    ∧ len frames1 = 50 ∧ frames2 = [] ∧ buffer p2 = [].
Proof.
  apply (C7_one_second_gives_50_frames (H := demoOpus) demoEncoder oneSecond).
  - exact demoOpus_accepts.
  - vm_compute. reflexivity.
Defined.

Lemma C10_witness :
  len (buffer afterSixSamples) < frameBytes
  ∧ ProcessChunk [] afterSixSamples = Ok (afterSixSamples, [])
  ∧ (∀ pcm, pcm ≠ [] → len pcm < 2 ^ 58 →
       ∃ stereo p' opusFrames,
         ProcessChunk pcm afterSixSamples = Ok (p', opusFrames)
         ∧ buffer p' =
             drop (Z.to_nat (frameBytes
                     * (len (buffer afterSixSamples ++ stereo) / frameBytes)))
                  (buffer afterSixSamples ++ stereo)
         ∧ len (buffer p') < frameBytes)
  ∧ (∃ p' opusFrames,
       Flush afterSixSamples = Ok (p', opusFrames)
       ∧ buffer p' = [] ∧ len opusFrames ≤ 1)
  ∧ buffer (Reset afterSixSamples) = [].
Proof.
  apply (C10_buffer_stays_below_one_frame (H := demoOpus) afterSixSamples).
  exact afterSixSamples_reachable.
Defined.

(** The six samples become 13 at 48 kHz, 52 bytes of stereo; Flush turns
    them into one frame and leaves the buffer empty. *)
Example Flush_afterSixSamples :
  len (buffer afterSixSamples) = 52
  ∧ ∃ p', Flush afterSixSamples = Ok (p', [[Byte.x00]]) ∧ buffer p' = [].
Proof. split; [by vm_compute|]. eexists. split; by vm_compute. Qed.

(** Why the invariant matters: on a buffer of exactly 3,840 bytes, which no
    run of the exported operations produces, Flush would add a whole frame
    of padding and emit two frames. *)
Example Flush_on_a_whole_frame :
  ∃ p', Flush (mkAudioPipeline (pl_encoder afterSixSamples)
                 (replicate (Z.to_nat 3840) Byte.x01))
        = Ok (p', [[Byte.x00]; [Byte.x01]]).
Proof. eexists. by vm_compute. Qed.

End AudioSpec.

(* ===================================================================== *)
(** * The life of a signaling connection *)
(* ===================================================================== *)

Module SessionSpec.

Import Signaling SignalingSpec.

Lemma GetOtherPeers_peersOf room id s s' :
  peersOf room s = peersOf room s' →
  GetOtherPeers room id s = GetOtherPeers room id s'.
Proof. intros E. unfold GetOtherPeers, othersOf. by rewrite E. Qed.

Lemma peersOf_Rooms r s s' : Rooms s = Rooms s' → peersOf r s = peersOf r s'.
Proof. intros E. unfold peersOf. by rewrite E. Qed.

Lemma length_GetOtherPeers_delete room id s :
  length (GetOtherPeers room id (RemovePeer room id s))
    = size (delete id (peersOf room s)).
Proof.
  unfold GetOtherPeers, othersOf. rewrite length_fmap, peersOf_RemovePeer.
  rewrite decide_True by done. rewrite filter_all.
  - by rewrite length_map_to_list.
  - apply Forall_forall. intros [k p] Hin. apply elem_of_map_to_list in Hin.
    simpl. intros ->. by rewrite lookup_delete_eq in Hin.
Qed.

Lemma of_type_app ty l1 l2 : of_type ty (l1 ++ l2) = of_type ty l1 ++ of_type ty l2.
Proof. apply filter_app. Qed.

Lemma of_type_broadcast ty msg (ps : list Peer) :
  of_type ty ((λ p, (p, msg)) <$> ps) =
    if decide (sm_Type msg = ty) then (λ p, (p, msg)) <$> ps else [].
Proof.
  unfold of_type. destruct (decide (sm_Type msg = ty)) as [E|E].
  - apply filter_all, Forall_fmap, Forall_forall. by intros.
  - apply filter_none, Forall_fmap, Forall_forall. by intros.
Qed.

Lemma of_type_other ty l :
  Forall (λ pm, sm_Type pm.2 ≠ ty) l → of_type ty l = [].
Proof. apply filter_none. Qed.

Section WithStack.
Context `{MediaStack}.

(** One relay step: membership and the closed sessions stay as they are,
    the peer of the connection stays, and what is written is an answer to
    the peer itself or a screenshot for a peer of its room. *)
Lemma relay_step conn pc p msg s :
  sm_Type msg ≠ "join" →
  ∃ l, handleWebSocket_iter conn pc (Some p) (ReadOk msg) s
         = (mkServer (Rooms s) (sent s ++ l) (closed s), Running (Some p))
       ∧ Forall (λ pm,
                   (pm.1 = p ∧ sm_Type pm.2 = "answer")
                   ∨ (sm_Type pm.2 = "screenshot"
                      ∧ ∃ r, peer_Room p = Some r
                             ∧ GetPeer r (sm_TargetID msg) s = Some pm.1)) l.
Proof.
  intros Hj. unfold handleWebSocket_iter.
  rewrite decide_False by done.
  assert (Hid : s = mkServer (Rooms s) (sent s ++ []) (closed s))
    by (destruct s; simpl; by rewrite app_nil_r).
  repeat case_decide.
  - unfold handleOffer. destruct (CreateAnswer p (sm_SDP msg)) as [sdp|].
    + eexists [_]. split; [reflexivity|]. apply Forall_singleton. by left.
    + exists []. split; [by rewrite <- Hid|constructor].
  - exists []. split; [by rewrite <- Hid|constructor].
  - exists []. split; [by rewrite <- Hid|constructor].
  - unfold handleScreenshot. destruct (peer_Room p) as [r|] eqn:Er.
    + case_decide.
      * exists []. split; [by rewrite <- Hid|constructor].
      * destruct (GetPeer r (sm_TargetID msg) s) as [t|] eqn:Et.
        -- eexists [_]. split; [reflexivity|]. apply Forall_singleton. right.
           split; [done|]. eauto.
        -- exists []. split; [by rewrite <- Hid|constructor].
    + exists []. split; [by rewrite <- Hid|constructor].
  - exists []. split; [by rewrite <- Hid|constructor].
Qed.

Lemma relay_types l p msg s :
  Forall (λ pm : Peer * SignalMessage,
            (pm.1 = p ∧ sm_Type pm.2 = "answer")
            ∨ (sm_Type pm.2 = "screenshot"
               ∧ ∃ r, peer_Room p = Some r
                      ∧ GetPeer r (sm_TargetID msg) s = Some pm.1)) l →
  Forall (λ pm, sm_Type pm.2 = "answer" ∨ sm_Type pm.2 = "screenshot") l.
Proof.
  intros Hl. eapply Forall_impl; [exact Hl|]. intros pm [[_ ?]|[? _]]; eauto.
Qed.

(** A run of relay steps. *)
Lemma relay_loop conn p relay : ∀ rest s,
  Forall relayed relay →
  ∃ l, handleWebSocket_loop conn (Some p) (relay ++ rest) s
         = handleWebSocket_loop conn (Some p) rest
             (mkServer (Rooms s) (sent s ++ l) (closed s))
       ∧ Forall (λ pm, sm_Type pm.2 = "answer" ∨ sm_Type pm.2 = "screenshot") l.
Proof.
  induction relay as [|[r pc] relay IH]; intros rest s Hrel.
  - exists []. split; [|constructor]. simpl. destruct s; simpl. by rewrite app_nil_r.
  - apply Forall_cons in Hrel as [Hr Hrel]. unfold relayed in Hr. simpl in Hr.
    destruct r as [msg|]; [|done].
    destruct (relay_step conn pc p msg s Hr) as (l1 & E1 & Hl1).
    apply relay_types in Hl1. rewrite <- app_comm_cons.
    cbn [handleWebSocket_loop]. rewrite E1.
    destruct (IH rest (mkServer (Rooms s) (sent s ++ l1) (closed s)) Hrel)
      as (l2 & E2 & Hl2).
    exists (l1 ++ l2). split.
    + rewrite E2. simpl. by rewrite <- app_assoc.
    + by apply Forall_app.
Qed.

Lemma join_step conn pc old msg s :
  sm_Type msg = "join" →
  handleWebSocket_iter conn (Some pc) old (ReadOk msg) s
    = ((handleJoin conn msg (Some pc) s).1, Running (Some (joinedPeer conn msg pc))).
Proof.
  intros Hj. unfold handleWebSocket_iter. rewrite decide_True by done.
  destruct (handleJoin_eq conn msg pc s) as (offers & _ & E). by rewrite E.
Qed.

Lemma closed_handleJoin conn msg pc s :
  closed (handleJoin conn msg pc s).1 = closed s.
Proof.
  destruct pc as [pc|]; [|done].
  destruct (handleJoin_eq conn msg pc s) as (o & _ & E). by rewrite E.
Qed.

Lemma offers_not ty peer l :
  ty ≠ "offer" → offers_to peer l → Forall (λ pm, sm_Type pm.2 ≠ ty) l.
Proof.
  intros Hty Hl. eapply Forall_impl; [exact Hl|]. intros pm [_ E]. congruence.
Qed.

Lemma relays_not ty (l : list (Peer * SignalMessage)) :
  ty ≠ "answer" → ty ≠ "screenshot" →
  Forall (λ pm, sm_Type pm.2 = "answer" ∨ sm_Type pm.2 = "screenshot") l →
  Forall (λ pm, sm_Type pm.2 ≠ ty) l.
Proof.
  intros H1 H2 Hl. eapply Forall_impl; [exact Hl|]. intros pm [E|E]; congruence.
Qed.

(** X1.  The disconnect path takes the peer out of its room and leaves the
    other rooms alone; it writes peer_left, naming the peer, once to every
    peer that remains in the room and to nobody else (so never to the peer
    that left), and closes the peer's media session. *)
Theorem X1_disconnect_notifies_the_remaining_peers
    (peer : Peer) (room : string) (s : Server) :
  peer_Room peer = Some room → keyed_by_ID s →
  let id := peer_ID peer in
  let s' := handlePeerDisconnect peer s in
  peersOf room s' = delete id (peersOf room s)
  ∧ (∀ r, r ≠ room → peersOf r s' = peersOf r s)
  ∧ (∀ q m, (q, m) ∈ since s s' ↔
            m = peerLeft id ∧ peer_ID q ≠ id
            ∧ peersOf room s !! peer_ID q = Some q)
  ∧ length (since s s') = size (delete id (peersOf room s))
  ∧ closed s' = closed s ++ match peer_PeerConnection peer with
                            | Some _ => [peer]
                            | None => []
                            end.
Proof.
  intros Hroom Hkey id s'.
  assert (Hrooms : ∀ r, peersOf r s' = peersOf r (RemovePeer room id s)).
  { intros r. apply peersOf_Rooms. unfold s'.
    by rewrite handlePeerDisconnect_Rooms, Hroom. }
  assert (Hsince : since s s' =
            (λ p, (p, peerLeft id)) <$> GetOtherPeers room id (RemovePeer room id s)).
  { apply since_app. unfold s'. by rewrite handlePeerDisconnect_sent, Hroom. }
  split; [|split; [|split; [|split]]].
  - rewrite Hrooms, peersOf_RemovePeer. by rewrite decide_True.
  - intros r Hr. rewrite Hrooms, peersOf_RemovePeer. by rewrite decide_False.
  - intros q m. rewrite Hsince, list_elem_of_fmap. split.
    + intros (p & [= -> ->] & Hin). apply elem_of_GetOtherPeers in Hin as (k & Hk & Hl).
      rewrite peersOf_RemovePeer, decide_True in Hl by done.
      rewrite lookup_delete_ne in Hl by done.
      pose proof (keyed_by_ID_lookup _ _ _ _ Hkey Hl) as Hid.
      split; [done|]. split; congruence.
    + intros (-> & Hne & Hl). exists q. split; [done|].
      apply elem_of_GetOtherPeers. exists (peer_ID q). split; [done|].
      rewrite peersOf_RemovePeer, decide_True by done.
      by rewrite lookup_delete_ne.
  - rewrite Hsince, length_fmap. apply length_GetOtherPeers_delete.
  - apply handlePeerDisconnect_closed.
Qed.

(** X3.  Frames that are no join never change who is in which room,
    whatever they carry: the rooms and the closed sessions stay as they
    are, the loop goes on with the same peer, and all that is written is an
    answer to the sender itself or a screenshot handed to a peer registered
    in the sender's room.  Before the connection has joined, such a frame
    changes nothing at all. *)
Theorem X3_relayed_frames_leave_the_rooms_alone
    (conn : nat) (pc : option nat) (peer : option Peer)
    (msg : SignalMessage) (s : Server) :
  sm_Type msg ≠ "join" →
  let r := handleWebSocket_iter conn pc peer (ReadOk msg) s in
  r.2 = Running peer
  ∧ Rooms r.1 = Rooms s ∧ closed r.1 = closed s
  ∧ (peer = None → r.1 = s)
  ∧ (∀ p, peer = Some p →
       ∀ q m, (q, m) ∈ since s r.1 →
         (q = p ∧ sm_Type m = "answer")
         ∨ (sm_Type m = "screenshot"
            ∧ ∃ room, peer_Room p = Some room
                      ∧ GetPeer room (sm_TargetID msg) s = Some q)).
Proof.
  intros Hj r. destruct peer as [p|].
  - destruct (relay_step conn pc p msg s Hj) as (l & E & Hl).
    unfold r. rewrite E. simpl. repeat split; try done.
    intros p' [= <-] q m Hin.
    rewrite (since_app s _ l) in Hin by done.
    rewrite Forall_forall in Hl. apply (Hl (q, m) Hin).
  - assert (E : r = (s, Running None)).
    { unfold r, handleWebSocket_iter. rewrite decide_False by done.
      by repeat case_decide. }
    rewrite E. simpl. repeat split; try done.
Qed.

(** X2.  The whole life of a connection: it joins under an id that is free
    in the room, sends any number of frames that are no join, and then
    fails to read.  The handler returns, and every room has the peers it
    had before; the peer_joined messages written in all that time are one
    for each peer that was in the room, naming the id, the peer_left
    messages are one for each of the same peers, and the media session of
    the connection's peer is closed. *)
Theorem X2_join_then_leave_restores_the_room
    (conn pc : nat) (join : SignalMessage) (relay rest : list (ReadResult * option nat))
    (x : option nat) (s : Server) :
  sm_Type join = "join" →
  Forall relayed relay →
  peersOf (sm_Room join) s !! sm_ClientID join = None →
  let room := sm_Room join in
  let id := sm_ClientID join in
  let r := handleWebSocket conn
             ((ReadOk join, Some pc) :: relay ++ (ReadErr, x) :: rest) s in
  r.2 = Returned
  ∧ (∀ room', peersOf room' r.1 = peersOf room' s)
  ∧ of_type "peer_joined" (since s r.1)
      = ((λ q, (q, peerJoined id)) <$> GetOtherPeers room id s)
  ∧ of_type "peer_left" (since s r.1)
      = ((λ q, (q, peerLeft id)) <$> GetOtherPeers room id s)
  ∧ closed r.1 = closed s ++ [joinedPeer conn join pc].
Proof.
  intros Hj Hrel Hfree room id r.
  set (new := joinedPeer conn join pc).
  destruct (handleJoin_eq conn join pc s) as (offers & Hoff & Ejoin).
  set (s1 := (handleJoin conn join (Some pc) s).1).
  assert (Hs1 : sent s1 = sent s
             ++ ((λ p, (p, peerJoined id)) <$> GetOtherPeers room id s) ++ offers)
    by (unfold s1; by rewrite Ejoin).
  assert (Hc1 : closed s1 = closed s) by (unfold s1; by rewrite Ejoin).
  destruct (relay_loop conn new relay ((ReadErr, x) :: rest) s1 Hrel)
    as (l & Eloop & Hl).
  set (s2 := mkServer (Rooms s1) (sent s1 ++ l) (closed s1)) in *.
  assert (Er : r = (handlePeerDisconnect new s2, Returned)).
  { unfold r, handleWebSocket. cbn [handleWebSocket_loop].
    rewrite (join_step _ _ _ _ _ Hj).
    fold s1 new. rewrite Eloop. reflexivity. }
  assert (Hp2 : ∀ room', peersOf room' s2 = peersOf room' s1)
    by (intros; by apply peersOf_Rooms).
  assert (Hback : ∀ room',
            peersOf room' (RemovePeer room id s2) = peersOf room' s).
  { intros room'. rewrite peersOf_RemovePeer, Hp2. unfold s1.
    rewrite peersOf_handleJoin. fold room id new.
    destruct (decide (room = room')) as [<-|Hne]; [|done].
    by rewrite delete_insert_id. }
  rewrite Er. cbn [fst snd]. split; [done|]. split; [|split; [|split]].
  - intros room'. rewrite <- Hback. apply peersOf_Rooms.
    by rewrite handlePeerDisconnect_Rooms.
  - rewrite (since_app s _
      ((((λ p, (p, peerJoined id)) <$> GetOtherPeers room id s) ++ offers) ++ l ++
       ((λ p, (p, peerLeft id)) <$> GetOtherPeers room id (RemovePeer room id s2)))).
    + rewrite !of_type_app, !of_type_broadcast. simpl.
      rewrite (of_type_other _ offers), (of_type_other _ l).
      * by rewrite !app_nil_r.
      * by apply relays_not.
      * by apply (offers_not _ new).
    + rewrite handlePeerDisconnect_sent. simpl. rewrite Hs1.
      by rewrite <- !app_assoc.
  - rewrite (since_app s _
      ((((λ p, (p, peerJoined id)) <$> GetOtherPeers room id s) ++ offers) ++ l ++
       ((λ p, (p, peerLeft id)) <$> GetOtherPeers room id (RemovePeer room id s2)))).
    + rewrite !of_type_app, !of_type_broadcast. simpl.
      rewrite (of_type_other _ offers), (of_type_other _ l).
      * simpl. f_equal. apply GetOtherPeers_peersOf, Hback.
      * by apply relays_not.
      * by apply (offers_not _ new).
    + rewrite handlePeerDisconnect_sent. simpl. rewrite Hs1.
      by rewrite <- !app_assoc.
  - rewrite handlePeerDisconnect_closed. simpl. by rewrite Hc1.
Qed.

(** X4.  A join for which no media session can be created ends the handler
    at once, also on a connection that has joined before: the disconnect
    path is not run, so the peer of the earlier join stays registered in
    its room, nobody is written peer_left and no session is closed. *)
Theorem X4_failed_rejoin_leaves_the_peer_registered
    (conn pc : nat) (join join2 : SignalMessage)
    (relay rest : list (ReadResult * option nat)) (s : Server) :
  sm_Type join = "join" → Forall relayed relay → sm_Type join2 = "join" →
  let r := handleWebSocket conn
             ((ReadOk join, Some pc) :: relay ++ (ReadOk join2, None) :: rest) s in
  r.2 = Returned
  ∧ GetPeer (sm_Room join) (sm_ClientID join) r.1 = Some (joinedPeer conn join pc)
  ∧ closed r.1 = closed s
  ∧ of_type "peer_left" (since s r.1) = [].
Proof.
  intros Hj Hrel Hj2 r.
  set (new := joinedPeer conn join pc).
  destruct (handleJoin_eq conn join pc s) as (offers & Hoff & Ejoin).
  set (s1 := (handleJoin conn join (Some pc) s).1).
  assert (Hs1 : sent s1 = sent s
             ++ ((λ p, (p, peerJoined (sm_ClientID join)))
                   <$> GetOtherPeers (sm_Room join) (sm_ClientID join) s) ++ offers)
    by (unfold s1; by rewrite Ejoin).
  assert (Hc1 : closed s1 = closed s) by (unfold s1; by rewrite Ejoin).
  destruct (relay_loop conn new relay ((ReadOk join2, None) :: rest) s1 Hrel)
    as (l & Eloop & Hl).
  set (s2 := mkServer (Rooms s1) (sent s1 ++ l) (closed s1)) in *.
  assert (Er : r = (s2, Returned)).
  { unfold r, handleWebSocket. cbn [handleWebSocket_loop].
    rewrite (join_step _ _ _ _ _ Hj). fold s1 new. rewrite Eloop.
    cbn [handleWebSocket_loop]. unfold handleWebSocket_iter.
    rewrite decide_True by done. reflexivity. }
  rewrite Er. cbn [fst snd]. split; [done|]. split; [|split].
  - unfold GetPeer. rewrite (peersOf_Rooms _ s2 s1) by done. unfold s1.
    rewrite peersOf_handleJoin, decide_True by done. apply lookup_insert_eq.
  - done.
  - rewrite (since_app s _
      ((((λ p, (p, peerJoined (sm_ClientID join)))
           <$> GetOtherPeers (sm_Room join) (sm_ClientID join) s) ++ offers) ++ l)).
    + rewrite !of_type_app, of_type_broadcast. simpl.
      rewrite (of_type_other _ offers), (of_type_other _ l); [done| |].
      * by apply relays_not.
      * by apply (offers_not _ new).
    + simpl. rewrite Hs1. by rewrite <- !app_assoc.
Qed.

(** X5.  The room keeps one peer per id, and the disconnect path removes by
    id.  When a second connection joins a room under an id that is taken,
    its peer replaces the first one in the room; when the first connection
    then goes through the disconnect path, the entry of the second is what
    is removed: no peer is registered under the id any more, although only
    the media session of the first peer was closed. *)
Theorem X5_disconnect_removes_whoever_holds_the_id
    (room id : string) (conn1 pc1 conn2 pc2 : nat) (s : Server) :
  let p1 := joinedPeer conn1 (joinMsg room id) pc1 in
  let p2 := joinedPeer conn2 (joinMsg room id) pc2 in
  let s1 := (handleJoin conn1 (joinMsg room id) (Some pc1) s).1 in
  let s2 := (handleJoin conn2 (joinMsg room id) (Some pc2) s1).1 in
  let s3 := handlePeerDisconnect p1 s2 in
  GetPeer room id s1 = Some p1
  ∧ GetPeer room id s2 = Some p2
  ∧ GetPeer room id s3 = None
  ∧ (∀ k, k ≠ id → GetPeer room k s3 = GetPeer room k s)
  ∧ closed s3 = closed s ++ [p1].
Proof.
  intros p1 p2 s1 s2 s3.
  assert (H1 : peersOf room s1 = <[id := p1]> (peersOf room s)).
  { unfold s1. rewrite peersOf_handleJoin. simpl. by rewrite decide_True. }
  assert (H2 : peersOf room s2 = <[id := p2]> (peersOf room s1)).
  { unfold s2. rewrite peersOf_handleJoin. simpl. by rewrite decide_True. }
  assert (H3 : peersOf room s3 = delete id (peersOf room s2)).
  { unfold s3. rewrite (peersOf_Rooms _ _ (RemovePeer room id s2)).
    - rewrite peersOf_RemovePeer. by rewrite decide_True.
    - by rewrite handlePeerDisconnect_Rooms. }
  unfold GetPeer. rewrite H3, H2, H1. split; [|split; [|split; [|split]]].
  - apply lookup_insert_eq.
  - apply lookup_insert_eq.
  - apply lookup_delete_eq.
  - intros k Hk. by rewrite lookup_delete_ne, !lookup_insert_ne.
  - unfold s3. rewrite handlePeerDisconnect_closed. unfold s2, s1.
    by rewrite !closed_handleJoin.
Qed.

(** X6.  A join touches one room only.  The peers of every other room stay
    as they are, no session is closed, and every message the join writes
    goes to a peer that was registered in the joined room or to the new
    peer itself. *)
Theorem X6_join_writes_stay_in_the_room
    (conn pc : nat) (msg : SignalMessage) (s : Server) :
  let s' := (handleJoin conn msg (Some pc) s).1 in
  (∀ r, r ≠ sm_Room msg → peersOf r s' = peersOf r s)
  ∧ closed s' = closed s
  ∧ (∀ q m, (q, m) ∈ since s s' →
       (q = joinedPeer conn msg pc ∧ sm_Type m = "offer")
       ∨ (m = peerJoined (sm_ClientID msg)
          ∧ ∃ k, k ≠ sm_ClientID msg ∧ peersOf (sm_Room msg) s !! k = Some q)).
Proof.
  intros s'. split; [|split].
  - intros r Hr. unfold s'. rewrite peersOf_handleJoin. by rewrite decide_False.
  - apply closed_handleJoin.
  - intros q m Hin. destruct (since_handleJoin conn msg pc s) as (o & Ho & E).
    unfold s' in Hin. rewrite E in Hin. apply elem_of_app in Hin as [Hin|Hin].
    + right. apply list_elem_of_fmap in Hin as (p & [= -> ->] & Hp).
      split; [done|]. by apply elem_of_GetOtherPeers.
    + left. unfold offers_to in Ho. rewrite Forall_forall in Ho.
      apply (Ho (q, m) Hin).
Qed.

End WithStack.

(** ** The room registry *)

(** X7.  Registering and looking up.  After a room has been got or created
    and a peer added to it, the peer is found under its id, with its room
    set and its other fields as given; every other id of the room answers
    as before.  Removing the id makes the lookup fail, and if the id was
    free before the peer was added the room has the peers it had. *)
Theorem X7_AddPeer_GetPeer_RemovePeer (room : string) (peer : Peer) (s : Server) :
  let id := peer_ID peer in
  let r := AddPeer room peer (GetOrCreateRoom room s) in
  GetPeer room id r.1 = Some r.2
  ∧ r.2 = mkPeer id (peer_Conn peer) (peer_PeerConnection peer) (Some room)
                 (peer_LocalTracks peer)
  ∧ (∀ k, k ≠ id → GetPeer room k r.1 = GetPeer room k s)
  ∧ GetPeer room id (RemovePeer room id r.1) = None
  ∧ (∀ k, k ≠ id → GetPeer room k (RemovePeer room id r.1) = GetPeer room k s)
  ∧ (GetPeer room id s = None → peersOf room (RemovePeer room id r.1) = peersOf room s)
  ∧ sent r.1 = sent s ∧ closed r.1 = closed s.
Proof.
  intros id r.
  assert (H1 : peersOf room r.1 = <[id := r.2]> (peersOf room s)).
  { unfold r. rewrite peersOf_AddPeer by apply GetOrCreateRoom_is_Some.
    by rewrite decide_True, peersOf_GetOrCreateRoom. }
  unfold GetPeer. rewrite !peersOf_RemovePeer, !decide_True, H1 by done.
  split; [apply lookup_insert_eq|]. split; [done|].
  split; [intros k Hk; by rewrite lookup_insert_ne|].
  split; [apply lookup_delete_eq|].
  split; [intros k Hk; by rewrite lookup_delete_ne, lookup_insert_ne|].
  split; [intros Hn; by apply delete_insert_id|].
  split; simpl; [apply sent_GetOrCreateRoom|apply closed_GetOrCreateRoom].
Qed.

(** ** Runs on the example room *)

Lemma X1_witness :
  let s' := handlePeerDisconnect peer_a room_cab in
  peersOf "r" s' = delete "a" (peersOf "r" room_cab)
  ∧ (∀ r, r ≠ "r" → peersOf r s' = peersOf r room_cab)
  ∧ (∀ q m, (q, m) ∈ since room_cab s' ↔
            m = peerLeft "a" ∧ peer_ID q ≠ "a"
            ∧ peersOf "r" room_cab !! peer_ID q = Some q)
  ∧ length (since room_cab s') = size (delete "a" (peersOf "r" room_cab))
  ∧ closed s' = closed room_cab ++ [peer_a].
Proof.
  apply (X1_disconnect_notifies_the_remaining_peers
           peer_a "r" room_cab).
  - reflexivity.
  - apply (bool_decide_unpack _). vm_compute. exact I.
Defined.

(** Peer "a" leaves the room of three: "b" and "c" are told, "a" is not. *)
Example disconnect_in_room_cab :
  let s' := handlePeerDisconnect peer_a room_cab in
  GetPeer "r" "a" s' = None
  ∧ observed 2 "peer_left" "a" s' = 1
  ∧ observed 3 "peer_left" "a" s' = 1
  ∧ observed 1 "peer_left" "a" s' = 0
  ∧ length (since room_cab s') = 2.
Proof. vm_compute. done. Qed.

Lemma X2_witness :
  let r := handleWebSocket (H := demoStack) 4
             ((ReadOk (joinMsg "r" "d"), Some 40)
                :: [(ReadOk (screenshotMsg "a" "QUJD"), None);
                    (ReadOk (mkSignalMessage "offer" "" "" "sdp" "" "" ""), None)]
                ++ (ReadErr, None) :: []) room_cab in
  r.2 = Returned
  ∧ (∀ room', peersOf room' r.1 = peersOf room' room_cab)
  ∧ of_type "peer_joined" (since room_cab r.1)
      = ((λ q, (q, peerJoined "d")) <$> GetOtherPeers "r" "d" room_cab)
  ∧ of_type "peer_left" (since room_cab r.1)
      = ((λ q, (q, peerLeft "d")) <$> GetOtherPeers "r" "d" room_cab)
  ∧ closed r.1 = closed room_cab ++ [joinedPeer 4 (joinMsg "r" "d") 40].
Proof.
  apply (X2_join_then_leave_restores_the_room (H := demoStack) 4 40
           (joinMsg "r" "d")
           [(ReadOk (screenshotMsg "a" "QUJD"), None);
            (ReadOk (mkSignalMessage "offer" "" "" "sdp" "" "" ""), None)]
           [] None room_cab).
  - reflexivity.
  - apply (bool_decide_unpack _). vm_compute. exact I.
  - vm_compute. reflexivity.
Defined.

Lemma X3_witness :
  let r := handleWebSocket_iter (H := demoStack) 1 None (Some peer_a)
             (ReadOk (screenshotMsg "b" "QUJD")) room_cab in
  r.2 = Running (Some peer_a)
  ∧ Rooms r.1 = Rooms room_cab ∧ closed r.1 = closed room_cab
  ∧ (Some peer_a = None → r.1 = room_cab)
  ∧ (∀ p, Some peer_a = Some p →
       ∀ q m, (q, m) ∈ since room_cab r.1 →
         (q = p ∧ sm_Type m = "answer")
         ∨ (sm_Type m = "screenshot"
            ∧ ∃ room, peer_Room p = Some room
                      ∧ GetPeer room (sm_TargetID (screenshotMsg "b" "QUJD")) room_cab
                          = Some q)).
Proof.
  apply (X3_relayed_frames_leave_the_rooms_alone (H := demoStack) 1 None
           (Some peer_a) (screenshotMsg "b" "QUJD") room_cab).
  vm_compute. congruence.
Defined.

Lemma X4_witness :
  let r := handleWebSocket (H := demoStack) 4
             ((ReadOk (joinMsg "r" "d"), Some 40)
                :: [(ReadOk (screenshotMsg "a" "QUJD"), None)]
                ++ (ReadOk (joinMsg "r2" "d"), None) :: []) room_cab in
  r.2 = Returned
  ∧ GetPeer "r" "d" r.1 = Some (joinedPeer 4 (joinMsg "r" "d") 40)
  ∧ closed r.1 = closed room_cab
  ∧ of_type "peer_left" (since room_cab r.1) = [].
Proof.
  apply (X4_failed_rejoin_leaves_the_peer_registered (H := demoStack) 4 40
           (joinMsg "r" "d") (joinMsg "r2" "d")
           [(ReadOk (screenshotMsg "a" "QUJD"), None)] [] room_cab).
  - reflexivity.
  - apply (bool_decide_unpack _). vm_compute. exact I.
  - reflexivity.
Defined.

(** Connection 5 joins room "r" as "a", the id of the peer of connection 1;
    when connection 1 is then lost, no "a" is left in the room. *)
Example duplicate_id_in_room_cab :
  let s2 := (handleJoin (H := demoStack) 5 (joinMsg "r" "a") (Some 50) room_cab).1 in
  let s3 := handlePeerDisconnect peer_a s2 in
  GetPeer "r" "a" s2 = Some (mkPeer "a" 5 (Some 50) (Some "r") [])
  ∧ GetPeer "r" "a" s3 = None
  ∧ closed s3 = [peer_a].
Proof. vm_compute. done. Qed.

End SessionSpec.

(* ===================================================================== *)
(** * The programmatic client: connecting, sending, stream ids *)
(* ===================================================================== *)

Module ClientSpec.

Import Bytes BytesSpec Rtp RtpSpec.
Local Open Scope Z_scope.

Lemma WriteOpus_calls_emitted calls : ∀ c tr (k : nat) seq0 ts0,
  audioTrack c = Some tr →
  rtpSeqNum c = (seq0 + Z.of_nat k) mod 2 ^ 16 →
  rtpTimestamp c = (ts0 + 960 * Z.of_nat k) mod 2 ^ 32 →
  let c' := WriteOpus_calls calls c in
  emitted c' = emitted c ++ packetsOfCalls seq0 ts0 k calls
  ∧ rtpSeqNum c' = (seq0 + Z.of_nat (k + length calls)) mod 2 ^ 16
  ∧ rtpTimestamp c' = (ts0 + 960 * Z.of_nat (k + length calls)) mod 2 ^ 32
  ∧ audioTrack c' = Some tr.
Proof.
  induction calls as [|[acc d] calls IH]; intros c tr k seq0 ts0 Htr Hs Ht; simpl.
  - rewrite app_nil_r, Nat.add_0_r. done.
  - assert (Hnext : let c1 := (WriteOpus acc d c).1 in
              audioTrack c1 = Some tr
              ∧ rtpSeqNum c1 = (seq0 + Z.of_nat (S k)) mod 2 ^ 16
              ∧ rtpTimestamp c1 = (ts0 + 960 * Z.of_nat (S k)) mod 2 ^ 32
              ∧ emitted c1 = emitted c ++
                  (if acc then [packetOfCall seq0 ts0 k d] else [])).
    { destruct acc; simpl.
      - destruct (WriteOpus_accepted d c tr Htr) as (H1 & H2 & H3 & H4 & _).
        rewrite H1, H2, H3, H4, Hs, Ht. unfold wrap_uint16, wrap_uint32, packetOfCall.
        rewrite !Zplus_mod_idemp_l. repeat split; f_equal; lia.
      - destruct (WriteOpus_rejected d c tr Htr) as (H2 & H3 & H4).
        assert (H1 : audioTrack (WriteOpus false d c).1 = Some tr)
          by (unfold WriteOpus; rewrite Htr; done).
        rewrite H1, H2, H3, H4, Hs, Ht, app_nil_r. unfold wrap_uint16, wrap_uint32.
        rewrite !Zplus_mod_idemp_l. repeat split; f_equal; lia. }
    destruct Hnext as (H1 & H2 & H3 & H4).
    destruct (IH _ tr (S k) seq0 ts0 H1 H2 H3) as (E1 & E2 & E3 & E4).
    rewrite E1, E2, E3, E4, H4, <- app_assoc.
    repeat split; do 2 f_equal; lia.
Qed.

(** X8.  WriteOpus takes the next sequence number and timestamp before it
    writes, whatever the track then answers.  In a run of calls the packets
    handed to the track are those of the accepted calls, and the packet of
    the k-th call carries sequence number (initial + k) mod 2^16 and
    timestamp (initial + 960 k) mod 2^32, where k counts the rejected calls
    too: a rejected write leaves a gap in the numbering. *)
Theorem X8_rejected_writes_leave_gaps
    (c : Client) (calls : list (bool * list byte)) :
  is_Some (audioTrack c) →
  0 ≤ rtpSeqNum c < 2 ^ 16 → 0 ≤ rtpTimestamp c < 2 ^ 32 →
  let c' := WriteOpus_calls calls c in
  emitted_since c c' = packetsOfCalls (rtpSeqNum c) (rtpTimestamp c) 0 calls
  ∧ rtpSeqNum c' = (rtpSeqNum c + Z.of_nat (length calls)) mod 2 ^ 16
  ∧ rtpTimestamp c' = (rtpTimestamp c + 960 * Z.of_nat (length calls)) mod 2 ^ 32.
Proof.
  intros [tr Htr] Hs Ht c'.
  destruct (WriteOpus_calls_emitted calls c tr 0 (rtpSeqNum c) (rtpTimestamp c) Htr)
    as (E1 & E2 & E3 & _).
  { rewrite Z.add_0_r, Z.mod_small; lia. }
  { rewrite Z.mul_0_r, Z.add_0_r, Z.mod_small; lia. }
  split; [|done].
  unfold emitted_since, c'. rewrite E1. apply drop_app_length.
Qed.

Lemma X8_witness :
  let calls := [(true, [Byte.x01]); (false, [Byte.x02]); (true, [Byte.x03])] in
  let c' := WriteOpus_calls calls connectedClient in
  emitted_since connectedClient c'
    = packetsOfCalls (rtpSeqNum connectedClient) (rtpTimestamp connectedClient) 0 calls
  ∧ rtpSeqNum c' = (rtpSeqNum connectedClient + Z.of_nat (length calls)) mod 2 ^ 16
  ∧ rtpTimestamp c'
      = (rtpTimestamp connectedClient + 960 * Z.of_nat (length calls)) mod 2 ^ 32.
Proof.
  apply (X8_rejected_writes_leave_gaps connectedClient
           [(true, [Byte.x01]); (false, [Byte.x02]); (true, [Byte.x03])]).
  - vm_compute. eauto.
  - vm_compute. split; congruence.
  - vm_compute. split; congruence.
Defined.

(** The second of three writes is rejected: the packets that went out are
    numbered 0 and 2. *)
Example gap_after_a_rejected_write :
  (λ p, (SequenceNumber (pkt_Header p), Timestamp (pkt_Header p), Payload p))
    <$> emitted (WriteOpus_calls
                   [(true, [Byte.x01]); (false, [Byte.x02]); (true, [Byte.x03])]
                   connectedClient)
  = [(0, 0, [Byte.x01]); (2, 1920, [Byte.x03])].
Proof. vm_compute. reflexivity. Qed.

(** ** [Connect] and [Disconnect] *)

(** X9.  Connect returns nil exactly when the client is not connected and
    the dial, the peer connection, the track and AddTrack all succeed.
    When it returns an error the client is as connected as before, nothing
    was sent and no handler started; on a connected client nothing changes
    at all, and otherwise all it did to the outside was to close what it
    had opened: the peer connection if one was created, then the WebSocket
    connection if the dial had succeeded. *)
Theorem X9_failed_Connect_closes_what_it_opened
    (env : ConnectEnv) (room : string) (c : Client) :
  let r := Connect env room c in
  (r.2 = Nil ↔ connected c = false ∧ all_ok env)
  ∧ (r.2 ≠ Nil →
     connected r.1 = connected c
     ∧ done_closed r.1 = done_closed c
     ∧ rtpSeqNum r.1 = rtpSeqNum c ∧ rtpTimestamp r.1 = rtpTimestamp c
     ∧ (connected c = true → r.1 = c)
     ∧ (connected c = false → effects r.1 = effects c ++ closedOnFailure env)).
Proof.
  unfold Connect, all_ok, closedOnFailure.
  destruct env as [[cn|] [pc|] [tr|] [|]]; destruct (connected c) eqn:Ec; simpl;
    (split; [split; [try done; intros _; repeat split; eauto
                    |intros (? & ? & ? & ? & ?);
                     try done; try (by apply is_Some_None in H);
                     try (by apply is_Some_None in H0);
                     try (by apply is_Some_None in H1)]
            |intros Hne; try done; repeat split; try done;
             try (by rewrite app_nil_r)]).
Qed.

(** The track cannot be created: the peer connection and the WebSocket
    connection are closed again, in this order. *)
Example Connect_fails_at_the_track :
  let r := Connect (mkConnectEnv (Some 1%nat) (Some 2%nat) None true) "test"
                   (NewClient "agent1" "ws://localhost:8080/ws") in
  r.2 = Error "failed to create audio track"
  ∧ effects r.1 = [ClosePeerConnection 2; CloseConn 1]
  ∧ connected r.1 = false.
Proof. vm_compute. done. Qed.

(** X10.  A client cannot be used for a second session.  The channel done
    is made once, by NewClient, and Disconnect closes it; Connect does not
    make a new one.  So after Connect and Disconnect a second Connect still
    succeeds, but the Disconnect that follows it panics on closing the
    closed channel, before it has closed the peer connection or the
    WebSocket connection, and the client stays marked connected. *)
Theorem X10_Disconnect_after_reconnect_panics
    (env1 env2 : ConnectEnv) (room1 room2 : string) (c : Client) :
  connected c = false → done_closed c = false → all_ok env1 → all_ok env2 →
  let c1 := (Connect env1 room1 c).1 in
  let c2 := (Disconnect c1).1 in
  let c3 := (Connect env2 room2 c2).1 in
  (Connect env1 room1 c).2 = Nil
  ∧ (Disconnect c1).2 = Nil ∧ connected c2 = false
  ∧ (Connect env2 room2 c2).2 = Nil ∧ connected c3 = true
  ∧ Disconnect c3 = (c3, Panic "close of closed channel").
Proof.
  intros Hc Hd ([cn1 E1] & [pc1 E2] & [tr1 E3] & E4)
               ([cn2 F1] & [pc2 F2] & [tr2 F3] & F4).
  unfold Connect, Disconnect. rewrite Hc, E1, E2, E3, E4. simpl.
  rewrite Hd. simpl. rewrite F1, F2, F3, F4. simpl. done.
Qed.

Lemma X10_witness :
  let env := mkConnectEnv (Some 1%nat) (Some 2%nat) (Some 3%nat) true in
  let c := NewClient "agent1" "ws://localhost:8080/ws" in
  let c1 := (Connect env "test" c).1 in
  let c2 := (Disconnect c1).1 in
  let c3 := (Connect env "test" c2).1 in
  (Connect env "test" c).2 = Nil
  ∧ (Disconnect c1).2 = Nil ∧ connected c2 = false
  ∧ (Connect env "test" c2).2 = Nil ∧ connected c3 = true
  ∧ Disconnect c3 = (c3, Panic "close of closed channel").
Proof.
  apply (X10_Disconnect_after_reconnect_panics
           (mkConnectEnv (Some 1%nat) (Some 2%nat) (Some 3%nat) true)
           (mkConnectEnv (Some 1%nat) (Some 2%nat) (Some 3%nat) true)
           "test" "test" (NewClient "agent1" "ws://localhost:8080/ws")).
  - reflexivity.
  - reflexivity.
  - vm_compute. eauto 10.
  - vm_compute. eauto 10.
Defined.

(** X11.  WriteOpus looks at the track handle only, never at connected, and
    nothing ever clears the handle.  On a client without a track it
    returns an error and changes nothing; after Connect and Disconnect, and
    also after a Connect that failed in AddTrack (which closes the peer
    connection but has stored the track), it still hands a packet to the
    track and advances the send state. *)
Theorem X11_WriteOpus_looks_only_at_the_track
    (accepted : bool) (opusData : list byte) (room : string) (c : Client) :
  (audioTrack c = None →
   WriteOpus accepted opusData c = (c, Error "audio track not initialized"))
  ∧ (∀ env, connected c = false → done_closed c = false → all_ok env →
       let c2 := (Disconnect (Connect env room c).1).1 in
       connected c2 = false
       ∧ (WriteOpus true opusData c2).2 = Nil
       ∧ emitted_since c2 (WriteOpus true opusData c2).1 =
           [mkPacket (mkHeader 2 false false false 111 (rtpSeqNum c) (rtpTimestamp c)
                               0x12345678) opusData])
  ∧ (∀ cn pc tr, connected c = false →
       let r := Connect (mkConnectEnv (Some cn) (Some pc) (Some tr) false) room c in
       r.2 = Error "failed to add track"
       ∧ connected r.1 = false
       ∧ (WriteOpus true opusData r.1).2 = Nil
       ∧ emitted_since r.1 (WriteOpus true opusData r.1).1 =
           [mkPacket (mkHeader 2 false false false 111 (rtpSeqNum c) (rtpTimestamp c)
                               0x12345678) opusData]).
Proof.
  split; [|split].
  - intros E. unfold WriteOpus. by rewrite E.
  - intros env Hc Hd ([cn1 E1] & [pc1 E2] & [tr1 E3] & E4) c2.
    assert (Htr : audioTrack c2 = Some tr1
                  ∧ rtpSeqNum c2 = rtpSeqNum c ∧ rtpTimestamp c2 = rtpTimestamp c
                  ∧ connected c2 = false).
    { unfold c2, Connect, Disconnect. rewrite Hc, E1, E2, E3, E4. simpl.
      rewrite Hd. done. }
    destruct Htr as (Htr & Hs & Ht & Hcon).
    destruct (WriteOpus_accepted opusData c2 tr1 Htr) as (_ & _ & _ & He & Hn).
    split; [done|]. split; [done|].
    unfold emitted_since. rewrite He, drop_app_length, Hs, Ht. done.
  - intros cn pc tr Hc r.
    assert (Htr : audioTrack r.1 = Some tr
                  ∧ rtpSeqNum r.1 = rtpSeqNum c ∧ rtpTimestamp r.1 = rtpTimestamp c
                  ∧ connected r.1 = false ∧ r.2 = Error "failed to add track").
    { unfold r, Connect. rewrite Hc. simpl. done. }
    destruct Htr as (Htr & Hs & Ht & Hcon & Hr).
    destruct (WriteOpus_accepted opusData r.1 tr Htr) as (_ & _ & _ & He & Hn).
    split; [done|]. split; [done|]. split; [done|].
    unfold emitted_since. rewrite He, drop_app_length, Hs, Ht. done.
Qed.

(** A packet goes to the track after Disconnect. *)
Example WriteOpus_after_Disconnect :
  let c2 := (Disconnect connectedClient).1 in
  connected c2 = false
  ∧ (WriteOpus true [Byte.x01] c2).2 = Nil
  ∧ length (emitted (WriteOpus true [Byte.x01] c2).1) = 1%nat.
Proof. vm_compute. done. Qed.

(** ** Stream ids *)

Lemma substring_0_length (s : string) : String.substring 0 (String.length s) s = s.
Proof. induction s as [|a s IH]; simpl; [done|]. by rewrite IH. Qed.

(** X12.  The peer id travels in the stream id.  What the client's OnTrack
    callback takes out of the stream id stream-<id> is the id, for every
    id but the empty one: the stream of a peer that joined without an id is
    called stream-, which is no longer than the prefix, and the callback
    reports it as it is.  A stream id that does not start with stream- is
    reported as it is, too. *)
Theorem X12_stream_id_round_trip (id : string) :
  peerIDOfStream (streamID id) = (if decide (id = "") then "stream-" else id)
  ∧ (∀ s, String.substring 0 7 s ≠ "stream-" → peerIDOfStream s = s).
Proof.
  split.
  - unfold peerIDOfStream, streamID. destruct id as [|a id]; [done|].
    rewrite decide_False by done.
    change (String.length ("stream-" +:+ String a id))
      with (7 + String.length (String a id))%nat.
    replace (7 <? 7 + String.length (String a id))%nat with true
      by (symmetry; apply Nat.ltb_lt; simpl; lia).
    replace (7 + String.length (String a id) - 7)%nat
      with (String.length (String a id)) by lia.
    change (String.substring 0 7 ("stream-" +:+ String a id)) with "stream-".
    change (String.substring 7 (String.length (String a id))
              ("stream-" +:+ String a id))
      with (String.substring 0 (String.length (String a id)) (String a id)).
    by rewrite substring_0_length.
  - intros s Hs. unfold peerIDOfStream.
    destruct (String.eqb (String.substring 0 7 s) "stream-") eqn:E.
    + apply String.eqb_eq in E. done.
    + by rewrite andb_false_r.
Qed.

Example stream_ids :
  peerIDOfStream (streamID "agent1") = "agent1"
  ∧ peerIDOfStream (streamID "") = "stream-"
  ∧ peerIDOfStream "audio-agent1" = "audio-agent1".
Proof. vm_compute. done. Qed.

(** ** [RTPPacketizer] *)

Lemma be_value_2 (b0 b1 : byte) :
  be_value [b0; b1] = byte_to_Z b0 * 256 + byte_to_Z b1.
Proof. unfold be_value. simpl. lia. Qed.

Lemma be_value_4 (b0 b1 b2 b3 : byte) :
  be_value [b0; b1; b2; b3]
  = ((byte_to_Z b0 * 256 + byte_to_Z b1) * 256 + byte_to_Z b2) * 256 + byte_to_Z b3.
Proof. unfold be_value. simpl. lia. Qed.

Lemma be_bytes_2 z :
  0 ≤ z < 2 ^ 16 →
  byte_to_Z (byte_of_Z (Z.shiftr z 8)) * 256 + byte_to_Z (byte_of_Z z) = z.
Proof.
  intros Hz. rewrite !byte_to_of_Z, Z.shiftr_div_pow2 by lia.
  change (2 ^ 8) with 256. change (2 ^ 16) with 65536 in Hz.
  pose proof (Z.div_mod z 256 ltac:(lia)).
  rewrite (Z.mod_small (z / 256))
    by (split; [apply Z.div_pos|apply Z.div_lt_upper_bound]; lia).
  lia.
Qed.

Lemma be_bytes_4 z :
  0 ≤ z < 2 ^ 32 →
  ((byte_to_Z (byte_of_Z (Z.shiftr z 24)) * 256
    + byte_to_Z (byte_of_Z (Z.shiftr z 16))) * 256
   + byte_to_Z (byte_of_Z (Z.shiftr z 8))) * 256
  + byte_to_Z (byte_of_Z z) = z.
Proof.
  intros Hz. rewrite !byte_to_of_Z, !Z.shiftr_div_pow2 by lia.
  change (2 ^ 8) with 256. change (2 ^ 16) with 65536.
  change (2 ^ 24) with 16777216. change (2 ^ 32) with 4294967296 in Hz.
  assert (Hq2 : z / 65536 = z / 256 / 256) by (rewrite Z.div_div by lia; done).
  assert (Hq3 : z / 16777216 = z / 256 / 256 / 256)
    by (rewrite !Z.div_div by lia; done).
  rewrite Hq2, Hq3.
  pose proof (Z.div_mod z 256 ltac:(lia)).
  pose proof (Z.div_mod (z / 256) 256 ltac:(lia)).
  pose proof (Z.div_mod (z / 256 / 256) 256 ltac:(lia)).
  rewrite (Z.mod_small (z / 256 / 256 / 256)); [lia|].
  split; [repeat apply Z.div_pos; lia|].
  repeat (apply Z.div_lt_upper_bound; [lia|]). lia.
Qed.

Lemma Packetize_fields opusData p :
  0 ≤ seqNum p < 2 ^ 16 → 0 ≤ timestamp p < 2 ^ 32 → 0 ≤ ssrc p < 2 ^ 32 →
  let packet := (Packetize opusData p).1 in
  length packet = (12 + length opusData)%nat
  ∧ take 2 packet = [byte_of_Z 0x80; byte_of_Z 111]
  ∧ packet_seq packet = seqNum p
  ∧ packet_ts packet = timestamp p
  ∧ packet_ssrc packet = ssrc p
  ∧ drop 12 packet = opusData.
Proof.
  intros Hs Ht Hc. unfold Packetize, packet_seq, packet_ts, packet_ssrc.
  cbn [fst app take drop length].
  rewrite be_value_2, !be_value_4, be_bytes_2, !be_bytes_4 by done. done.
Qed.

Lemma Packetize_all_spec payloads : ∀ p (k0 : nat) seq0 ts0,
  seqNum p = (seq0 + Z.of_nat k0) mod 2 ^ 16 →
  timestamp p = (ts0 + frameSize p * Z.of_nat k0) mod 2 ^ 32 →
  0 ≤ ssrc p < 2 ^ 32 →
  let r := Packetize_all payloads p in
  length r.1 = length payloads
  ∧ seqNum r.2 = (seq0 + Z.of_nat (k0 + length payloads)) mod 2 ^ 16
  ∧ timestamp r.2 = (ts0 + frameSize p * Z.of_nat (k0 + length payloads)) mod 2 ^ 32
  ∧ ssrc r.2 = ssrc p ∧ frameSize r.2 = frameSize p
  ∧ ∀ (k : nat) packet, r.1 !! k = Some packet →
      ∃ opusData, payloads !! k = Some opusData
        ∧ length packet = (12 + length opusData)%nat
        ∧ packet_seq packet = (seq0 + Z.of_nat (k0 + k)) mod 2 ^ 16
        ∧ packet_ts packet = (ts0 + frameSize p * Z.of_nat (k0 + k)) mod 2 ^ 32
        ∧ packet_ssrc packet = ssrc p
        ∧ drop 12 packet = opusData.
Proof.
  induction payloads as [|d ds IH]; intros p k0 seq0 ts0 Hs Ht Hc.
  - simpl. rewrite Nat.add_0_r. repeat split; done.
  - cbn [Packetize_all].
    destruct (Packetize d p) as [packet p1] eqn:E1.
    destruct (Packetize_all ds p1) as [packets p2] eqn:E2.
    assert (Hp1 : p1 = (Packetize d p).2) by (by rewrite E1).
    assert (Hpk : packet = (Packetize d p).1) by (by rewrite E1).
    assert (Hs1 : seqNum p1 = (seq0 + Z.of_nat (S k0)) mod 2 ^ 16).
    { rewrite Hp1. simpl. unfold wrap_uint16. rewrite Hs, Zplus_mod_idemp_l.
      f_equal. lia. }
    assert (Hf1 : frameSize p1 = frameSize p) by (by rewrite Hp1).
    assert (Ht1 : timestamp p1 = (ts0 + frameSize p1 * Z.of_nat (S k0)) mod 2 ^ 32).
    { rewrite Hf1, Hp1. simpl. unfold wrap_uint32. rewrite Ht, Zplus_mod_idemp_l.
      f_equal. lia. }
    assert (Hc1 : 0 ≤ ssrc p1 < 2 ^ 32) by (by rewrite Hp1).
    pose proof (IH p1 (S k0) seq0 ts0 Hs1 Ht1 Hc1) as IH'.
    rewrite E2 in IH'. cbn [fst snd] in IH'.
    destruct IH' as (L & S1 & T1 & C1 & F1 & K). cbn [fst snd].
    rewrite Hf1 in *.
    assert (Hssrc : ssrc p1 = ssrc p) by (by rewrite Hp1).
    split; [simpl; by rewrite L|].
    split; [rewrite S1; f_equal; simpl; lia|].
    split; [rewrite T1; do 2 f_equal; simpl; lia|].
    split; [congruence|]. split; [congruence|].
    intros [|k] pk Hk; simpl in Hk.
    + injection Hk as <-. exists d. split; [done|].
      destruct (Packetize_fields d p) as (A1 & _ & A3 & A4 & A5 & A6).
      { rewrite Hs. apply Z.mod_pos_bound. lia. }
      { rewrite Ht. apply Z.mod_pos_bound. lia. }
      { done. }
      rewrite Hpk, A1, A3, A4, A5, A6, Nat.add_0_r. done.
    + destruct (K k pk Hk) as (od & B1 & B2 & B3 & B4 & B5 & B6).
      exists od. split; [done|]. rewrite B3, B4, B5, Hssrc.
      repeat split; try done; do 2 f_equal; lia.
Qed.

(** X13.  RTPPacketizer numbers its packets.  Of the packets a new
    packetizer makes for a run of payloads, the k-th is 12 header bytes
    followed by the k-th payload unchanged; read back big-endian, its
    header carries sequence number k mod 2^16, timestamp k times the frame
    size mod 2^32, and the SSRC the packetizer was made with. *)
Theorem X13_Packetize_numbers_the_packets
    (ssrc0 sampleRate0 frameSize0 : Z) (payloads : list (list byte)) :
  0 ≤ ssrc0 < 2 ^ 32 →
  let p := NewRTPPacketizer ssrc0 sampleRate0 frameSize0 in
  let r := Packetize_all payloads p in
  length r.1 = length payloads
  ∧ seqNum r.2 = Z.of_nat (length payloads) mod 2 ^ 16
  ∧ ∀ (k : nat) packet, r.1 !! k = Some packet →
      ∃ opusData, payloads !! k = Some opusData
        ∧ length packet = (12 + length opusData)%nat
        ∧ drop 12 packet = opusData
        ∧ packet_seq packet = Z.of_nat k mod 2 ^ 16
        ∧ packet_ts packet = (frameSize0 mod 2 ^ 32 * Z.of_nat k) mod 2 ^ 32
        ∧ packet_ssrc packet = ssrc0.
Proof.
  intros Hc p r.
  destruct (Packetize_all_spec payloads p 0 0 0) as (L & S1 & _ & _ & _ & K).
  { reflexivity. }
  { simpl. by rewrite Z.mul_0_r. }
  { done. }
  split; [done|]. split; [done|].
  intros k packet Hk. destruct (K k packet Hk) as (od & B1 & B2 & B3 & B4 & B5 & B6).
  exists od. repeat split; done.
Qed.

Lemma X13_witness :
  let p := NewRTPPacketizer 0x12345678 48000 960 in
  let r := Packetize_all [[Byte.x01]; []; [Byte.x02; Byte.x03]] p in
  length r.1 = length [[Byte.x01]; []; [Byte.x02; Byte.x03]]
  ∧ seqNum r.2 = Z.of_nat (length [[Byte.x01]; []; [Byte.x02; Byte.x03]]) mod 2 ^ 16
  ∧ ∀ (k : nat) packet, r.1 !! k = Some packet →
      ∃ opusData, [[Byte.x01]; []; [Byte.x02; Byte.x03]] !! k = Some opusData
        ∧ length packet = (12 + length opusData)%nat
        ∧ drop 12 packet = opusData
        ∧ packet_seq packet = Z.of_nat k mod 2 ^ 16
        ∧ packet_ts packet = (960 mod 2 ^ 32 * Z.of_nat k) mod 2 ^ 32
        ∧ packet_ssrc packet = 0x12345678.
Proof.
  apply (X13_Packetize_numbers_the_packets 0x12345678 48000 960
           [[Byte.x01]; []; [Byte.x02; Byte.x03]]).
  lia.
Defined.

End ClientSpec.

(* ===================================================================== *)
(** * The test audio generator *)
(* ===================================================================== *)

Module GeneratorSpec.

Import Bytes BytesSpec Audio Generator.
Local Open Scope Z_scope.

Lemma GenerateFrame_step (g : SimpleAudioGenerator) :
  GenerateFrame g =
    Ok ((Rtp.Packetize silenceFrame (packetizerOf g)).1,
        mkSimpleAudioGenerator (sampleRate g) (channels g) (frameSize g)
          (wrap_uint16 (seqNum g + 1))
          (wrap_uint32 (timestamp g + wrap_uint32 (frameSize g)))).
Proof.
  unfold GenerateFrame, Rtp.Packetize, packetizerOf, silenceFrame.
  cbn [Rtp.seqNum Rtp.timestamp Rtp.ssrc fst app].
  generalize (byte_of_Z (Z.shiftr (seqNum g) 8)) (byte_of_Z (seqNum g))
             (byte_of_Z (Z.shiftr (timestamp g) 24))
             (byte_of_Z (Z.shiftr (timestamp g) 16))
             (byte_of_Z (Z.shiftr (timestamp g) 8)) (byte_of_Z (timestamp g)).
  intros b2 b3 b4 b5 b6 b7. reflexivity.
Qed.

(** X14.  The test generator is the packetizer in disguise: GenerateFrame
    never faults, and the 15 bytes it returns are, for every state of the
    generator, the packet that RTPPacketizer.Packetize makes of the payload
    FC FF FE with SSRC 1 in the same state; the two also move to the same
    next state. *)
Theorem X14_GenerateFrame_is_a_Packetize_step (g : SimpleAudioGenerator) :
  ∃ g', GenerateFrame g = Ok ((Rtp.Packetize silenceFrame (packetizerOf g)).1, g')
        ∧ packetizerOf g' = (Rtp.Packetize silenceFrame (packetizerOf g)).2
        ∧ sampleRate g' = sampleRate g ∧ channels g' = channels g
        ∧ frameSize g' = frameSize g.
Proof.
  eexists. split; [apply GenerateFrame_step|]. split; [|done].
  reflexivity.
Qed.

Lemma StartGenerating_ticks (n : nat) : ∀ stop client g written (k0 : nat) seq0 ts0 tr,
  Rtp.audioTrack client = Some tr →
  seqNum g = (seq0 + Z.of_nat k0) mod 2 ^ 16 →
  timestamp g = (ts0 + frameSize g mod 2 ^ 32 * Z.of_nat k0) mod 2 ^ 32 →
  ∃ g' frames,
    StartGenerating (replicate n (Tick true) ++ stop) client g written
      = StartGenerating stop client g' (written ++ frames)
    ∧ length frames = n
    ∧ frameSize g' = frameSize g
    ∧ seqNum g' = (seq0 + Z.of_nat (k0 + n)) mod 2 ^ 16
    ∧ timestamp g' = (ts0 + frameSize g mod 2 ^ 32 * Z.of_nat (k0 + n)) mod 2 ^ 32
    ∧ ∀ (k : nat) frame, frames !! k = Some frame →
        length frame = 15%nat
        ∧ drop 12 frame = silenceFrame
        ∧ Rtp.packet_seq frame = (seq0 + Z.of_nat (k0 + k)) mod 2 ^ 16
        ∧ Rtp.packet_ts frame
            = (ts0 + frameSize g mod 2 ^ 32 * Z.of_nat (k0 + k)) mod 2 ^ 32
        ∧ Rtp.packet_ssrc frame = 1.
Proof.
  induction n as [|n IH]; intros stop client g written k0 seq0 ts0 tr Htr Hs Ht.
  - exists g, []. simpl. rewrite app_nil_r, Nat.add_0_r. repeat split; done.
  - cbn [replicate app StartGenerating]. rewrite GenerateFrame_step.
    cbn [mbind result_bind bind]. unfold WriteRTP. rewrite Htr.
    set (g1 := mkSimpleAudioGenerator _ _ _ _ _).
    set (frame := (Rtp.Packetize silenceFrame (packetizerOf g)).1).
    destruct (IH stop client g1 (written ++ [frame]) (S k0) seq0 ts0 tr Htr)
      as (g' & frames & E & L & F & S1 & T1 & K).
    { unfold g1. simpl. unfold wrap_uint16. rewrite Hs, Zplus_mod_idemp_l.
      f_equal. lia. }
    { unfold g1. simpl. unfold wrap_uint32. rewrite Ht, Zplus_mod_idemp_l.
      f_equal. lia. }
    exists g', (frame :: frames). rewrite E, <- app_assoc. simpl.
    split; [done|]. split; [by rewrite L|]. split; [done|].
    split; [rewrite S1; f_equal; lia|].
    split; [rewrite T1; unfold g1; simpl; do 2 f_equal; lia|].
    intros [|k] fr Hk; simpl in Hk.
    + injection Hk as <-.
      destruct (ClientSpec.Packetize_fields silenceFrame (packetizerOf g))
        as (A1 & _ & A3 & A4 & A5 & A6).
      { simpl. rewrite Hs. apply Z.mod_pos_bound. lia. }
      { simpl. rewrite Ht. apply Z.mod_pos_bound. lia. }
      { simpl. lia. }
      fold frame in A1, A3, A4, A5, A6.
      rewrite A1, A3, A4, A5, A6, Nat.add_0_r. simpl. done.
    + destruct (K k fr Hk) as (B1 & B2 & B3 & B4 & B5).
      rewrite B3, B4. unfold g1. simpl.
      repeat split; try done; do 2 f_equal; lia.
Qed.

(** X15.  StartGenerating, run on a client that has a track.  While the
    ticker fires and the track takes the writes, it writes one 15-byte
    frame per tick; the k-th carries the payload FC FF FE, SSRC 1, sequence
    number (initial + k) mod 2^16 and timestamp (initial + k times the
    frame size) mod 2^32.  It stops, with nothing more written, when done
    is closed or when a write fails. *)
Theorem X15_StartGenerating_writes_numbered_frames
    (n : nat) (stop : list Event) (client : Rtp.Client) (g : SimpleAudioGenerator) :
  is_Some (Rtp.audioTrack client) →
  0 ≤ seqNum g < 2 ^ 16 → 0 ≤ timestamp g < 2 ^ 32 →
  head stop ≠ Some (Tick true) →
  ∃ g' frames,
    StartGenerating (replicate n (Tick true) ++ stop) client g [] = Ok (g', frames)
    ∧ length frames = n
    ∧ ∀ (k : nat) frame, frames !! k = Some frame →
        length frame = 15%nat
        ∧ drop 12 frame = silenceFrame
        ∧ Rtp.packet_seq frame = (seqNum g + Z.of_nat k) mod 2 ^ 16
        ∧ Rtp.packet_ts frame
            = (timestamp g + frameSize g mod 2 ^ 32 * Z.of_nat k) mod 2 ^ 32
        ∧ Rtp.packet_ssrc frame = 1.
Proof.
  intros [tr Htr] Hs Ht Hstop.
  destruct (StartGenerating_ticks n stop client g [] 0 (seqNum g) (timestamp g) tr Htr)
    as (g' & frames & E & L & F & S1 & T1 & K).
  { rewrite Z.add_0_r, Z.mod_small; lia. }
  { rewrite Z.mul_0_r, Z.add_0_r, Z.mod_small; lia. }
  rewrite E, app_nil_l.
  destruct stop as [|[|[|]] rest]; cbn [StartGenerating].
  - exists g', frames. split; [done|]. split; [done|]. apply K.
  - exists g', frames. split; [done|]. split; [done|]. apply K.
  - done.
  - rewrite GenerateFrame_step. cbn [mbind result_bind bind]. unfold WriteRTP.
    rewrite Htr. eexists _, frames. split; [done|]. split; [done|]. apply K.
Qed.

Lemma X15_witness :
  ∃ g' frames,
    StartGenerating (replicate 3 (Tick true) ++ [Done]) Rtp.connectedClient
                    NewSimpleAudioGenerator [] = Ok (g', frames)
    ∧ length frames = 3%nat
    ∧ ∀ (k : nat) frame, frames !! k = Some frame →
        length frame = 15%nat
        ∧ drop 12 frame = silenceFrame
        ∧ Rtp.packet_seq frame = (seqNum NewSimpleAudioGenerator + Z.of_nat k) mod 2 ^ 16
        ∧ Rtp.packet_ts frame
            = (timestamp NewSimpleAudioGenerator
               + frameSize NewSimpleAudioGenerator mod 2 ^ 32 * Z.of_nat k) mod 2 ^ 32
        ∧ Rtp.packet_ssrc frame = 1.
Proof.
  apply (X15_StartGenerating_writes_numbered_frames 3 [Done] Rtp.connectedClient
           NewSimpleAudioGenerator).
  - vm_compute. eauto.
  - vm_compute. split; congruence.
  - vm_compute. split; congruence.
  - simpl. congruence.
Defined.

(** The first two frames of a new generator. *)
Example first_two_frames :
  match GenerateFrame NewSimpleAudioGenerator with
  | Ok (frame1, g1) =>
      match GenerateFrame g1 with
      | Ok (frame2, _) => (byte_to_Z <$> frame1, byte_to_Z <$> frame2)
      | Panicked _ => ([], [])
      end
  | Panicked _ => ([], [])
  end
  = ([128; 111; 0; 0; 0; 0; 0; 0; 0; 0; 0; 1; 252; 255; 254],
     [128; 111; 0; 1; 0; 0; 3; 192; 0; 0; 0; 1; 252; 255; 254]).
Proof. vm_compute. reflexivity. Qed.

End GeneratorSpec.

(* ===================================================================== *)
(** * PCM bytes and samples: encoder, decoder and the way to transcription *)
(* ===================================================================== *)

Module PcmSpec.

Import Bytes BytesSpec Audio Float64Spec AudioSpec.
Local Open Scope Z_scope.

(** ** Two bytes and one sample *)

Lemma lor_shiftl_8 a b :
  0 ≤ a < 256 → Z.lor a (Z.shiftl b 8) = a + 256 * b.
Proof.
  intros Ha. rewrite Z.shiftl_mul_pow2 by lia. change (2 ^ 8) with 256.
  rewrite <- Z.lxor_lor.
  - rewrite <- Z.add_nocarry_lxor; [lia|].
    apply Z.bits_inj'. intros n Hn. rewrite Z.land_spec, Z.bits_0.
    destruct (decide (n < 8)) as [Hlt|Hge].
    + replace (b * 256) with (b * 2 ^ 8) by lia.
      rewrite Z.mul_pow2_bits_low by lia. apply andb_false_r.
    + replace a with (a mod 2 ^ 8) by (apply Z.mod_small; lia).
      rewrite Z.mod_pow2_bits_high by lia. done.
  - apply Z.bits_inj'. intros n Hn. rewrite Z.land_spec, Z.bits_0.
    destruct (decide (n < 8)) as [Hlt|Hge].
    + replace (b * 256) with (b * 2 ^ 8) by lia.
      rewrite Z.mul_pow2_bits_low by lia. apply andb_false_r.
    + replace a with (a mod 2 ^ 8) by (apply Z.mod_small; lia).
      rewrite Z.mod_pow2_bits_high by lia. done.
Qed.

Lemma int16_of_bytes_eq b0 b1 :
  int16_of_bytes b0 b1 = wrap_int16 (byte_to_Z b0 + 256 * byte_to_Z b1).
Proof.
  unfold int16_of_bytes. by rewrite lor_shiftl_8 by apply byte_to_Z_range.
Qed.

Lemma int16_of_bytes_int16 b0 b1 : int16 (int16_of_bytes b0 b1).
Proof.
  unfold int16, int16_of_bytes, wrap_int16.
  pose proof (Z.mod_pos_bound
    (Z.lor (byte_to_Z b0) (Z.shiftl (byte_to_Z b1) 8) + 2 ^ 15) (2 ^ 16) ltac:(lia)).
  lia.
Qed.

Lemma wrap_int16_int16 x : int16 (wrap_int16 x).
Proof.
  unfold int16, wrap_int16.
  pose proof (Z.mod_pos_bound (x + 2 ^ 15) (2 ^ 16) ltac:(lia)). lia.
Qed.

Lemma wrap_int16_id x : int16 x → wrap_int16 x = x.
Proof. unfold int16, wrap_int16. intros Hx. rewrite Z.mod_small; lia. Qed.

(** The two bytes written for a sample read back as the sample. *)
Lemma sample_bytes_sample s :
  int16 s →
  int16_of_bytes (byte_of_Z (wrap_uint16 s)) (byte_of_Z (Z.shiftr (wrap_uint16 s) 8)) = s.
Proof.
  intros Hs. rewrite int16_of_bytes_eq, !byte_to_of_Z.
  unfold wrap_uint16, wrap_int16, int16 in *.
  rewrite Z.shiftr_div_pow2 by lia.
  change (2 ^ 8) with 256. change (2 ^ 16) with 65536. change (2 ^ 15) with 32768 in *.
  div_mod_lia.
Qed.

(** The sample read from two bytes is written back as the two bytes. *)
Lemma bytes_sample_bytes b0 b1 :
  byte_of_Z (wrap_uint16 (int16_of_bytes b0 b1)) = b0
  ∧ byte_of_Z (Z.shiftr (wrap_uint16 (int16_of_bytes b0 b1)) 8) = b1.
Proof.
  rewrite int16_of_bytes_eq.
  pose proof (byte_to_Z_range b0) as H0. pose proof (byte_to_Z_range b1) as H1.
  assert (E : wrap_uint16 (wrap_int16 (byte_to_Z b0 + 256 * byte_to_Z b1))
              = byte_to_Z b0 + 256 * byte_to_Z b1).
  { unfold wrap_uint16, wrap_int16.
    change (2 ^ 16) with 65536. change (2 ^ 15) with 32768. div_mod_lia. }
  rewrite E. split; apply byte_of_Z_eq.
  - div_mod_lia.
  - rewrite Z.shiftr_div_pow2 by lia. change (2 ^ 8) with 256. div_mod_lia.
Qed.

(** ** [samplesOf] and [bytesOf] *)

Lemma length_samplesOf (b : list byte) : length (samplesOf b) = (length b / 2)%nat.
Proof.
  induction b as [| |b0 b1 b IH] using list_ind2; [done..|].
  cbn [samplesOf length]. rewrite IH.
  change (S (S (length b))) with (2 + length b)%nat.
  rewrite (Nat.div_add_l 1 2) by lia. lia.
Qed.

Lemma len_samplesOf (b : list byte) : len (samplesOf b) = len b / 2.
Proof.
  unfold len. rewrite length_samplesOf. rewrite Nat2Z.inj_div. done.
Qed.

Lemma lookup_samplesOf (b : list byte) : ∀ (j : nat) b0 b1,
  b !! (2 * j)%nat = Some b0 → b !! (2 * j + 1)%nat = Some b1 →
  samplesOf b !! j = Some (int16_of_bytes b0 b1).
Proof.
  induction b as [| |x y b IH] using list_ind2; intros j b0 b1 H0 H1.
  - by rewrite lookup_nil in H0.
  - destruct j; simpl in *; [done|]. replace (j + S (j + 0) + 1)%nat with (S (S (2 * j)))%nat in H1 by lia.
    done.
  - destruct j as [|j].
    + simpl in *. congruence.
    + replace (2 * S j)%nat with (S (S (2 * j))) in H0 by lia.
      replace (2 * S j + 1)%nat with (S (S (2 * j + 1))) in H1 by lia.
      simpl in H0, H1. cbn [samplesOf]. simpl. by apply IH.
Qed.

Lemma Forall_int16_samplesOf (b : list byte) : Forall int16 (samplesOf b).
Proof.
  induction b as [| |x y b IH] using list_ind2; cbn [samplesOf]; try constructor.
  - apply int16_of_bytes_int16.
  - done.
Qed.

Lemma length_bytesOf (pcm : list Z) : length (bytesOf pcm) = (2 * length pcm)%nat.
Proof. induction pcm as [|s pcm IH]; simpl; [done|]. rewrite IH. lia. Qed.

Lemma bytesOf_app (l k : list Z) : bytesOf (l ++ k) = bytesOf l ++ bytesOf k.
Proof. induction l as [|s l IH]; simpl; [done|]. by rewrite IH. Qed.

Lemma samplesOf_bytesOf (pcm : list Z) : Forall int16 pcm → samplesOf (bytesOf pcm) = pcm.
Proof.
  induction 1 as [|s pcm Hs _ IH]; simpl; [done|].
  by rewrite sample_bytes_sample, IH.
Qed.

Lemma bytesOf_samplesOf (b : list byte) :
  bytesOf (samplesOf b) = take (2 * (length b / 2)) b.
Proof.
  induction b as [| |x y b IH] using list_ind2; [done..|].
  cbn [samplesOf bytesOf]. destruct (bytes_sample_bytes x y) as [-> ->].
  rewrite IH. change (length (x :: y :: b)) with (2 + length b)%nat.
  rewrite (Nat.div_add_l 1 2) by lia.
  replace (2 * (1 + length b / 2))%nat with (S (S (2 * (length b / 2)))) by lia.
  done.
Qed.

(** ** [EncodeBytes] *)

Section Encoder.
Context `{Opus}.

Lemma EncodeBytes_samples (pcmBytes : list byte) (e : OpusEncoder) :
  EncodeBytes pcmBytes e = Ok (Encode (samplesOf pcmBytes) e).
Proof.
  unfold EncodeBytes. set (n := len pcmBytes / 2).
  pose proof (len_nonneg pcmBytes) as Hnn.
  assert (Hn : 0 ≤ n ∧ 2 * n ≤ len pcmBytes) by (unfold n; div_mod_lia).
  rewrite make_ok by lia. rewrite bind_Ok.
  destruct (forLoop_inv
    (λ i pcm, len pcm = n
              ∧ ∀ j : nat, Z.of_nat j < i → pcm !! j = samplesOf pcmBytes !! j)
    (λ i pcm, u ← Uint16_at pcmBytes (i * 2); store pcm i (wrap_int16 u))
    (Z.to_nat n) 0 (replicate (Z.to_nat n) 0)) as (pcm & -> & Hlen & Hpcm).
  - split; [|intros; lia]. unfold len. rewrite length_replicate. lia.
  - intros j t Hj [Ht Hpre].
    destruct (Uint16_at_ok pcmBytes (j * 2) ltac:(lia) ltac:(lia))
      as (b0 & b1 & H0 & H1 & ->).
    rewrite bind_Ok, store_ok by lia. eexists. split; [done|]. split.
    + unfold len in *. by rewrite length_insert.
    + intros k Hk. destruct (decide (Z.of_nat k = j)) as [<-|Hne].
      * rewrite Nat2Z.id, list_lookup_insert_eq by (unfold len in Ht; lia).
        symmetry. apply lookup_samplesOf.
        -- rewrite <- H0. f_equal. lia.
        -- rewrite <- H1. f_equal. lia.
      * rewrite list_lookup_insert_ne by lia. apply Hpre. lia.
  - rewrite bind_Ok. do 2 f_equal. apply list_eq. intros j.
    destruct (decide (Z.of_nat j < n)) as [Hlt|Hge].
    + apply Hpcm. lia.
    + rewrite !lookup_ge_None_2; [done| |].
      * pose proof (len_samplesOf pcmBytes). unfold len in *. fold n in H0. lia.
      * unfold len in Hlen. lia.
Qed.

(** X16.  EncodeBytes never faults, whatever the bytes.  What it hands to
    libopus are the bytes read two by two as little-endian signed 16-bit
    samples: half as many samples as bytes, each in the 16-bit range, the
    j-th made of bytes 2j and 2j+1; an odd last byte is not read, so the
    input with that byte removed is encoded the same. *)
Theorem X16_EncodeBytes_reads_little_endian_samples
    (pcmBytes : list byte) (e : OpusEncoder) :
  EncodeBytes pcmBytes e = Ok (Encode (samplesOf pcmBytes) e)
  ∧ len (samplesOf pcmBytes) = len pcmBytes / 2
  ∧ Forall int16 (samplesOf pcmBytes)
  ∧ (∀ (j : nat) b0 b1,
       pcmBytes !! (2 * j)%nat = Some b0 → pcmBytes !! (2 * j + 1)%nat = Some b1 →
       samplesOf pcmBytes !! j
         = Some (wrap_int16 (byte_to_Z b0 + 256 * byte_to_Z b1)))
  ∧ EncodeBytes (take (2 * (length pcmBytes / 2)) pcmBytes) e = EncodeBytes pcmBytes e.
Proof.
  split; [apply EncodeBytes_samples|]. split; [apply len_samplesOf|].
  split; [apply Forall_int16_samplesOf|]. split.
  - intros j b0 b1 H0 H1. rewrite <- int16_of_bytes_eq. by apply lookup_samplesOf.
  - rewrite !EncodeBytes_samples. do 2 f_equal.
    rewrite <- bytesOf_samplesOf. apply samplesOf_bytesOf, Forall_int16_samplesOf.
Qed.

End Encoder.

(** ** Loops that fill a slice *)

(** A loop that stores the [k]-th element of [target] at index [k]. *)
Lemma forLoop_fill {A} (zero : A) (target : list A)
    (body : Z → list A → result (list A)) :
  (∀ (k : nat) (t : list A) x,
     target !! k = Some x → length t = length target →
     body (Z.of_nat k) t = Ok (<[k := x]> t)) →
  forLoop (length target) 0 body (replicate (length target) zero) = Ok target.
Proof.
  intros Hbody.
  destruct (forLoop_inv
    (λ i t, length t = length target
            ∧ ∀ j : nat, Z.of_nat j < i → t !! j = target !! j)
    body (length target) 0 (replicate (length target) zero)) as (t & -> & Hlen & Ht).
  - split; [apply length_replicate|]. intros; lia.
  - intros j t Hj [Hlen Hpre].
    destruct (lookup_lt_is_Some_2 target (Z.to_nat j) ltac:(lia)) as [x Hx].
    pose proof (Hbody _ t x Hx Hlen) as Hb. rewrite Z2Nat.id in Hb by lia.
    rewrite Hb. eexists. split; [done|]. split.
    + by rewrite length_insert.
    + intros k Hk. destruct (decide (k = Z.to_nat j)) as [->|Hne].
      * rewrite list_lookup_insert_eq by lia. done.
      * rewrite list_lookup_insert_ne by done. apply Hpre. lia.
  - f_equal. apply list_eq. intros j.
    destruct (decide (j < length target)%nat) as [Hlt|Hge].
    + apply Ht. lia.
    + rewrite !lookup_ge_None_2; [done|lia|lia].
Qed.

Lemma length_bind_pairs {A B} (f g : A → B) (l : list A) :
  length (l ≫= (λ s, [f s; g s])) = (2 * length l)%nat.
Proof.
  induction l as [|x l IH]; [done|].
  change (length (f x :: g x :: (l ≫= (λ s, [f s; g s]))) = (2 * length (x :: l))%nat).
  simpl length. rewrite IH. lia.
Qed.

(** A loop that stores two bytes for the [k]-th sample at [2k] and [2k+1]. *)
Lemma forLoop_fill_bytes (pcm : list Z) (lo hi : Z → byte)
    (body : Z → list byte → result (list byte)) :
  (∀ (k : nat) (t : list byte) s,
     pcm !! k = Some s → length t = (2 * length pcm)%nat →
     body (Z.of_nat k) t = Ok (<[(2 * k + 1)%nat := hi s]> (<[(2 * k)%nat := lo s]> t))) →
  forLoop (length pcm) 0 body (replicate (2 * length pcm) Byte.x00)
    = Ok (pcm ≫= (λ s, [lo s; hi s])).
Proof.
  intros Hbody.
  destruct (forLoop_inv
    (λ i t, ∃ k : nat, Z.of_nat k = i ∧ (k ≤ length pcm)%nat
            ∧ t = (take k pcm ≫= (λ s, [lo s; hi s]))
                    ++ replicate (2 * (length pcm - k)) Byte.x00)
    body (length pcm) 0 (replicate (2 * length pcm) Byte.x00))
    as (t & -> & k & Hk & Hle & ->).
  - exists 0%nat. split; [done|]. split; [lia|]. rewrite take_0. simpl.
    by rewrite Nat.sub_0_r.
  - intros j t Hj (k & <- & Hle & ->).
    destruct (lookup_lt_is_Some_2 pcm k ltac:(lia)) as [s Hs].
    assert (Hpre : length (take k pcm ≫= (λ s, [lo s; hi s])) = (2 * k)%nat).
    { rewrite length_bind_pairs, length_take. lia. }
    rewrite (Hbody k _ s Hs).
    2:{ rewrite length_app, Hpre, length_replicate. lia. }
    eexists. split; [done|]. exists (S k). split; [lia|]. split; [lia|].
    replace (2 * (length pcm - k))%nat with (S (S (2 * (length pcm - S k)))) by lia.
    rewrite (take_S_r _ _ s Hs), bind_app. simpl.
    rewrite !insert_app_r_alt by lia. rewrite Hpre.
    replace (k + (k + 0) - 2 * k)%nat with 0%nat by lia.
    replace (k + (k + 0) + 1 - 2 * k)%nat with 1%nat by lia.
    simpl. by rewrite <- app_assoc.
  - f_equal. apply Nat2Z.inj in Hk. subst k.
    rewrite take_ge by lia. rewrite Nat.sub_diag. simpl. apply app_nil_r.
Qed.

Lemma bytesOf_bind (pcm : list Z) :
  bytesOf pcm
  = pcm ≫= (λ s, [byte_of_Z (wrap_uint16 s); byte_of_Z (Z.shiftr (wrap_uint16 s) 8)]).
Proof. induction pcm as [|s pcm IH]; simpl; [done|]. by rewrite IH. Qed.

Lemma PutUint16_at_eq (b : list byte) off v :
  0 ≤ off → off + 2 ≤ len b →
  PutUint16_at b off v
    = Ok (<[Z.to_nat (off + 1) := byte_of_Z (Z.shiftr v 8)]>
            (<[Z.to_nat off := byte_of_Z v]> b)).
Proof.
  intros Hoff Hlen.
  destruct (lookup_lt_len b (off + 1) ltac:(lia)) as [b1 H1].
  unfold PutUint16_at. rewrite sliceFrom_ok by lia. rewrite bind_Ok.
  rewrite (index_ok _ 1 b1); [|lia|].
  2:{ rewrite lookup_drop. rewrite <- H1. f_equal. lia. }
  rewrite bind_Ok. rewrite store_ok by lia. rewrite bind_Ok.
  rewrite store_ok by (unfold len in *; rewrite length_insert; lia).
  done.
Qed.

(** The conversion loop of [DecodeToBytes]. *)
Lemma samples_to_bytes (pcm : list Z) :
  len pcm < 2 ^ 62 →
  ∃ bytes0,
    make Byte.x00 (wrap_int64 (len pcm * 2)) = Ok bytes0
    ∧ forLoop (length pcm) 0
        (λ i bytes,
           sample ← index pcm i;
           PutUint16_at bytes (wrap_int64 (i * 2)) (wrap_uint16 sample))
        bytes0
      = Ok (bytesOf pcm).
Proof.
  intros Hlen. pose proof (len_nonneg pcm) as Hnn.
  rewrite wrap_int64_small by lia. rewrite make_ok by lia.
  eexists. split; [done|].
  replace (Z.to_nat (len pcm * 2)) with (2 * length pcm)%nat by (unfold len; lia).
  rewrite bytesOf_bind. apply forLoop_fill_bytes.
  intros k t s Hs Ht.
  assert (Hk : (k < length pcm)%nat) by (by apply lookup_lt_Some in Hs).
  unfold len in *.
  rewrite (index_ok pcm _ s); [|lia|by rewrite Nat2Z.id].
  rewrite bind_Ok, wrap_int64_small by lia.
  rewrite PutUint16_at_eq by (unfold len; lia).
  do 3 f_equal; lia.
Qed.

(** ** The decoder *)

Section Codec.
Context `{Decoder.OpusDec} `{Opus}.

Import Decoder.

Lemma Decode_Some opusData d d' pcm :
  0 ≤ channels d < 2 ^ 32 →
  Decode opusData d = Ok (d', Some pcm) →
  Forall int16 pcm ∧ len pcm ≤ 5760 * channels d.
Proof.
  intros Hch. unfold Decode.
  rewrite wrap_int64_small by lia. rewrite make_ok by lia. rewrite bind_Ok.
  destruct (opus_Decode (decoder d) opusData
              (replicate (Z.to_nat (5760 * channels d)) 0)) as [st r] eqn:E.
  destruct r as [[n pcm']|]; [|done].
  pose proof (opus_Decode_length _ _ _ _ _ _ E) as Hl.
  pose proof (opus_Decode_int16 _ _ _ _ _ _ E) as Hi.
  rewrite length_replicate in Hl.
  unfold slice. destruct (_ || _); [done|]. simpl. intros [= _ <-]. split.
  - by apply Forall_take, Forall_drop.
  - unfold len. rewrite length_take, length_drop. lia.
Qed.

(** X17.  DecodeToBytes and EncodeBytes agree on how samples are written
    as bytes.  Whenever Decode gives samples, DecodeToBytes gives two bytes
    for each, and these bytes read back as the very samples: EncodeBytes on
    them hands libopus what the decoder had returned.  An error or a fault
    of Decode is passed on, and the conversion itself never faults. *)
Theorem X17_DecodeToBytes_then_EncodeBytes
    (opusData : list byte) (d : OpusDecoder) (e : OpusEncoder) :
  0 ≤ channels d < 2 ^ 32 →
  match Decode opusData d with
  | Ok (d', Some pcm) =>
      DecodeToBytes opusData d = Ok (d', Some (bytesOf pcm))
      ∧ len (bytesOf pcm) = 2 * len pcm
      ∧ samplesOf (bytesOf pcm) = pcm
      ∧ EncodeBytes (bytesOf pcm) e = Ok (Encode pcm e)
  | Ok (d', None) => DecodeToBytes opusData d = Ok (d', None)
  | Panicked k => DecodeToBytes opusData d = Panicked k
  end.
Proof.
  intros Hch. unfold DecodeToBytes.
  destruct (Decode opusData d) as [[d' [pcm|]]|k] eqn:E; [|done..].
  destruct (Decode_Some _ _ _ _ Hch E) as [Hi Hl].
  rewrite bind_Ok.
  destruct (samples_to_bytes pcm ltac:(lia)) as (bytes0 & -> & Hb).
  rewrite bind_Ok, Hb, bind_Ok.
  split; [done|]. split; [|split].
  - unfold len. rewrite length_bytesOf. lia.
  - by apply samplesOf_bytesOf.
  - rewrite EncodeBytes_samples. by rewrite samplesOf_bytesOf.
Qed.

End Codec.

Lemma X17_witness :
  let d := Decoder.NewOpusDecoder (H := Decoder.demoDec) () 48000 2 in
  let e := NewOpusEncoder (H := demoOpus) demoEncoder 48000 2 960 in
  match Decoder.Decode [Byte.xff; Byte.x01] d with
  | Ok (d', Some pcm) =>
      Decoder.DecodeToBytes [Byte.xff; Byte.x01] d = Ok (d', Some (bytesOf pcm))
      ∧ len (bytesOf pcm) = 2 * len pcm
      ∧ samplesOf (bytesOf pcm) = pcm
      ∧ EncodeBytes (bytesOf pcm) e = Ok (Encode pcm e)
  | Ok (d', None) => Decoder.DecodeToBytes [Byte.xff; Byte.x01] d = Ok (d', None)
  | Panicked k => Decoder.DecodeToBytes [Byte.xff; Byte.x01] d = Panicked k
  end.
Proof.
  apply (X17_DecodeToBytes_then_EncodeBytes (H := Decoder.demoDec) (H0 := demoOpus)
           [Byte.xff; Byte.x01]
           (Decoder.NewOpusDecoder (H := Decoder.demoDec) () 48000 2)
           (NewOpusEncoder (H := demoOpus) demoEncoder 48000 2 960)).
  simpl. lia.
Defined.

(** One packet through the example decoder: the sample 255 on both
    channels. *)
Example DecodeToBytes_demo :
  (Decoder.Decode (H := Decoder.demoDec) [Byte.xff; Byte.x01]
     (Decoder.NewOpusDecoder (H := Decoder.demoDec) () 48000 2)
   = Ok (Decoder.NewOpusDecoder (H := Decoder.demoDec) () 48000 2, Some [255; 255]))
  ∧ Decoder.DecodeToBytes (H := Decoder.demoDec) [Byte.xff; Byte.x01]
      (Decoder.NewOpusDecoder (H := Decoder.demoDec) () 48000 2)
    = Ok (Decoder.NewOpusDecoder (H := Decoder.demoDec) () 48000 2,
          Some [Byte.xff; Byte.x00; Byte.xff; Byte.x00]).
Proof. vm_compute. done. Qed.

(** ** The AssemblyAI client's conversions *)

Import AssemblyAI.

Lemma lor_wrap_shiftl (b0 b1 : byte) :
  Z.lor (byte_to_Z b0) (wrap_int16 (Z.shiftl (byte_to_Z b1) 8)) = int16_of_bytes b0 b1.
Proof.
  rewrite int16_of_bytes_eq.
  pose proof (byte_to_Z_range b0) as H0. pose proof (byte_to_Z_range b1) as H1.
  rewrite Z.shiftl_mul_pow2 by lia. change (2 ^ 8) with 256.
  destruct (decide (byte_to_Z b1 < 128)) as [Hlt|Hge].
  - rewrite !wrap_int16_id by (unfold int16; change (2 ^ 15) with 32768; lia).
    replace (byte_to_Z b1 * 256) with (Z.shiftl (byte_to_Z b1) 8)
      by (rewrite Z.shiftl_mul_pow2 by lia; done).
    by apply lor_shiftl_8.
  - assert (E1 : wrap_int16 (byte_to_Z b1 * 256) = Z.shiftl (byte_to_Z b1 - 256) 8).
    { rewrite Z.shiftl_mul_pow2 by lia. unfold wrap_int16.
      change (2 ^ 8) with 256. change (2 ^ 16) with 65536. change (2 ^ 15) with 32768.
      div_mod_lia. }
    rewrite E1, lor_shiftl_8 by done. unfold wrap_int16.
    change (2 ^ 16) with 65536. change (2 ^ 15) with 32768. div_mod_lia.
Qed.

Lemma toSamples_eq (pcmData : list byte) : toSamples pcmData = Ok (samplesOf pcmData).
Proof.
  unfold toSamples. pose proof (len_nonneg pcmData) as Hnn.
  rewrite make_ok by (apply Z.div_pos; lia). rewrite bind_Ok.
  assert (Hn : Z.to_nat (len pcmData / 2) = length (samplesOf pcmData)).
  { rewrite <- len_samplesOf. unfold len. lia. }
  rewrite length_replicate, Hn. apply forLoop_fill.
  intros k t x Hx Ht.
  assert (Hk : (2 * k + 1 < length pcmData)%nat).
  { apply lookup_lt_Some in Hx. rewrite length_samplesOf in Hx.
    pose proof (Nat.div_mod_eq (length pcmData) 2). lia. }
  destruct (lookup_lt_is_Some_2 pcmData (2 * k) ltac:(lia)) as [b0 H0].
  destruct (lookup_lt_is_Some_2 pcmData (2 * k + 1) ltac:(lia)) as [b1 H1].
  rewrite (lookup_samplesOf _ _ _ _ H0 H1) in Hx. injection Hx as <-.
  rewrite (index_ok pcmData (Z.of_nat k * 2) b0); [|lia|rewrite <- H0; f_equal; lia].
  rewrite bind_Ok.
  rewrite (index_ok pcmData (Z.of_nat k * 2 + 1) b1); [|lia|rewrite <- H1; f_equal; lia].
  rewrite bind_Ok, store_ok.
  - by rewrite Nat2Z.id, lor_wrap_shiftl.
  - apply lookup_lt_Some in H0. unfold len. rewrite Ht, length_samplesOf.
    pose proof (Nat.div_mod_eq (length pcmData) 2).
    pose proof (Nat.mod_upper_bound (length pcmData) 2). lia.
Qed.

Lemma length_averagePairs (l : list Z) : length (averagePairs l) = (length l / 2)%nat.
Proof.
  induction l as [| |x y l IH] using list_ind2; [done..|].
  cbn [averagePairs length]. rewrite IH.
  change (S (S (length l))) with (2 + length l)%nat.
  rewrite (Nat.div_add_l 1 2) by lia. lia.
Qed.

Lemma lookup_averagePairs (l : list Z) : ∀ (j : nat) x y,
  l !! (2 * j)%nat = Some x → l !! (2 * j + 1)%nat = Some y →
  averagePairs l !! j = Some (wrap_int16 ((x + y) ÷ 2)).
Proof.
  induction l as [| a |a b l IH] using list_ind2; intros j x y H0 H1.
  - by rewrite lookup_nil in H0.
  - destruct j; simpl in *; [done|].
    replace (j + S (j + 0) + 1)%nat with (S (S (2 * j)))%nat in H1 by lia. done.
  - destruct j as [|j].
    + simpl in *. congruence.
    + replace (2 * S j)%nat with (S (S (2 * j))) in H0 by lia.
      replace (2 * S j + 1)%nat with (S (S (2 * j + 1))) in H1 by lia.
      simpl in H0, H1. cbn [averagePairs]. simpl. by apply IH.
Qed.

Lemma stereoToMono_eq (samples : list Z) :
  stereoToMono samples = Ok (averagePairs samples).
Proof.
  unfold stereoToMono. pose proof (len_nonneg samples) as Hnn.
  rewrite make_ok by (apply Z.div_pos; lia). rewrite bind_Ok.
  assert (Hn : Z.to_nat (len samples / 2) = length (averagePairs samples)).
  { rewrite length_averagePairs. unfold len.
    rewrite <- (Nat2Z.inj_div _ 2). lia. }
  rewrite length_replicate, Hn. apply forLoop_fill.
  intros k t x Hx Ht.
  assert (Hk : (2 * k + 1 < length samples)%nat).
  { apply lookup_lt_Some in Hx. rewrite length_averagePairs in Hx.
    pose proof (Nat.div_mod_eq (length samples) 2). lia. }
  destruct (lookup_lt_is_Some_2 samples (2 * k) ltac:(lia)) as [l Hl].
  destruct (lookup_lt_is_Some_2 samples (2 * k + 1) ltac:(lia)) as [r Hr].
  rewrite (lookup_averagePairs _ _ _ _ Hl Hr) in Hx. injection Hx as <-.
  rewrite (index_ok samples (Z.of_nat k * 2) l); [|lia|rewrite <- Hl; f_equal; lia].
  rewrite bind_Ok.
  rewrite (index_ok samples (Z.of_nat k * 2 + 1) r); [|lia|rewrite <- Hr; f_equal; lia].
  rewrite bind_Ok, store_ok.
  - by rewrite Nat2Z.id.
  - apply lookup_lt_Some in Hl. unfold len. rewrite Ht, length_averagePairs.
    pose proof (Nat.div_mod_eq (length samples) 2).
    pose proof (Nat.mod_upper_bound (length samples) 2). lia.
Qed.

Lemma twice_cons s (pcm : list Z) : twice (s :: pcm) = s :: s :: twice pcm.
Proof. reflexivity. Qed.

Lemma averagePairs_twice (pcm : list Z) :
  Forall int16 pcm → averagePairs (twice pcm) = pcm.
Proof.
  induction 1 as [|s pcm Hs _ IH]; [done|].
  rewrite twice_cons. cbn [averagePairs]. rewrite IH. f_equal.
  replace (s + s) with (s * 2) by lia. rewrite Z.quot_mul by lia.
  by apply wrap_int16_id.
Qed.

Lemma samplesOf_duplicateSamples (mono : list byte) :
  samplesOf (duplicateSamples mono) = twice (samplesOf mono).
Proof.
  induction mono as [| |x y mono IH] using list_ind2; [done..|].
  cbn [duplicateSamples samplesOf]. by rewrite IH, twice_cons.
Qed.

Lemma toBytes_eq (resampled : list Z) :
  len resampled < 2 ^ 62 → toBytes resampled = Ok (bytesOf resampled).
Proof.
  intros Hlen. unfold toBytes. pose proof (len_nonneg resampled) as Hnn.
  rewrite wrap_int64_small by lia. rewrite make_ok by lia. rewrite bind_Ok.
  replace (Z.to_nat (len resampled * 2)) with (2 * length resampled)%nat
    by (unfold len; lia).
  rewrite bytesOf_bind.
  rewrite <- (forLoop_fill_bytes resampled
                (λ s, byte_of_Z (wrap_uint16 s))
                (λ s, byte_of_Z (Z.shiftr (wrap_uint16 s) 8))
                (λ i resampledBytes,
                   s ← index resampled i;
                   resampledBytes ← store resampledBytes (wrap_int64 (i * 2)) (byte_of_Z s);
                   store resampledBytes (wrap_int64 (i * 2) + 1)
                         (byte_of_Z (Z.shiftr s 8)))); [done|].
  intros k t s Hs Ht.
  assert (Hk : (k < length resampled)%nat) by (by apply lookup_lt_Some in Hs).
  unfold len in *.
  rewrite (index_ok resampled _ s); [|lia|by rewrite Nat2Z.id].
  rewrite bind_Ok, wrap_int64_small by lia.
  rewrite store_ok by (unfold len; lia). rewrite bind_Ok.
  rewrite store_ok by (unfold len; rewrite length_insert; lia).
  assert (E1 : byte_of_Z s = byte_of_Z (wrap_uint16 s)).
  { rewrite <- (byte_of_Z_mod s), <- (byte_of_Z_mod (wrap_uint16 s)).
    f_equal. unfold wrap_uint16. change (2 ^ 16) with 65536. div_mod_lia. }
  assert (E2 : byte_of_Z (Z.shiftr s 8) = byte_of_Z (Z.shiftr (wrap_uint16 s) 8)).
  { rewrite <- (byte_of_Z_mod (Z.shiftr s 8)),
            <- (byte_of_Z_mod (Z.shiftr (wrap_uint16 s) 8)).
    f_equal. rewrite !Z.shiftr_div_pow2 by lia. unfold wrap_uint16.
    change (2 ^ 8) with 256. change (2 ^ 16) with 65536. div_mod_lia. }
  rewrite E1, E2. do 3 f_equal; lia.
Qed.

(** X18.  The stereo-to-mono step of the AssemblyAI client undoes
    MonoToStereo.  For every mono PCM input, MonoToStereo returns without a
    fault; SendAudio's first loop reads its output as every sample of the
    input twice, the averaging loop makes of these the samples of the input
    again (the sum of two equal 16-bit samples halves exactly), and the last
    loop writes them as the bytes of the input, less an odd last byte. *)
Theorem X18_stereoToMono_undoes_MonoToStereo (mono : list byte) :
  ∃ stereo,
    MonoToStereo mono = Ok stereo
    ∧ toSamples stereo = Ok (twice (samplesOf mono))
    ∧ stereoToMono (twice (samplesOf mono)) = Ok (samplesOf mono)
    ∧ (len mono < 2 ^ 62 → toBytes (samplesOf mono) = Ok (wholeSamples mono)).
Proof.
  exists (duplicateSamples mono). split; [apply MonoToStereo_eq|].
  split; [by rewrite toSamples_eq, samplesOf_duplicateSamples|].
  split.
  - rewrite stereoToMono_eq. f_equal.
    apply averagePairs_twice, Forall_int16_samplesOf.
  - intros Hlen. rewrite toBytes_eq.
    + by rewrite bytesOf_samplesOf.
    + rewrite len_samplesOf. pose proof (len_nonneg mono). div_mod_lia.
Qed.

(** C8.  For every mono 16-bit little-endian PCM byte string of even length,
    MonoToStereo returns, and averaging the left and right channel of what
    it returns gives the mono input back, byte for byte.  The averaging is
    the one the repository has, the stereo-to-mono loop of the AssemblyAI
    client's SendAudio: its first loop reads the stereo bytes as samples,
    the averaging loop makes of them the samples of the mono input, and
    these samples, written as bytes, are the mono input.  SendAudio's last
    loop writes exactly these bytes (the bound on the length is one that
    every Go slice meets). *)
Theorem C8_MonoToStereo_then_average_is_identity (mono : list byte) :
  Nat.even (length mono) = true →
  ∃ stereo samples monoSamples,
    MonoToStereo mono = Ok stereo
    ∧ length stereo = (2 * length mono)%nat
    ∧ toSamples stereo = Ok samples
    ∧ stereoToMono samples = Ok monoSamples
    ∧ monoSamples = samplesOf mono
    ∧ bytesOf monoSamples = mono
    ∧ (len mono < 2 ^ 63 → toBytes monoSamples = Ok mono).
Proof.
  intros Hev.
  assert (Hhalf : (2 * (length mono / 2) = length mono)%nat).
  { apply Nat.even_spec in Hev as [k Hk]. rewrite Hk.
    replace (2 * k)%nat with (k * 2)%nat by lia. rewrite Nat.div_mul by lia. lia. }
  assert (Hbytes : bytesOf (samplesOf mono) = mono).
  { rewrite bytesOf_samplesOf, Hhalf. apply firstn_all. }
  exists (duplicateSamples mono), (twice (samplesOf mono)), (samplesOf mono).
  split; [apply MonoToStereo_eq|].
  split; [rewrite length_duplicateSamples; lia|].
  split; [by rewrite toSamples_eq, samplesOf_duplicateSamples|].
  split.
  { rewrite stereoToMono_eq. f_equal.
    apply averagePairs_twice, Forall_int16_samplesOf. }
  split; [done|]. split; [done|].
  intros Hlen. rewrite toBytes_eq, Hbytes; [done|].
  rewrite len_samplesOf. pose proof (len_nonneg mono). div_mod_lia.
Qed.

Lemma C8_witness :
  ∃ stereo samples monoSamples,
    MonoToStereo [Byte.x00; Byte.x80; Byte.xff; Byte.x7f; Byte.x34; Byte.x12]
      = Ok stereo
    ∧ length stereo = (2 * 6)%nat
    ∧ toSamples stereo = Ok samples
    ∧ stereoToMono samples = Ok monoSamples
    ∧ monoSamples = samplesOf [Byte.x00; Byte.x80; Byte.xff; Byte.x7f; Byte.x34; Byte.x12]
    ∧ bytesOf monoSamples = [Byte.x00; Byte.x80; Byte.xff; Byte.x7f; Byte.x34; Byte.x12]
    ∧ (len [Byte.x00; Byte.x80; Byte.xff; Byte.x7f; Byte.x34; Byte.x12] < 2 ^ 63 →
       toBytes monoSamples
         = Ok [Byte.x00; Byte.x80; Byte.xff; Byte.x7f; Byte.x34; Byte.x12]).
Proof.
  apply (C8_MonoToStereo_then_average_is_identity
           [Byte.x00; Byte.x80; Byte.xff; Byte.x7f; Byte.x34; Byte.x12]).
  reflexivity.
Defined.

(** The samples -32768, 32767 and 4660 made stereo, read by SendAudio,
    averaged and written back. *)
Example MonoToStereo_then_average :
  let mono := [Byte.x00; Byte.x80; Byte.xff; Byte.x7f; Byte.x34; Byte.x12] in
  MonoToStereo mono
    = Ok [Byte.x00; Byte.x80; Byte.x00; Byte.x80; Byte.xff; Byte.x7f;
          Byte.xff; Byte.x7f; Byte.x34; Byte.x12; Byte.x34; Byte.x12]
  ∧ toSamples [Byte.x00; Byte.x80; Byte.x00; Byte.x80; Byte.xff; Byte.x7f;
               Byte.xff; Byte.x7f; Byte.x34; Byte.x12; Byte.x34; Byte.x12]
      = Ok [-32768; -32768; 32767; 32767; 4660; 4660]
  ∧ stereoToMono [-32768; -32768; 32767; 32767; 4660; 4660]
      = Ok [-32768; 32767; 4660]
  ∧ toBytes [-32768; 32767; 4660] = Ok mono.
Proof. vm_compute. repeat split; reflexivity. Qed.

(** ** Buffering in [SendAudio] *)

Lemma resample_same_rate (samples : list Z) rate :
  resample samples rate rate = Ok samples.
Proof. unfold resample. by rewrite decide_True. Qed.

(** One call on a connected client for 16 kHz input. *)
Lemma SendAudio_16k write_ok (pcmData : list byte) (c : Client) :
  connected c = true → is_Some (conn c) → sampleRate c = 16000 →
  len pcmData < 2 ^ 62 →
  let audioBuffer' := audioBuffer c ++ converted16k (channels c) pcmData in
  SendAudio write_ok pcmData c =
    if minAudioBytes <=? len audioBuffer' then
      Ok (mkClient (connected c) (conn c) (sampleRate c) (channels c) []
                   (written c ++ [audioBuffer']),
          if write_ok then Rtp.Nil else Rtp.Error "write failed")
    else
      Ok (mkClient (connected c) (conn c) (sampleRate c) (channels c) audioBuffer'
                   (written c),
          Rtp.Nil).
Proof.
  intros Hc [cn Hcn] Hr Hlen buf. unfold SendAudio.
  rewrite Hc, Hcn, Hr. rewrite bool_decide_eq_false_2 by done. cbn [negb orb].
  rewrite toSamples_eq, bind_Ok.
  assert (Hs : len (samplesOf pcmData) < 2 ^ 62).
  { rewrite len_samplesOf. pose proof (len_nonneg pcmData). div_mod_lia. }
  assert (Hconv : ∃ samples,
            (if decide (channels c = 2) then stereoToMono (samplesOf pcmData)
             else Ok (samplesOf pcmData)) = Ok samples
            ∧ toBytes samples = Ok (converted16k (channels c) pcmData)).
  { unfold converted16k. destruct (decide (channels c = 2)) as [_|_].
    - rewrite stereoToMono_eq. eexists. split; [done|]. apply toBytes_eq.
      pose proof (len_nonneg (samplesOf pcmData)).
      unfold len in *. rewrite length_averagePairs.
      pose proof (Nat.div_mod_eq (length (samplesOf pcmData)) 2). lia.
    - eexists. split; [done|]. rewrite toBytes_eq by done.
      by rewrite bytesOf_samplesOf. }
  destruct Hconv as (samples & -> & Hb).
  rewrite bind_Ok, resample_same_rate, bind_Ok, Hb, bind_Ok. fold buf.
  by destruct (minAudioBytes <=? len buf).
Qed.

Lemma SendAudio_all_16k (calls : list (bool * list byte)) : ∀ c,
  connected c = true → is_Some (conn c) → sampleRate c = 16000 →
  Forall (λ call, len call.2 < 2 ^ 62) calls →
  ∃ c', SendAudio_all calls c = Ok c'
    ∧ connected c' = true ∧ conn c' = conn c
    ∧ sampleRate c' = 16000 ∧ channels c' = channels c
    ∧ concat (drop (length (written c)) (written c')) ++ audioBuffer c'
        = audioBuffer c ++ concat (converted16k (channels c) <$> calls.*2)
    ∧ (∃ new, written c' = written c ++ new
              ∧ Forall (λ m, minAudioBytes ≤ len m) new)
    ∧ (len (audioBuffer c) < minAudioBytes → len (audioBuffer c') < minAudioBytes).
Proof.
  induction calls as [|[ok d] calls IH]; intros c Hc Hcn Hr Hsmall.
  - exists c. simpl. rewrite drop_all, !app_nil_r. simpl.
    repeat split; try done. exists []. by rewrite app_nil_r.
  - apply Forall_cons in Hsmall as [Hd Hsmall]. simpl in Hd.
    cbn [SendAudio_all]. rewrite (SendAudio_16k ok d c Hc Hcn Hr Hd).
    cbn zeta. set (buf := audioBuffer c ++ converted16k (channels c) d).
    destruct (minAudioBytes <=? len buf) eqn:Eb; rewrite bind_Ok.
    + destruct (IH (mkClient (connected c) (conn c) (sampleRate c) (channels c) []
                             (written c ++ [buf])))
        as (c' & E & C1 & C2 & C3 & C4 & C5 & (new & C6 & C7) & C8); [done..|].
      simpl in *. exists c'. split; [done|]. repeat split; try done.
      * rewrite C6 in C5 |- *. rewrite drop_app_length in C5.
        rewrite <- app_assoc, drop_app_length. simpl.
        rewrite <- app_assoc, C5. unfold buf. by rewrite <- app_assoc.
      * exists (buf :: new). split; [by rewrite C6, <- app_assoc|].
        constructor; [|done]. by apply Z.leb_le.
      * intros _. apply C8. unfold minAudioBytes, len. simpl. lia.
    + destruct (IH (mkClient (connected c) (conn c) (sampleRate c) (channels c) buf
                             (written c)))
        as (c' & E & C1 & C2 & C3 & C4 & C5 & (new & C6 & C7) & C8); [done..|].
      simpl in *. exists c'. split; [done|]. repeat split; try done.
      * rewrite C5. unfold buf. by rewrite <- app_assoc.
      * by exists new.
      * intros _. apply C8. by apply Z.leb_gt.
Qed.

(** X19.  SendAudio buffers until it has 100 ms.  On a connected client
    set up for 16 kHz input, a run of calls never faults; every message it
    writes holds at least 3200 bytes; the messages written followed by what
    is left in the buffer are, byte for byte and in order, what was in the
    buffer before followed by the whole samples of the chunks (averaged
    pairwise for a stereo client), so nothing is lost, repeated or
    reordered, not even when a write fails; and a buffer that was below
    3200 bytes is below 3200 bytes again after the run.  A client that is
    not connected is answered with an error and keeps its buffer. *)
Theorem X19_SendAudio_buffers_to_100ms
    (calls : list (bool * list byte)) (c : Client) :
  connected c = true → is_Some (conn c) → sampleRate c = 16000 →
  Forall (λ call, len call.2 < 2 ^ 62) calls →
  (∃ c' new,
     SendAudio_all calls c = Ok c'
     ∧ written c' = written c ++ new
     ∧ Forall (λ m, minAudioBytes ≤ len m) new
     ∧ concat new ++ audioBuffer c'
         = audioBuffer c ++ concat (converted16k (channels c) <$> calls.*2)
     ∧ (len (audioBuffer c) < minAudioBytes → len (audioBuffer c') < minAudioBytes))
  ∧ (∀ write_ok pcmData c0,
       connected c0 = false ∨ conn c0 = None →
       SendAudio write_ok pcmData c0 = Ok (c0, Rtp.Error "not connected")).
Proof.
  intros Hc Hcn Hr Hsmall. split.
  - destruct (SendAudio_all_16k calls c Hc Hcn Hr Hsmall)
      as (c' & E & _ & _ & _ & _ & C5 & (new & C6 & C7) & C8).
    exists c', new. repeat split; try done.
    rewrite C6, drop_app_length in C5. done.
  - intros ok d c0 [H0|Hn]; unfold SendAudio.
    + by rewrite H0.
    + rewrite Hn, bool_decide_eq_true_2 by done. by rewrite orb_true_r.
Qed.

Lemma X19_witness :
  let calls := [(true, replicate 2001 Byte.x01); (false, replicate 2000 Byte.x02);
                (true, [Byte.x03; Byte.x04])] in
  (∃ c' new,
     SendAudio_all calls client16k = Ok c'
     ∧ written c' = written client16k ++ new
     ∧ Forall (λ m, minAudioBytes ≤ len m) new
     ∧ concat new ++ audioBuffer c'
         = audioBuffer client16k
             ++ concat (converted16k (channels client16k) <$> calls.*2)
     ∧ (len (audioBuffer client16k) < minAudioBytes →
        len (audioBuffer c') < minAudioBytes))
  ∧ (∀ write_ok pcmData c0,
       connected c0 = false ∨ conn c0 = None →
       SendAudio write_ok pcmData c0 = Ok (c0, Rtp.Error "not connected")).
Proof.
  apply (X19_SendAudio_buffers_to_100ms
           [(true, replicate 2001 Byte.x01); (false, replicate 2000 Byte.x02);
            (true, [Byte.x03; Byte.x04])] client16k).
  - reflexivity.
  - simpl. eauto.
  - reflexivity.
  - repeat constructor.
Defined.

(** Two chunks of 2001 and 2000 bytes and one of 2: the second call writes
    the 4000 bytes collected so far (the odd byte of the first chunk is
    gone), the third leaves 2 bytes in the buffer. *)
Example SendAudio_demo :
  match SendAudio_all [(true, replicate 2001 Byte.x01); (false, replicate 2000 Byte.x02);
                       (true, [Byte.x03; Byte.x04])] client16k with
  | Ok c' => (length <$> written c', audioBuffer c')
  | Panicked _ => ([], [])
  end = ([4000%nat], [Byte.x03; Byte.x04]).
Proof. vm_compute. reflexivity. Qed.

End PcmSpec.

(* ===================================================================== *)
(** * What the pipeline hands to libopus *)
(* ===================================================================== *)

Module FrameSpec.

Import Bytes BytesSpec Audio Float64Spec AudioSpec PcmSpec.
Local Open Scope Z_scope.

Lemma framesOf_spec (fuel : nat) : ∀ buf,
  len buf / frameBytes ≤ Z.of_nat fuel →
  concat (framesOf fuel buf)
    ++ drop (Z.to_nat (frameBytes * (len buf / frameBytes))) buf = buf
  ∧ Forall (λ frame, len frame = frameBytes) (framesOf fuel buf)
  ∧ len (framesOf fuel buf) = len buf / frameBytes.
Proof.
  rewrite frameBytes_eq.
  induction fuel as [|fuel IH]; intros buf Hfuel;
    pose proof (len_nonneg buf) as Hnn.
  - assert (Hq : len buf / 3840 = 0) by div_mod_lia.
    rewrite Hq. simpl. done.
  - cbn [framesOf]. rewrite frameBytes_eq.
    destruct (Z.leb_spec 3840 (len buf)) as [Hge|Hlt].
    + set (rest := drop (Z.to_nat 3840) buf).
      assert (Hrest : len rest = len buf - 3840).
      { unfold rest, len in *. rewrite length_drop. lia. }
      assert (Hq : len rest / 3840 = len buf / 3840 - 1).
      { rewrite Hrest. div_mod_lia. }
      destruct (IH rest) as (E & Hall & Hn); [lia|].
      assert (Hdrop : drop (Z.to_nat (3840 * (len rest / 3840))) rest
                = drop (Z.to_nat (3840 * (len buf / 3840))) buf).
      { rewrite Hq. unfold rest. rewrite drop_drop. f_equal.
        assert (1 ≤ len buf / 3840) by div_mod_lia. lia. }
      split; [|split].
      * cbn [concat]. rewrite <- app_assoc, <- Hdrop, E. apply take_drop.
      * constructor; [|done]. unfold len in *. rewrite length_take. lia.
      * unfold len in *. cbn [length]. lia.
    + assert (Hq : len buf / 3840 = 0) by div_mod_lia.
      rewrite Hq. simpl. done.
Qed.

Section Frames.
Context `{Opus}.

Lemma drainFrames_frames (fuel : nat) : ∀ p opusFrames,
  len (buffer p) / frameBytes ≤ Z.of_nat fuel →
  let r := encodeAll (framesOf fuel (buffer p)) (pl_encoder p) in
  drainFrames fuel p opusFrames =
    Ok (mkAudioPipeline r.1
          (drop (Z.to_nat (frameBytes * (len (buffer p) / frameBytes))) (buffer p)),
        opusFrames ++ r.2).
Proof.
  rewrite frameBytes_eq.
  induction fuel as [|fuel IH]; intros p frames Hfuel;
    pose proof (len_nonneg (buffer p)) as Hnn.
  - assert (Hq : len (buffer p) / 3840 = 0) by div_mod_lia.
    rewrite Hq. simpl. rewrite app_nil_r. by destruct p.
  - cbn [drainFrames framesOf]. rewrite frameBytes_eq.
    destruct (Z.leb_spec 3840 (len (buffer p))) as [Hge|Hlt].
    + set (frame := take (Z.to_nat 3840) (buffer p)).
      set (rest := drop (Z.to_nat 3840) (buffer p)).
      assert (Hrest : len rest = len (buffer p) - 3840).
      { unfold rest, len in *. rewrite length_drop. lia. }
      assert (Hq : len rest / 3840 = len (buffer p) / 3840 - 1).
      { rewrite Hrest. div_mod_lia. }
      assert (Hdrop : drop (Z.to_nat (3840 * (len rest / 3840))) rest
                = drop (Z.to_nat (3840 * (len (buffer p) / 3840))) (buffer p)).
      { rewrite Hq. unfold rest. rewrite drop_drop. f_equal.
        assert (1 ≤ len (buffer p) / 3840) by div_mod_lia. lia. }
      rewrite EncodeBytes_samples, bind_Ok. cbn [encodeAll].
      destruct (Encode (samplesOf frame) (pl_encoder p)) as [e' r] eqn:Henc.
      pose proof (IH (mkAudioPipeline e' rest)) as IH'. cbn [buffer pl_encoder] in IH'.
      destruct (encodeAll (framesOf fuel rest) e') as [e'' out] eqn:Eall.
      cbn [fst snd] in *. destruct r as [opusData|].
      * rewrite IH' by lia. rewrite Hdrop, <- app_assoc. done.
      * rewrite IH' by lia. rewrite Hdrop. done.
    + assert (Hq : len (buffer p) / 3840 = 0) by div_mod_lia.
      rewrite Hq. simpl. rewrite app_nil_r. by destruct p.
Qed.

Lemma ProcessChunk_eq (pcm : list byte) (p : AudioPipeline) :
  pcm ≠ [] → len pcm < 2 ^ 58 →
  ∃ mono,
    ResampleMono pcm 22050 48000 = Ok mono
    ∧ let all := buffer p ++ duplicateSamples mono in
      ProcessChunk pcm p =
        Ok (mkAudioPipeline (encodeAll (wholeFrames all) (pl_encoder p)).1
              (drop (Z.to_nat (frameBytes * (len all / frameBytes))) all),
            (encodeAll (wholeFrames all) (pl_encoder p)).2).
Proof.
  intros Hne Hlen. unfold ProcessChunk.
  assert (Hz : (len pcm =? 0) = false).
  { apply Z.eqb_neq. unfold len. destruct pcm; [done|]. simpl. lia. }
  rewrite Hz.
  destruct (ResampleMono_22050_48000 pcm Hlen) as (mono & -> & Hout).
  exists mono. split; [done|]. cbn zeta.
  set (all := buffer p ++ duplicateSamples mono).
  rewrite bind_Ok, MonoToStereo_eq, bind_Ok. cbn [buffer pl_encoder]. fold all.
  assert (Hfuel : len all / frameBytes ≤ Z.of_nat (length all)).
  { rewrite frameBytes_eq. pose proof (len_nonneg all). unfold len in *. div_mod_lia. }
  by rewrite (drainFrames_frames _ (mkAudioPipeline (pl_encoder p) all) [] Hfuel).
Qed.

Lemma wholeFrames_spec (all : list byte) :
  concat (wholeFrames all)
    ++ drop (Z.to_nat (frameBytes * (len all / frameBytes))) all = all
  ∧ Forall (λ frame, len frame = frameBytes) (wholeFrames all)
  ∧ len (wholeFrames all) = len all / frameBytes.
Proof.
  apply framesOf_spec. rewrite frameBytes_eq. pose proof (len_nonneg all).
  unfold len in *. div_mod_lia.
Qed.

(** X20.  Nothing is lost between ProcessChunk and libopus.  A chunk is
    resampled and made stereo; the bytes that were buffered, followed by
    the new stereo bytes, are then cut in order into frames of 3840 bytes,
    and each frame is handed to libopus as 1920 little-endian samples.  The
    frames and the bytes left in the buffer, put together again, are
    exactly the old buffer followed by the new stereo bytes; the packets
    returned are those libopus returned, in order, and a frame on which
    libopus reports an error is skipped without an error from
    ProcessChunk. *)
Theorem X20_ProcessChunk_frames_the_stream (pcm : list byte) (p : AudioPipeline) :
  pcm ≠ [] → len pcm < 2 ^ 58 →
  ∃ mono stereo p' opusFrames,
    ResampleMono pcm 22050 48000 = Ok mono
    ∧ MonoToStereo mono = Ok stereo
    ∧ ProcessChunk pcm p = Ok (p', opusFrames)
    ∧ (pl_encoder p', opusFrames)
        = encodeAll (wholeFrames (buffer p ++ stereo)) (pl_encoder p)
    ∧ concat (wholeFrames (buffer p ++ stereo)) ++ buffer p' = buffer p ++ stereo
    ∧ Forall (λ frame, len frame = frameBytes ∧ len (samplesOf frame) = 1920)
             (wholeFrames (buffer p ++ stereo))
    ∧ len (buffer p') < frameBytes.
Proof.
  intros Hne Hlen.
  destruct (ProcessChunk_eq pcm p Hne Hlen) as (mono & Hres & Hpc).
  set (all := buffer p ++ duplicateSamples mono) in *. cbn zeta in Hpc.
  destruct (wholeFrames_spec all) as (E & Hall & Hn).
  eexists mono, (duplicateSamples mono), _, _.
  split; [done|]. split; [apply MonoToStereo_eq|]. split; [exact Hpc|].
  cbn [buffer pl_encoder]. fold all. split; [by destruct (encodeAll _ _)|].
  split; [done|]. split.
  - eapply Forall_impl; [exact Hall|]. intros frame Hf. split; [done|].
    rewrite len_samplesOf, Hf, frameBytes_eq. done.
  - pose proof (len_nonneg all). unfold len in *. rewrite length_drop.
    rewrite frameBytes_eq in *. div_mod_lia.
Qed.

(** X21.  Flush sends what is left, padded with zeros.  When the buffer is
    not empty Flush appends zero bytes up to the next multiple of 3840 (a
    whole frame of zeros if the length is a multiple already), hands the
    frames of the padded buffer to libopus as ProcessChunk does, and leaves
    the buffer empty; the frames put together again are the old buffer
    followed by the padding.  On an empty buffer, so in particular after a
    Flush or a Reset, Flush does nothing at all. *)
Theorem X21_Flush_pads_with_zeros (p : AudioPipeline) :
  (buffer p ≠ [] →
   let padding := replicate (Z.to_nat (frameBytes - len (buffer p) mod frameBytes))
                            Byte.x00 in
   ∃ p' opusFrames,
     Flush p = Ok (p', opusFrames)
     ∧ buffer p' = []
     ∧ (pl_encoder p', opusFrames)
         = encodeAll (wholeFrames (buffer p ++ padding)) (pl_encoder p)
     ∧ concat (wholeFrames (buffer p ++ padding)) = buffer p ++ padding
     ∧ 0 < len padding ≤ frameBytes
     ∧ len (wholeFrames (buffer p ++ padding)) = len (buffer p) / frameBytes + 1
     ∧ Flush p' = Ok (p', []))
  ∧ (buffer p = [] → Flush p = Ok (p, []))
  ∧ Flush (Reset p) = Ok (Reset p, []).
Proof.
  split; [|split].
  - intros Hne padding. pose proof (len_nonneg (buffer p)) as Hnn.
    assert (Hpos : 0 < len (buffer p)).
    { unfold len. destruct (buffer p); [done|]. simpl. lia. }
    set (k := frameBytes - len (buffer p) mod frameBytes).
    assert (Hk : 0 < k ≤ frameBytes).
    { unfold k. rewrite frameBytes_eq. div_mod_lia. }
    assert (Epad : padding = replicate (Z.to_nat k) Byte.x00) by reflexivity.
    clearbody padding.
    set (all := buffer p ++ padding).
    assert (Hflush : Flush p
              = drainFrames (length all) (mkAudioPipeline (pl_encoder p) all) []).
    { unfold Flush. rewrite (proj2 (Z.ltb_lt _ _) Hpos). fold k.
      rewrite make_ok by lia. rewrite bind_Ok. unfold all. by rewrite Epad. }
    assert (Hpadlen : len padding = k).
    { rewrite Epad. unfold len. rewrite length_replicate. lia. }
    assert (Hpad : len all = len (buffer p) + k).
    { unfold all. by rewrite len_app, Hpadlen. }
    assert (Hmul : len all = frameBytes * (len all / frameBytes)
                   ∧ len all / frameBytes = len (buffer p) / frameBytes + 1).
    { rewrite Hpad. unfold k. rewrite frameBytes_eq. div_mod_lia. }
    assert (Hfuel : len all / frameBytes ≤ Z.of_nat (length all)).
    { rewrite frameBytes_eq. pose proof (len_nonneg all). unfold len in *. div_mod_lia. }
    rewrite Hflush.
    rewrite (drainFrames_frames _ (mkAudioPipeline (pl_encoder p) all) [] Hfuel).
    cbn [buffer pl_encoder]. fold (wholeFrames all).
    destruct (framesOf_spec (length all) all Hfuel) as (E & Hall & Hn).
    fold (wholeFrames all) in E, Hall, Hn.
    assert (Hdrop : drop (Z.to_nat (frameBytes * (len all / frameBytes))) all = []).
    { apply drop_ge. destruct Hmul as [Hm _]. unfold len in *. lia. }
    rewrite Hdrop in *. rewrite app_nil_r in E.
    eexists _, _. split; [reflexivity|]. cbn [buffer pl_encoder app].
    split; [done|]. split; [by destruct (encodeAll _ _)|].
    split; [done|]. split; [lia|]. split; [lia|]. done.
  - intros Hnil. unfold Flush. by rewrite Hnil.
  - done.
Qed.

(** ** Silence *)

Lemma forLoop_inv_ok {St} (I : Z → St → Prop) (body : Z → St → result St) n :
  ∀ i s s',
  I i s →
  (∀ j t t', i ≤ j < i + Z.of_nat n → I j t → body j t = Ok t' → I (j + 1) t') →
  forLoop n i body s = Ok s' → I (i + Z.of_nat n) s'.
Proof.
  induction n as [|n IH]; intros i s s' Hi Hstep; simpl.
  - intros [= <-]. by rewrite Z.add_0_r.
  - destruct (body i s) as [t|] eqn:E; [|done]. rewrite bind_Ok. intros Hrest.
    replace (i + Z.of_nat (S n)) with (i + 1 + Z.of_nat n) by lia.
    apply (IH (i + 1) t s'); [|intros j u u' Hj; apply Hstep; lia|done].
    apply (Hstep i s t); [lia|done|done].
Qed.

Lemma silent_lookup (b : list byte) (i : nat) x : silent b → b !! i = Some x → x = Byte.x00.
Proof. intros Hb Hx. by apply (Forall_lookup_1 _ _ _ _ Hb Hx). Qed.

Lemma Uint16_at_silent (b : list byte) off u :
  silent b → Uint16_at b off = Ok u → u = 0.
Proof.
  intros Hb. unfold Uint16_at, sliceFrom.
  destruct (_ || _); [done|]. rewrite bind_Ok. unfold index. simpl.
  change (Z.to_nat 1) with 1%nat. change (Z.to_nat 0) with 0%nat.
  destruct (drop (Z.to_nat off) b !! 1%nat) as [b1|] eqn:E1; [|by simpl].
  rewrite bind_Ok.
  destruct (drop (Z.to_nat off) b !! 0%nat) as [b0|] eqn:E0; [|by simpl].
  rewrite bind_Ok. intros [= <-].
  rewrite lookup_drop in E0, E1.
  rewrite (silent_lookup _ _ _ Hb E0), (silent_lookup _ _ _ Hb E1). done.
Qed.

Lemma PutUint16_at_silent (b b' : list byte) off :
  silent b → PutUint16_at b off 0 = Ok b' → silent b'.
Proof.
  intros Hb. unfold PutUint16_at.
  destruct (sliceFrom b off) as [s|]; [|done]. rewrite bind_Ok.
  destruct (index s 1) as [x|]; [|done]. rewrite bind_Ok.
  unfold store. destruct (_ || _); [done|]. rewrite bind_Ok.
  destruct (_ || _); [done|]. intros [= <-].
  apply Forall_insert; [apply Forall_insert|]; done.
Qed.

Lemma zero_sample (a b : float64) :
  f64_to_int16 (f64_add (f64_mul (f64_of_int 0) a) (f64_mul (f64_of_int 0) b)) = 0.
Proof.
  change (f64_of_int 0) with (S754_zero false).
  destruct a as [[]|[]| |[] ma ea], b as [[]|[]| |[] mb eb]; reflexivity.
Qed.

Lemma silent_duplicateSamples (mono : list byte) :
  silent mono → silent (duplicateSamples mono).
Proof.
  unfold silent.
  induction mono as [| |x y mono IH] using list_ind2; intros Hm; cbn [duplicateSamples];
    [constructor..|].
  apply Forall_cons in Hm as [Hx Hm]. apply Forall_cons in Hm as [Hy Hm].
  repeat (constructor; [done|]). by apply IH.
Qed.

(** X22.  Silence stays silence.  Whatever the two rates, if ResampleMono
    returns for an input of zero bytes its output is zero bytes only (the
    interpolation of two zero samples is zero also where the position it
    computes is not a number), and for 22,050 to 48,000 Hz it does return;
    MonoToStereo makes zero bytes of zero bytes; so a pipeline whose buffer
    holds zeros hands libopus nothing but frames of zeros for a chunk of
    zeros, and keeps zeros. *)
Theorem X22_silence_stays_silence (pcm : list byte) (inputRate outputRate : Z) :
  silent pcm →
  (∀ output, ResampleMono pcm inputRate outputRate = Ok output → silent output)
  ∧ (∃ stereo, MonoToStereo pcm = Ok stereo ∧ silent stereo)
  ∧ (∀ p : AudioPipeline,
       pcm ≠ [] → len pcm < 2 ^ 58 → silent (buffer p) →
       ∃ stereo p' opusFrames,
         ProcessChunk pcm p = Ok (p', opusFrames)
         ∧ (pl_encoder p', opusFrames)
             = encodeAll (wholeFrames (buffer p ++ stereo)) (pl_encoder p)
         ∧ Forall silent (wholeFrames (buffer p ++ stereo))
         ∧ silent (buffer p')).
Proof.
  intros Hpcm.
  assert (Hres : ∀ r1 r2 output, ResampleMono pcm r1 r2 = Ok output → silent output).
  { intros r1 r2 output. unfold ResampleMono.
    destruct (decide (r1 = r2)) as [_|_]; [by intros [= <-]|].
    cbn zeta. unfold make. destruct (_ <? 0); [done|]. rewrite bind_Ok.
    intros Hloop.
    eapply (forLoop_inv_ok (λ _ out, silent out)); [|clear Hloop|exact Hloop].
    { by apply Forall_replicate. }
    intros j t t' _ Ht. unfold resampleStep.
    destruct (clampedIndices _ _ j) as [idx1 idx2].
    destruct (Uint16_at pcm (wrap_int64 (idx1 * 2))) as [u1|] eqn:E1; [|done].
    rewrite bind_Ok.
    destruct (Uint16_at pcm (wrap_int64 (idx2 * 2))) as [u2|] eqn:E2; [|done].
    rewrite bind_Ok.
    rewrite (Uint16_at_silent _ _ _ Hpcm E1), (Uint16_at_silent _ _ _ Hpcm E2).
    change (wrap_int16 0) with 0. rewrite zero_sample.
    change (wrap_uint16 0) with 0. by apply PutUint16_at_silent. }
  split; [apply Hres|]. split.
  - exists (duplicateSamples pcm). split; [apply MonoToStereo_eq|].
    by apply silent_duplicateSamples.
  - intros p Hne Hlen Hbuf.
    destruct (ProcessChunk_eq pcm p Hne Hlen) as (mono & E1 & Hpc).
    set (all := buffer p ++ duplicateSamples mono) in *. cbn zeta in Hpc.
    destruct (wholeFrames_spec all) as (E & _ & _).
    assert (Hall : silent all).
    { apply Forall_app. split; [done|].
      apply silent_duplicateSamples, (Hres _ _ _ E1). }
    rewrite <- E in Hall. apply Forall_app in Hall as [Hf Hb].
    eexists (duplicateSamples mono), _, _. split; [exact Hpc|].
    cbn [buffer pl_encoder]. fold all. split; [by destruct (encodeAll _ _)|].
    split; [|done]. by apply Forall_concat.
Qed.

End Frames.

Lemma X22_witness :
  (∀ output,
     ResampleMono [Byte.x00; Byte.x00; Byte.x00; Byte.x00] 22050 48000 = Ok output →
     silent output)
  ∧ (∃ stereo, MonoToStereo [Byte.x00; Byte.x00; Byte.x00; Byte.x00] = Ok stereo
               ∧ silent stereo)
  ∧ (∀ p : AudioPipeline (H := demoOpus),
       [Byte.x00; Byte.x00; Byte.x00; Byte.x00] ≠ [] →
       len [Byte.x00; Byte.x00; Byte.x00; Byte.x00] < 2 ^ 58 → silent (buffer p) →
       ∃ stereo p' opusFrames,
         ProcessChunk [Byte.x00; Byte.x00; Byte.x00; Byte.x00] p = Ok (p', opusFrames)
         ∧ (pl_encoder p', opusFrames)
             = encodeAll (wholeFrames (buffer p ++ stereo)) (pl_encoder p)
         ∧ Forall silent (wholeFrames (buffer p ++ stereo))
         ∧ silent (buffer p')).
Proof.
  apply (X22_silence_stays_silence (H := demoOpus)
           [Byte.x00; Byte.x00; Byte.x00; Byte.x00] 22050 48000).
  repeat constructor.
Defined.

Lemma X20_witness :
  ∃ mono stereo p' opusFrames,
    ResampleMono sixSamples 22050 48000 = Ok mono
    ∧ MonoToStereo mono = Ok stereo
    ∧ ProcessChunk (H := pickyOpus) sixSamples (NewAudioPipeline (H := pickyOpus) 0)
        = Ok (p', opusFrames)
    ∧ (pl_encoder p', opusFrames)
        = encodeAll (H := pickyOpus)
            (wholeFrames (buffer (NewAudioPipeline (H := pickyOpus) 0) ++ stereo))
            (pl_encoder (NewAudioPipeline (H := pickyOpus) 0))
    ∧ concat (wholeFrames (buffer (NewAudioPipeline (H := pickyOpus) 0) ++ stereo))
        ++ buffer p'
        = buffer (NewAudioPipeline (H := pickyOpus) 0) ++ stereo
    ∧ Forall (λ frame, len frame = frameBytes ∧ len (samplesOf frame) = 1920)
             (wholeFrames (buffer (NewAudioPipeline (H := pickyOpus) 0) ++ stereo))
    ∧ len (buffer p') < frameBytes.
Proof.
  apply (X20_ProcessChunk_frames_the_stream (H := pickyOpus) sixSamples
           (NewAudioPipeline (H := pickyOpus) 0)).
  - discriminate.
  - vm_compute. reflexivity.
Defined.

(** Two frames and a half in the buffer, and an encoder that takes every
    second frame: Flush gives libopus three frames and returns the packets
    of the first and the third. *)
Example Flush_with_a_picky_encoder :
  match Flush (H := pickyOpus)
          (mkAudioPipeline (NewOpusEncoder (H := pickyOpus) 0 48000 2 960)
             (replicate (Z.to_nat 9600) Byte.x01)) with
  | Ok (p', opusFrames) => (encoder (pl_encoder p'), opusFrames, buffer p')
  | Panicked _ => (0, [], [])
  end = (3, [[Byte.x00]; [Byte.x02]], []).
Proof. vm_compute. reflexivity. Qed.

End FrameSpec.

(* ===================================================================== *)
(** * The voice agent: listening and speaking *)
(* ===================================================================== *)

Module AgentSpec.

Import Bytes BytesSpec Audio Float64Spec AudioSpec Agent.

(** ** Strings *)

Lemma append_assoc (s t u : string) : (s +:+ t) +:+ u = s +:+ (t +:+ u).
Proof.
  induction s as [|c s IH]; [done|].
  change (String c ((s +:+ t) +:+ u) = String c (s +:+ (t +:+ u))). by rewrite IH.
Qed.

Lemma append_not_empty (s t : string) : t ≠ "" → s +:+ t ≠ "".
Proof. destruct s; simpl; [done|]. intros _. discriminate. Qed.

Lemma length_pos_eqb (s : string) :
  (0 <? String.length s)%nat = negb (String.eqb s "").
Proof. by destruct s. Qed.

Lemma length_zero_eqb (s : string) :
  (String.length s =? 0)%nat = String.eqb s "".
Proof. by destruct s. Qed.

Lemma concat_cons_cons (x y : string) (l : list string) :
  String.concat " " (x :: y :: l) = x +:+ " " +:+ String.concat " " (y :: l).
Proof. reflexivity. Qed.

Lemma concat_not_empty (x : string) (l : list string) :
  x ≠ "" → String.concat " " (x :: l) ≠ "".
Proof.
  intros Hx. destruct l as [|y l]; [done|]. rewrite concat_cons_cons.
  destruct x; [done|]. discriminate.
Qed.

Lemma nonEmpty_cons (x : string) (l : list string) :
  nonEmpty (x :: l) = if decide (x = "") then nonEmpty l else x :: nonEmpty l.
Proof.
  unfold nonEmpty. rewrite filter_cons.
  destruct (decide (x ≠ "")), (decide (x = "")); done.
Qed.

(** Appending one more text to what is pending. *)
Lemma concat_step (p t : string) (rest : list string) :
  t ≠ "" →
  String.concat " "
    (nonEmpty ((if String.eqb p "" then t else p +:+ " " +:+ t) :: rest))
  = String.concat " " (nonEmpty (p :: t :: rest)).
Proof.
  intros Ht. destruct (String.eqb_spec p "") as [->|Hp].
  - rewrite (nonEmpty_cons ""). by rewrite decide_True.
  - rewrite (nonEmpty_cons p), decide_False by done.
    rewrite (nonEmpty_cons t), decide_False by done.
    rewrite nonEmpty_cons, decide_False by (by apply append_not_empty, append_not_empty).
    destruct (nonEmpty rest) as [|r R].
    + reflexivity.
    + rewrite !concat_cons_cons. by rewrite !append_assoc.
Qed.

(** ** Transcripts *)

Lemma interrupt_fields (a : AIAgent) :
  pendingTranscript (interrupt a) = pendingTranscript a
  ∧ processingLLM (interrupt a) = processingLLM a
  ∧ isSpeaking (interrupt a) = isSpeaking a
  ∧ cancelLLM (interrupt a) = cancelLLM a
  ∧ cancelSpeaking (interrupt a) = false
  ∧ effects (interrupt a) =
      effects a ++ (if cancelSpeaking a then [CloseCancelSpeaking] else [])
                ++ (if cancelLLM a then [CancelLLM] else []).
Proof.
  unfold interrupt. destruct a as [p l s [] [] e]; simpl;
    rewrite ?app_nil_r, <- ?app_assoc; done.
Qed.

Lemma handleTranscript_fields (t : string) (f : bool) (a : AIAgent) :
  let a' := handleTranscript t f a in
  let heard := isSpeaking a && negb (String.eqb t "") in
  pendingTranscript a' =
    (if f && negb (String.eqb t "")
     then (if String.eqb (pendingTranscript a) "" then t
           else pendingTranscript a +:+ " " +:+ t)
     else pendingTranscript a)
  ∧ processingLLM a' = processingLLM a
  ∧ isSpeaking a' = isSpeaking a
  ∧ cancelLLM a' = cancelLLM a
  ∧ cancelSpeaking a' = (if heard then false else cancelSpeaking a)
  ∧ effects a' =
      effects a ++
      (if heard
       then (if cancelSpeaking a then [CloseCancelSpeaking] else [])
              ++ (if cancelLLM a then [CancelLLM] else [])
       else []).
Proof.
  unfold handleTranscript. cbn zeta.
  destruct (interrupt_fields a) as (I1 & I2 & I3 & I4 & I5 & I6).
  destruct (isSpeaking a && negb (String.eqb t "")) eqn:Eh;
    destruct (f && negb (String.eqb t "")) eqn:Ef; simpl;
    rewrite ?length_pos_eqb, ?I1, ?I2, ?I3, ?I4, ?I5, ?I6, ?app_nil_r;
    repeat split; try done.
  - destruct (String.eqb_spec (pendingTranscript a) "") as [->|_]; simpl; [done|].
    by rewrite append_assoc.
  - destruct (String.eqb_spec (pendingTranscript a) "") as [->|_]; simpl; [done|].
    by rewrite append_assoc.
Qed.

Lemma finalTexts_cons (t : string) (f : bool) (ts : list (string * bool)) :
  finalTexts ((t, f) :: ts)
  = if f && negb (String.eqb t "") then t :: finalTexts ts else finalTexts ts.
Proof.
  unfold finalTexts. rewrite filter_cons.
  destruct (decide ((t, f).2 = true ∧ (t, f).1 ≠ "")) as [[Hf Ht]|Hn]; simpl in *.
  - subst f. apply String.eqb_neq in Ht. by rewrite Ht.
  - destruct f; [|done]. destruct (String.eqb_spec t "") as [->|Hne]; [done|].
    destruct Hn. done.
Qed.

Lemma handleTranscripts_pending (ts : list (string * bool)) : ∀ a,
  pendingTranscript (handleTranscripts ts a)
    = String.concat " " (nonEmpty (pendingTranscript a :: finalTexts ts))
  ∧ processingLLM (handleTranscripts ts a) = processingLLM a.
Proof.
  unfold handleTranscripts.
  induction ts as [|[t f] ts IH]; intros a.
  - simpl. split; [|done]. rewrite nonEmpty_cons.
    destruct (decide (pendingTranscript a = "")) as [->|Hne]; done.
  - cbn [foldl fst snd].
    destruct (handleTranscript_fields t f a) as (P & L & _).
    destruct (IH (handleTranscript t f a)) as [-> ->]. split; [|done].
    rewrite P, finalTexts_cons.
    destruct (f && negb (String.eqb t "")) eqn:Ef; [|done].
    apply concat_step. apply andb_prop in Ef as [_ Ht].
    apply negb_true_iff, String.eqb_neq in Ht. done.
Qed.

(** X23.  What the agent sends to the model.  In a run of transcripts the
    final, non-empty ones are appended to the pending transcript with one
    space between any two; transcripts that are not final or are empty
    leave it as it is, and no transcript changes whether a request is
    under way.  At the end of the utterance exactly this text goes to the
    model, once, and the pending transcript is empty again; while a request
    is under way, or when nothing is pending, the end of an utterance
    starts nothing and what is pending stays. *)
Theorem X23_final_transcripts_accumulate (ts : list (string * bool)) (a : AIAgent) :
  let a' := handleTranscripts ts a in
  let text := String.concat " " (nonEmpty (pendingTranscript a :: finalTexts ts)) in
  pendingTranscript a' = text
  ∧ processingLLM a' = processingLLM a
  ∧ (text ≠ "" → processingLLM a = false →
     let a'' := handleUtteranceEnd a' in
     effects a'' = effects a' ++ [GoProcessWithLLM text]
     ∧ pendingTranscript a'' = "" ∧ processingLLM a'' = true
     ∧ handleUtteranceEnd a'' = a'')
  ∧ (text = "" ∨ processingLLM a = true → handleUtteranceEnd a' = a').
Proof.
  intros a' text.
  destruct (handleTranscripts_pending ts a) as [P L]. fold a' text in P, L.
  split; [done|]. split; [done|]. split.
  - intros Ht Hl. unfold handleUtteranceEnd.
    rewrite length_zero_eqb, P, L, Hl.
    replace (String.eqb text "") with false
      by (symmetry; by apply String.eqb_neq).
    simpl. done.
  - intros Hcase. unfold handleUtteranceEnd. rewrite length_zero_eqb, P, L.
    destruct Hcase as [-> | ->]; [done|]. by rewrite orb_true_r.
Qed.

(** "hello" and "world" are final, the others are not or are empty. *)
Example transcripts_demo :
  let a := handleTranscripts
             [("hel", false); ("hello", true); ("", true); ("wor", false); ("world", true)]
             (mkAIAgent "" false false false false []) in
  pendingTranscript a = "hello world"
  ∧ effects (handleUtteranceEnd a) = [GoProcessWithLLM "hello world"]
  ∧ effects (handleUtteranceEnd (handleUtteranceEnd a)) = [GoProcessWithLLM "hello world"].
Proof. vm_compute. done. Qed.

(** ** Interruptions *)

Lemma count_app e (l k : list Effect) : count e (l ++ k) = (count e l + count e k)%nat.
Proof. unfold count. by rewrite filter_app, length_app. Qed.

Lemma handleTranscripts_effects (ts : list (string * bool)) : ∀ a,
  let a' := handleTranscripts ts a in
  let heard := filter (λ t : string * bool, t.1 ≠ "") ts in
  isSpeaking a' = isSpeaking a
  ∧ cancelLLM a' = cancelLLM a
  ∧ ∃ new, effects a' = effects a ++ new
      ∧ count CloseCancelSpeaking new =
          (if isSpeaking a && cancelSpeaking a && bool_decide (heard ≠ [])
           then 1 else 0)%nat
      ∧ count CancelLLM new =
          (if isSpeaking a && cancelLLM a then length heard else 0)%nat
      ∧ (∀ t, count (GoProcessWithLLM t) new = 0%nat)
      ∧ (isSpeaking a = false → new = []).
Proof.
  unfold handleTranscripts.
  induction ts as [|[t f] ts IH]; intros a; cbn zeta.
  - simpl. repeat split; try done. exists []. rewrite app_nil_r.
    rewrite !andb_false_r. by destruct (isSpeaking a && cancelLLM a).
  - cbn [foldl fst snd].
    destruct (handleTranscript_fields t f a) as (_ & _ & S1 & C1 & K1 & E1).
    destruct (IH (handleTranscript t f a)) as (S2 & C2 & new & E2 & N1 & N2 & N3 & N4).
    cbn zeta in *. rewrite S2, C2, S1, C1. split; [done|]. split; [done|].
    rewrite S1, C1, K1 in *. rewrite E2, E1, <- app_assoc. eexists. split; [done|].
    destruct (String.eqb_spec t "") as [->|Hne].
    + rewrite filter_cons_False by (simpl; intros ?; done).
      rewrite andb_false_r in *. simpl. done.
    + rewrite filter_cons_True by done.
      rewrite andb_true_r in *.
      destruct (isSpeaking a) eqn:Es; simpl.
      * rewrite !count_app, N1, N2. simpl.
        split; [|split; [|split]].
        -- destruct (cancelSpeaking a), (cancelLLM a); simpl; lia.
        -- destruct (cancelSpeaking a), (cancelLLM a); simpl; lia.
        -- intros u. rewrite !count_app, N3.
           destruct (cancelSpeaking a), (cancelLLM a); simpl; done.
        -- done.
      * simpl in *. rewrite N4 by done. done.
Qed.

(** X24.  Interruptions.  While the agent speaks, every non-empty
    transcript interrupts it, final or not.  However many arrive, the
    cancel channel of the speech is closed at most once, by the first of
    them, since interrupt forgets the channel when it closes it; the
    request to the model is cancelled once for each of them, as long as
    one is registered.  A transcript never starts a request, and when the
    agent is not speaking transcripts have no effect on the outside. *)
Theorem X24_speech_is_cancelled_once (ts : list (string * bool)) (a : AIAgent) :
  let a' := handleTranscripts ts a in
  let heard := filter (λ t : string * bool, t.1 ≠ "") ts in
  ∃ new,
    effects a' = effects a ++ new
    ∧ count CloseCancelSpeaking new =
        (if isSpeaking a && cancelSpeaking a && bool_decide (heard ≠ [])
         then 1 else 0)%nat
    ∧ count CancelLLM new =
        (if isSpeaking a && cancelLLM a then length heard else 0)%nat
    ∧ (∀ t, count (GoProcessWithLLM t) new = 0%nat)
    ∧ (isSpeaking a = false → new = [])
    ∧ isSpeaking a' = isSpeaking a.
Proof.
  intros a' heard.
  destruct (handleTranscripts_effects ts a) as (S1 & _ & new & E & N1 & N2 & N3 & N4).
  exists new. repeat split; done.
Qed.

(** Three transcripts reach an agent that is speaking: the channel is
    closed once, the request cancelled twice. *)
Example interruption_demo :
  effects (handleTranscripts [("stop", false); ("", false); ("stop it", true)]
             speakingAgent)
  = [CloseCancelSpeaking; CancelLLM; CancelLLM].
Proof. vm_compute. reflexivity. Qed.

(** ** Speaking *)

Local Open Scope Z_scope.

Lemma wrap_int64_add (a b : Z) : wrap_int64 (wrap_int64 a + b) = wrap_int64 (a + b).
Proof.
  unfold wrap_int64. f_equal.
  replace ((a + 2 ^ 63) mod 2 ^ 64 - 2 ^ 63 + b + 2 ^ 63)
    with ((a + 2 ^ 63) mod 2 ^ 64 + b) by lia.
  rewrite Zplus_mod_idemp_l. f_equal. lia.
Qed.

Lemma wrap_int64_range (a : Z) : - 2 ^ 63 ≤ wrap_int64 a < 2 ^ 63.
Proof.
  unfold wrap_int64. pose proof (Z.mod_pos_bound (a + 2 ^ 63) (2 ^ 64) ltac:(lia)). lia.
Qed.

Lemma sendFrames_ticks (k : nat) : ∀ frames stop c sent tr (k0 : nat) seq0 ts0,
  Rtp.audioTrack c = Some tr →
  Rtp.rtpSeqNum c = (seq0 + Z.of_nat k0) mod 2 ^ 16 →
  Rtp.rtpTimestamp c = (ts0 + 960 * Z.of_nat k0) mod 2 ^ 32 →
  head stop ≠ Some (Ticked true) →
  - 2 ^ 63 ≤ sent < 2 ^ 63 →
  let r := sendFrames frames (replicate k (Ticked true) ++ stop) c sent in
  Rtp.emitted r.1 = Rtp.emitted c ++ packetsOf seq0 ts0 k0 (take k frames)
  ∧ r.2 = wrap_int64 (sent + totalLen (take k frames)).
Proof.
  induction k as [|k IH]; intros frames stop c sent tr k0 seq0 ts0 Htr Hs Ht Hstop Hsent.
  - rewrite take_0. cbn [replicate app packetsOf totalLen foldr].
    rewrite app_nil_r, Z.add_0_r, wrap_int64_small by done.
    destruct frames as [|f fs]; [done|].
    destruct stop as [|[|[|]] rest]; cbn [sendFrames]; try done.
    destruct (RtpSpec.WriteOpus_rejected f c tr Htr) as (_ & _ & He).
    unfold Rtp.WriteOpus in *. rewrite Htr in *. done.
  - destruct frames as [|f fs].
    + cbn [replicate app sendFrames take packetsOf totalLen foldr].
      rewrite app_nil_r, Z.add_0_r, wrap_int64_small by done. done.
    + cbn [replicate app sendFrames take packetsOf totalLen foldr].
      destruct (RtpSpec.WriteOpus_accepted f c tr Htr) as (H1 & H2 & H3 & H4 & H5).
      destruct (Rtp.WriteOpus true f c) as [c1 out] eqn:E. cbn [fst snd] in *. subst out.
      destruct (IH fs stop c1 (wrap_int64 (sent + len f)) tr (S k0) seq0 ts0)
        as [I1 I2]; [done| | |done|apply wrap_int64_range|].
      { rewrite H2, Hs. unfold wrap_uint16. rewrite Zplus_mod_idemp_l. f_equal. lia. }
      { rewrite H3, Ht. unfold wrap_uint32. rewrite Zplus_mod_idemp_l. f_equal. lia. }
      cbn zeta in I1, I2. rewrite I1, I2, H4, Hs, Ht, <- app_assoc.
      split.
      * do 2 f_equal.
      * rewrite wrap_int64_add. f_equal. unfold totalLen. lia.
Qed.

Lemma framesOf_nil (fuel : nat) : framesOf fuel [] = [].
Proof. by destruct fuel. Qed.

(** A buffer of one frame's length is cut into that one frame. *)
Lemma wholeFrames_one (all : list byte) :
  len all = frameBytes → wholeFrames all = [all].
Proof.
  intros Hall. unfold wholeFrames.
  assert (Hl : length all = Z.to_nat frameBytes) by (unfold len in Hall; lia).
  rewrite Hl. rewrite frameBytes_eq in *.
  change (Z.to_nat 3840) with (S (Z.to_nat 3839)). cbn [framesOf].
  rewrite frameBytes_eq, Hall. change (3840 <=? 3840) with true. cbv iota.
  change (S (Z.to_nat 3839)) with (Z.to_nat 3840).
  rewrite <- Hl, firstn_all, drop_all, framesOf_nil. done.
Qed.

Section Speaking.
Context `{Opus}.

Lemma encodeAll_app (l1 l2 : list (list byte)) : ∀ e,
  encodeAll (l1 ++ l2) e
    = ((encodeAll l2 (encodeAll l1 e).1).1,
       (encodeAll l1 e).2 ++ (encodeAll l2 (encodeAll l1 e).1).2).
Proof.
  induction l1 as [|frame l1 IH]; intros e.
  - cbn [app encodeAll fst snd]. by destruct (encodeAll l2 e).
  - cbn [app encodeAll]. destruct (Encode (samplesOf frame) e) as [e1 r].
    rewrite IH. destruct (encodeAll l1 e1) as [e2 out1]. cbn [fst snd].
    destruct (encodeAll l2 e2) as [e3 out2]. cbn [fst snd]. by destruct r.
Qed.

(** An encoder that accepts every frame returns one packet per frame. *)
Lemma encodeAll_accepts (frames : list (list byte)) : ∀ e,
  accepts_frames → Forall (λ frame, len frame = frameBytes) frames →
  len (encodeAll frames e).2 = len frames.
Proof.
  intros e Hacc Hall. revert e.
  induction Hall as [|frame frames Hf _ IH]; intros e; [done|].
  cbn [encodeAll].
  assert (Hs : len (samplesOf frame) = 1920).
  { rewrite PcmSpec.len_samplesOf, Hf, frameBytes_eq. done. }
  destruct (Encode_accepts (samplesOf frame) e Hacc Hs) as (e' & d & ->).
  specialize (IH e'). destruct (encodeAll frames e') as [e'' out].
  cbn [fst snd] in *. unfold len in *. cbn [length]. lia.
Qed.

(** [Flush] on less than a frame: the bytes, padded with zeros to one
    frame, go to libopus. *)
Lemma Flush_short (p : AudioPipeline) :
  0 < len (buffer p) < frameBytes →
  let frame := buffer p
                 ++ replicate (Z.to_nat (frameBytes - len (buffer p))) Byte.x00 in
  Flush p = Ok (mkAudioPipeline (encodeAll [frame] (pl_encoder p)).1 [],
                (encodeAll [frame] (pl_encoder p)).2).
Proof.
  intros Hb frame. unfold Flush.
  rewrite (proj2 (Z.ltb_lt _ _) (proj1 Hb)).
  rewrite (Z.mod_small (len (buffer p))) by lia.
  rewrite make_ok by lia. rewrite bind_Ok. cbn [buffer pl_encoder]. fold frame.
  assert (Hlen : len frame = frameBytes).
  { unfold frame. rewrite len_app. unfold len at 2. rewrite length_replicate. lia. }
  assert (Hfuel : len frame / frameBytes ≤ Z.of_nat (length frame)).
  { rewrite Hlen, Z.div_same by (rewrite frameBytes_eq; lia).
    unfold len in Hlen. rewrite frameBytes_eq in Hlen. lia. }
  rewrite (FrameSpec.drainFrames_frames _ (mkAudioPipeline (pl_encoder p) frame) [] Hfuel).
  cbn [buffer pl_encoder app]. fold (wholeFrames frame).
  rewrite (wholeFrames_one frame Hlen).
  rewrite Hlen, Z.div_same by (rewrite frameBytes_eq; lia).
  rewrite drop_ge by (unfold len in Hlen; lia). done.
Qed.

(** The frames of one response: the whole frames of the stereo audio, and
    one more, padded with zeros, for what is left. *)
Lemma frames_of_a_response (pcmData : list byte) (p : AudioPipeline) :
  pcmData ≠ [] → len pcmData < 2 ^ 58 → buffer p = [] →
  ∃ mono,
    ResampleMono pcmData 22050 48000 = Ok mono
    ∧ len mono = 2 * outputSamplesOf (len pcmData / 2) 22050 48000
    ∧ let stereo := duplicateSamples mono in
      let rest := drop (Z.to_nat (frameBytes * (len stereo / frameBytes))) stereo in
      let last :=
        if 0 <? len rest
        then [rest ++ replicate (Z.to_nat (frameBytes - len rest)) Byte.x00]
        else [] in
      let r := encodeAll (wholeFrames stereo ++ last) (pl_encoder p) in
      ∃ p1 frames1 frames2,
        ProcessChunk pcmData p = Ok (p1, frames1)
        ∧ Flush p1 = Ok (mkAudioPipeline r.1 [], frames2)
        ∧ frames1 ++ frames2 = r.2
        ∧ len rest = len stereo mod frameBytes.
Proof.
  intros Hne Hlen Hbuf.
  destruct (FrameSpec.ProcessChunk_eq pcmData p Hne Hlen) as (mono & Hres & Hpc).
  destruct (ResampleMono_22050_48000 pcmData Hlen) as (out & Hres' & Hout).
  rewrite Hres in Hres'. injection Hres' as <-.
  exists mono. split; [done|]. split; [done|].
  rewrite Hbuf in Hpc. cbn [app] in Hpc. cbn zeta in Hpc.
  intros stereo rest last r. fold stereo in Hpc. fold rest in Hpc.
  assert (Hrest : len rest = len stereo mod frameBytes).
  { unfold rest, len. rewrite length_drop, frameBytes_eq.
    set (n := length stereo). div_mod_lia. }
  assert (Hr : r = ((encodeAll last (encodeAll (wholeFrames stereo) (pl_encoder p)).1).1,
                    (encodeAll (wholeFrames stereo) (pl_encoder p)).2
                      ++ (encodeAll last (encodeAll (wholeFrames stereo) (pl_encoder p)).1).2))
    by apply encodeAll_app.
  set (r1 := encodeAll (wholeFrames stereo) (pl_encoder p)) in *.
  assert (Hmod : 0 ≤ len stereo mod frameBytes < frameBytes).
  { apply Z.mod_pos_bound. rewrite frameBytes_eq. lia. }
  unfold last in *. destruct (Z.ltb_spec 0 (len rest)) as [Hpos|Hzero].
  - pose proof (Flush_short (mkAudioPipeline r1.1 rest) ltac:(cbn [buffer]; lia)) as Hf.
    cbn [buffer pl_encoder] in Hf. cbn zeta in Hf.
    eexists _, _, _. split; [exact Hpc|].
    rewrite Hf, Hr. done.
  - assert (Hnil : rest = []).
    { apply nil_length_inv. unfold len in *. lia. }
    eexists _, _, []. split; [exact Hpc|].
    rewrite Hnil. unfold Flush. cbn [buffer]. change (0 <? len []) with false.
    cbv iota. rewrite Hr. cbn [encodeAll fst snd]. rewrite app_nil_r.
    by rewrite <- Hnil.
Qed.

(** X25.  One response, from PCM to RTP.  speakResponse empties the
    pipeline and turns the synthesized audio into frames: the resampled
    audio, made stereo, is cut in order into frames of 3840 bytes, and what
    is left after the last whole frame is padded with zeros to one more
    frame.  These frames go to libopus in this order, and the packets
    libopus returns are written in order, one per tick, each as the payload
    of an RTP packet; the packets carry consecutive sequence numbers and
    timestamps 960 apart, continuing the client's.  When the speech is
    cancelled, a write fails or the ticks end after k packets, exactly the
    first k have gone out.  The counter audioSent grows by the payload
    bytes of these, the pipeline keeps the encoder as libopus left it and
    an empty buffer, and an encoder that accepts every frame gives one
    packet per frame. *)
Theorem X25_speakResponse_sends_the_frames_in_order
    (pcmData : list byte) (k : nat) (stop : list Tick) (a : Voice) :
  is_Some (Rtp.audioTrack (client a)) →
  0 ≤ Rtp.rtpSeqNum (client a) < 2 ^ 16 → 0 ≤ Rtp.rtpTimestamp (client a) < 2 ^ 32 →
  - 2 ^ 63 ≤ audioSent a < 2 ^ 63 →
  pcmData ≠ [] → len pcmData < 2 ^ 58 →
  head stop ≠ Some (Ticked true) →
  ∃ mono stereo a',
    ResampleMono pcmData 22050 48000 = Ok mono
    ∧ MonoToStereo mono = Ok stereo
    ∧ len stereo = 4 * outputSamplesOf (len pcmData / 2) 22050 48000
    ∧ let rest := drop (Z.to_nat (frameBytes * (len stereo / frameBytes))) stereo in
      let last :=
        if 0 <? len rest
        then [rest ++ replicate (Z.to_nat (frameBytes - len rest)) Byte.x00]
        else [] in
      let frames := wholeFrames stereo ++ last in
      let r := encodeAll frames (pl_encoder (audioPipeline a)) in
      let opusFrames := r.2 in
      speakResponse (Some pcmData) (replicate k (Ticked true) ++ stop) a = Ok a'
      ∧ Forall (λ frame, len frame = frameBytes) frames
      ∧ len frames = len stereo / frameBytes
                     + (if len stereo mod frameBytes =? 0 then 0 else 1)
      ∧ (accepts_frames → len opusFrames = len frames)
      ∧ Rtp.emitted_since (client a) (client a')
          = packetsOf (Rtp.rtpSeqNum (client a)) (Rtp.rtpTimestamp (client a)) 0
                      (take k opusFrames)
      ∧ audioSent a' = wrap_int64 (audioSent a + totalLen (take k opusFrames))
      ∧ audioPipeline a' = mkAudioPipeline r.1 [].
Proof.
  intros [tr Htr] Hs Ht Hsent Hne Hlen Hstop.
  destruct (frames_of_a_response pcmData (Reset (audioPipeline a)) Hne Hlen)
    as (mono & Hres & Hmono & Hrun); [done|].
  exists mono, (duplicateSamples mono).
  set (stereo := duplicateSamples mono) in *. cbn zeta in Hrun.
  set (rest := drop (Z.to_nat (frameBytes * (len stereo / frameBytes))) stereo) in *.
  set (last := if 0 <? len rest
               then [rest ++ replicate (Z.to_nat (frameBytes - len rest)) Byte.x00]
               else []) in *.
  change (pl_encoder (Reset (audioPipeline a))) with (pl_encoder (audioPipeline a)) in Hrun.
  set (r := encodeAll (wholeFrames stereo ++ last) (pl_encoder (audioPipeline a))) in *.
  destruct Hrun as (p1 & frames1 & frames2 & Hpc & Hfl & Hfr & Hrest).
  destruct (sendFrames_ticks k r.2 stop (client a) (audioSent a) tr 0
              (Rtp.rtpSeqNum (client a)) (Rtp.rtpTimestamp (client a)) Htr)
    as [E1 E2]; [| |done|done|].
  { rewrite Z.add_0_r, Z.mod_small; lia. }
  { rewrite Z.mul_0_r, Z.add_0_r, Z.mod_small; lia. }
  cbn zeta in E1, E2.
  destruct (FrameSpec.wholeFrames_spec stereo) as (_ & Hall & Hn).
  assert (Hmod : 0 ≤ len stereo mod frameBytes < frameBytes).
  { apply Z.mod_pos_bound. rewrite frameBytes_eq. lia. }
  assert (Hlast : Forall (λ frame, len frame = frameBytes) last
                  ∧ len last = if len stereo mod frameBytes =? 0 then 0 else 1).
  { unfold last. destruct (Z.ltb_spec 0 (len rest)) as [Hpos|Hzero].
    - rewrite (proj2 (Z.eqb_neq _ _)) by lia. split; [|done].
      apply Forall_singleton. rewrite len_app. unfold len at 2.
      rewrite length_replicate. lia.
    - rewrite (proj2 (Z.eqb_eq _ _)) by lia. done. }
  destruct Hlast as [Hlast Hnlast].
  assert (Hframes : Forall (λ frame, len frame = frameBytes) (wholeFrames stereo ++ last))
    by (by apply Forall_app).
  destruct (sendFrames r.2 (replicate k (Ticked true) ++ stop)
              (client a) (audioSent a)) as [c' sent'] eqn:Esend.
  cbn [fst snd] in E1, E2.
  exists (mkVoice (mkAudioPipeline r.1 []) c' sent').
  split; [done|]. split; [apply MonoToStereo_eq|].
  split; [unfold stereo; rewrite len_duplicateSamples, Hmono; f_equal; div_mod_lia|].
  cbn zeta. split.
  { unfold speakResponse. rewrite Hpc, bind_Ok, Hfl, bind_Ok, Hfr.
    fold stereo rest last r. by rewrite Esend. }
  cbn [audioPipeline client audioSent].
  split; [done|]. split; [rewrite len_app, Hn; f_equal; exact Hnlast|].
  split; [intros Hacc; by apply encodeAll_accepts|].
  split; [unfold Rtp.emitted_since; rewrite E1; apply drop_app_length|].
  done.
Qed.

End Speaking.

Lemma X25_witness :
  let a := mkVoice (H := demoOpus) afterSixSamples Rtp.connectedClient 0 in
  ∃ mono stereo a',
    ResampleMono sixSamples 22050 48000 = Ok mono
    ∧ MonoToStereo mono = Ok stereo
    ∧ len stereo = 4 * outputSamplesOf (len sixSamples / 2) 22050 48000
    ∧ let rest := drop (Z.to_nat (frameBytes * (len stereo / frameBytes))) stereo in
      let last :=
        if 0 <? len rest
        then [rest ++ replicate (Z.to_nat (frameBytes - len rest)) Byte.x00]
        else [] in
      let frames := wholeFrames stereo ++ last in
      let r := encodeAll (H := demoOpus) frames (pl_encoder (audioPipeline a)) in
      let opusFrames := r.2 in
      speakResponse (Some sixSamples) (replicate 1 (Ticked true) ++ [Cancelled]) a = Ok a'
      ∧ Forall (λ frame, len frame = frameBytes) frames
      ∧ len frames = len stereo / frameBytes
                     + (if len stereo mod frameBytes =? 0 then 0 else 1)
      ∧ (accepts_frames (H := demoOpus) → len opusFrames = len frames)
      ∧ Rtp.emitted_since (client a) (client a')
          = packetsOf (Rtp.rtpSeqNum (client a)) (Rtp.rtpTimestamp (client a)) 0
                      (take 1 opusFrames)
      ∧ audioSent a' = wrap_int64 (audioSent a + totalLen (take 1 opusFrames))
      ∧ audioPipeline a' = mkAudioPipeline r.1 [].
Proof.
  apply (X25_speakResponse_sends_the_frames_in_order (H := demoOpus)
           sixSamples 1 [Cancelled]
           (mkVoice (H := demoOpus) afterSixSamples Rtp.connectedClient 0)).
  - vm_compute. eauto.
  - vm_compute. split; congruence.
  - vm_compute. split; congruence.
  - vm_compute. split; congruence.
  - discriminate.
  - vm_compute. reflexivity.
  - simpl. congruence.
Defined.

(** Six samples are spoken and not interrupted: one padded frame, one
    packet with sequence number 0, one payload byte counted. *)
Example speakResponse_demo :
  match speakResponse (H := demoOpus) (Some sixSamples)
          [Ticked true; Ticked true]
          (mkVoice (H := demoOpus) afterSixSamples Rtp.connectedClient 0) with
  | Ok a' =>
      ((λ p, (Rtp.SequenceNumber (Rtp.pkt_Header p), Rtp.Payload p))
         <$> Rtp.emitted (client a'),
       audioSent a', buffer (audioPipeline a'))
  | Panicked _ => ([], 0, [])
  end = ([(0, [Byte.x00])], 1, []).
Proof. vm_compute. reflexivity. Qed.

End AgentSpec.

(* ===================================================================== *)
(** * The resampler of the AssemblyAI client *)
(* ===================================================================== *)

Module ResamplerSpec.

Import Bytes BytesSpec Audio Float64Spec AudioSpec AssemblyAI.
Local Open Scope Z_scope.

(** [ratio := float64(fromRate) / float64(toRate)] is a positive number
    between 2^-64 and 2^65. *)
Lemma ratio_pos fromRate toRate :
  0 < fromRate < 2 ^ 63 → 0 < toRate < 2 ^ 63 →
  ∃ M, -63 ≤ M ≤ 65
    ∧ pos_finite (f64_div (f64_of_int fromRate) (f64_of_int toRate)) M M.
Proof. intros Hf Ht. exact (ratioOf_pos toRate fromRate Ht Hf). Qed.

(** [outputLen] is a natural number unless the quotient does not fit. *)
Lemma outputLen_cases n R M :
  0 ≤ n < 2 ^ 57 → -63 ≤ M ≤ 65 → pos_finite R M M →
  let outputLen := f64_to_int (f64_div (f64_of_int n) R) in
  outputLen = - 2 ^ 63
  ∨ (0 ≤ outputLen < 2 ^ 63 ∧ outputLen < 2 ^ Z.max 0 (60 - M) ∧ (n = 0 → outputLen = 0)).
Proof.
  intros Hn HM HR outputLen. subst outputLen.
  destruct (Z.eq_dec n 0) as [->|Hn0].
  { right. rewrite f64_of_int_0, (f64_div_zero_l _ _ _ HR).
    change (f64_to_int (S754_zero false)) with 0.
    split; [lia|]. split; [|done]. apply pow2_pos. lia. }
  pose proof (f64_of_int_range n 57 ltac:(lia) ltac:(lia)) as HN.
  pose proof (f64_div_pos _ _ _ _ _ _ HN HR ltac:(lia) ltac:(lia)) as HP.
  destruct (f64_to_int_pos_cases _ _ _ HP) as [?|[Htr Hos]]; [by left|right].
  destruct (f64_trunc_pos _ _ _ HP) as (z & Ez & Hz & _).
  rewrite Htr in Ez. injection Ez as Ez. rewrite <- Ez in Hz.
  split; [done|]. split; [|done].
  replace (60 - M) with (57 + 1 - M + 2) by lia. lia.
Qed.

(** The source index of every output sample is a natural number below
    2^62. *)
Lemma srcIndexInt_bounds R M i :
  -63 ≤ M ≤ 65 → pos_finite R M M →
  0 ≤ i < 2 ^ Z.max 0 (60 - M) → i < 2 ^ 63 →
  0 ≤ f64_to_int (f64_mul (f64_of_int i) R) < 2 ^ 62.
Proof.
  intros HM HR Hi Hi63.
  destruct (Z.eq_dec i 0) as [->|Hi0].
  { rewrite f64_of_int_0, (f64_mul_zero_l _ _ _ HR).
    change (f64_to_int (S754_zero false)) with 0. lia. }
  assert (Hhp : 0 < 60 - M).
  { destruct (Z.le_gt_cases (60 - M) 0) as [Hle|]; [|done].
    rewrite Z.max_l in Hi by lia. lia. }
  rewrite Z.max_r in Hi by lia.
  destruct (f64_of_int_pos i) as (p & Ep & HI); [lia| |].
  { apply Z.lt_le_trans with (2 ^ 63); [lia|]. apply Z.pow_le_mono_r; lia. }
  assert (Hdi : 1 ≤ Z.pos (digits2_pos p) ≤ 60 - M).
  { apply (digits_between p 0); [lia|]. lia. }
  pose proof (f64_mul_pos _ _ _ _ _ _ HI HR ltac:(lia) ltac:(lia)) as HS.
  destruct (f64_to_int_pos _ _ _ HS ltac:(lia)) as [_ Hsrc].
  split; [lia|].
  apply Z.lt_le_trans with (2 ^ Z.max 0 (Z.pos (digits2_pos p) + 1 + M + 1)); [lia|].
  apply Z.pow_le_mono_r; lia.
Qed.

Lemma int16_f64_to_int16 f : int16 (f64_to_int16 f).
Proof. unfold f64_to_int16. apply PcmSpec.wrap_int16_int16. Qed.

Lemma Forall_insert_int16 (l : list Z) (i : nat) x :
  Forall int16 l → int16 x → Forall int16 (<[i := x]> l).
Proof. intros Hl Hx. by apply Forall_insert. Qed.

(** One iteration of the loop: no index is out of range. *)
Lemma resampleStep_in_bounds (samples : list Z) R M i (output : list Z) :
  -63 ≤ M ≤ 65 → pos_finite R M M →
  0 ≤ i < 2 ^ Z.max 0 (60 - M) → i < len output → len output < 2 ^ 63 →
  ∃ output', resampleStep samples R i output = Ok output'
    ∧ len output' = len output
    ∧ (Forall int16 samples → Forall int16 output → Forall int16 output').
Proof.
  intros HM HR Hi Hlt Hout.
  pose proof (srcIndexInt_bounds R M i HM HR Hi ltac:(lia)) as Hs.
  unfold resampleStep.
  set (s := f64_to_int (f64_mul (f64_of_int i) R)) in *.
  rewrite (wrap_int64_small (s + 1)) by lia.
  destruct (Z.ltb_spec (s + 1) (len samples)) as [H1|H1].
  - destruct (lookup_lt_len samples s ltac:(lia)) as (x1 & E1).
    destruct (lookup_lt_len samples (s + 1) ltac:(lia)) as (x2 & E2).
    rewrite (index_ok samples s x1) by (done || lia). rewrite bind_Ok.
    rewrite (index_ok samples (s + 1) x2) by (done || lia). rewrite bind_Ok.
    rewrite store_ok by lia. eexists. split; [done|]. split.
    + unfold len. by rewrite length_insert.
    + intros _ Ho. apply Forall_insert_int16; [done|]. apply int16_f64_to_int16.
  - destruct (Z.ltb_spec s (len samples)) as [H2|H2].
    + destruct (lookup_lt_len samples s ltac:(lia)) as (x1 & E1).
      rewrite (index_ok samples s x1) by (done || lia). rewrite bind_Ok.
      rewrite store_ok by lia. eexists. split; [done|]. split.
      * unfold len. by rewrite length_insert.
      * intros Hsm Ho. apply Forall_insert_int16; [done|].
        rewrite Forall_lookup in Hsm. by apply (Hsm _ _ E1).
    + exists output. done.
Qed.

(** X26.  The AssemblyAI resampler never reads or writes out of range.
    For positive rates and fewer than 2^57 samples, resample returns the
    input itself when the rates are equal; otherwise it either panics
    when it makes the output slice, which happens exactly when the output
    length float64(len)/ratio does not fit an int, or it returns a slice
    of exactly that length, whose elements are 16-bit samples if the
    input's are.  The empty input gives the empty output. *)
Theorem X26_resample_stays_in_bounds (samples : list Z) (fromRate toRate : Z) :
  len samples < 2 ^ 57 → 0 < fromRate < 2 ^ 63 → 0 < toRate < 2 ^ 63 →
  let ratio := f64_div (f64_of_int fromRate) (f64_of_int toRate) in
  let outputLen := f64_to_int (f64_div (f64_of_int (len samples)) ratio) in
  (fromRate = toRate ∧ resample samples fromRate toRate = Ok samples)
  ∨ (fromRate ≠ toRate ∧ outputLen = - 2 ^ 63
     ∧ resample samples fromRate toRate = Panicked MakeSliceLenOutOfRange)
  ∨ (fromRate ≠ toRate ∧ 0 ≤ outputLen
     ∧ ∃ output, resample samples fromRate toRate = Ok output
         ∧ len output = outputLen
         ∧ (samples = [] → output = [])
         ∧ (Forall int16 samples → Forall int16 output)).
Proof.
  intros Hn Hf Ht ratio outputLen.
  destruct (decide (fromRate = toRate)) as [->|Hne].
  { left. split; [done|]. apply PcmSpec.resample_same_rate. }
  right.
  destruct (ratio_pos fromRate toRate Hf Ht) as (M & HM & HR). fold ratio in HR.
  pose proof (len_nonneg samples) as Hn0.
  assert (Hc : outputLen = - 2 ^ 63
               ∨ (0 ≤ outputLen < 2 ^ 63 ∧ outputLen < 2 ^ Z.max 0 (60 - M)
                  ∧ (len samples = 0 → outputLen = 0)))
    by exact (outputLen_cases (len samples) ratio M ltac:(lia) HM HR).
  destruct Hc as [Hbad|(Hl & Hl' & Hz)].
  - left. split; [done|]. split; [done|].
    unfold resample. rewrite decide_False by done. fold ratio outputLen.
    rewrite make_neg by lia. done.
  - right. split; [done|]. split; [lia|].
    unfold resample. rewrite decide_False by done. fold ratio outputLen.
    rewrite make_ok by lia. rewrite bind_Ok.
    set (output0 := replicate (Z.to_nat outputLen) 0).
    assert (Hlen0 : len output0 = outputLen).
    { unfold len, output0. rewrite length_replicate. lia. }
    destruct (forLoop_inv
                (λ (_ : Z) (o : list Z),
                   len o = outputLen ∧ (Forall int16 samples → Forall int16 o))
                (resampleStep samples ratio) (length output0) 0 output0)
      as (output & Hloop & Hlo & Hint).
    + split; [done|]. intros _. apply Forall_replicate. unfold int16. lia.
    + intros j t Hj [Hlt Hit]. unfold len in Hlen0.
      destruct (resampleStep_in_bounds samples ratio M j t HM HR) as (t' & E & Hl1 & Hi1);
        [lia|lia|lia|].
      exists t'. split; [done|]. split; [lia|]. intros Hs. by apply Hi1; [|apply Hit].
    + exists output. split; [done|]. split; [done|]. split; [|done].
      intros ->. apply nil_length_inv. unfold len in Hlo.
      specialize (Hz eq_refl). lia.
Qed.

Lemma X26_witness :
  let samples := [100; 200; 300; 400; -500; 600] in
  let ratio := f64_div (f64_of_int 48000) (f64_of_int 16000) in
  let outputLen := f64_to_int (f64_div (f64_of_int (len samples)) ratio) in
  (48000 = 16000 ∧ resample samples 48000 16000 = Ok samples)
  ∨ (48000 ≠ 16000 ∧ outputLen = - 2 ^ 63
     ∧ resample samples 48000 16000 = Panicked MakeSliceLenOutOfRange)
  ∨ (48000 ≠ 16000 ∧ 0 ≤ outputLen
     ∧ ∃ output, resample samples 48000 16000 = Ok output
         ∧ len output = outputLen
         ∧ (samples = [] → output = [])
         ∧ (Forall int16 samples → Forall int16 output)).
Proof.
  apply (X26_resample_stays_in_bounds [100; 200; 300; 400; -500; 600] 48000 16000).
  - vm_compute. reflexivity.
  - lia.
  - lia.
Defined.

(** Six samples from 48 kHz to 16 kHz: every third sample.  Up from 16 kHz
    to 48 kHz the last two output samples have no right neighbour and
    repeat the last input sample.  With rates 1 and 2^62 the output length
    does not fit and the call panics. *)
Example resample_demo :
  resample [100; 200; 300; 400; -500; 600] 48000 16000 = Ok [100; 400]
  ∧ resample [300; 600] 16000 48000 = Ok [300; 400; 500; 600; 600; 600]
  ∧ resample [1; 2; 3; 4] 1 (2 ^ 62) = Panicked MakeSliceLenOutOfRange.
Proof. vm_compute. repeat split; reflexivity. Qed.

End ResamplerSpec.
